(** * goreader: the markup-to-grid rendering engine of [parse.go]

    A shallow embedding of [parse.go] (package main of goreader): the cell
    buffer document ([cellbuf]) with its growing backing array, the word
    scanner, the style resolver, the table stack and the token-driven parser,
    followed by the properties proved about them.

    Conventions of the embedding.
    - A Go [int] is a [Z] kept in the 64-bit two's-complement range: every
      arithmetic operation of the source goes through [GoInt.wrap].
    - A Go [string] is a Rocq [string], that is a sequence of bytes; a [rune]
      is a [Z].  Decoding follows [unicode/utf8].
    - A run-time panic of the Go program (index out of range, slice bounds,
      division by zero) is the [Panic] result of the [result] monad; the
      source has no [recover], so a panic ends the whole render.
    - Slices are lists with the top of a stack at the END of the list, as
      [append] and [s[:len(s)-1]] have it in the source. *)

From Stdlib Require Import ZArith Lia Ascii String.
From stdpp Require Import base numbers list strings.

Local Open Scope Z_scope.

(* ===================================================================== *)
(** ** Go's [int] on a 64-bit platform *)
(* ===================================================================== *)

Module GoInt.

Definition minInt : Z := -9223372036854775808.
Definition maxInt : Z := 9223372036854775807.

(** Two's-complement wrap-around of the mathematical result. *)
Definition wrap (z : Z) : Z :=
  (z + 9223372036854775808) mod 18446744073709551616 - 9223372036854775808.

Definition add (a b : Z) : Z := wrap (a + b).
Definition sub (a b : Z) : Z := wrap (a - b).
Definition mul (a b : Z) : Z := wrap (a * b).

(** [len(s)] of a slice or string, as an [int]. *)
Definition len {A} (l : list A) : Z := Z.of_nat (length l).

Definition inRange (z : Z) : Prop := minInt <= z <= maxInt.

End GoInt.

(* ===================================================================== *)
(** ** Run-time panics *)
(* ===================================================================== *)

Inductive panic : Type :=
| IndexOutOfRange (index : Z) (length : Z)
| SliceBoundsOutOfRange (high : Z)
| IntegerDivideByZero
| NegativeRepeatCount.

Inductive result (A : Type) : Type :=
| Ok (a : A)
| Panic (e : panic).

Arguments Ok {A} a.
Arguments Panic {A} e.

#[global]
Instance result_ret : MRet result := fun A a => Ok a.

#[global]
Instance result_bind : MBind result := fun A B f m =>
  match m with
  | Ok a => f a
  | Panic e => Panic e
  end.

(** [s[i]] on a slice: panics outside [0, len(s)). *)
Definition index {A} (s : list A) (i : Z) : result A :=
  if (0 <=? i) && (i <? GoInt.len s) then
    match s !! Z.to_nat i with
    | Some a => Ok a
    | None => Panic (IndexOutOfRange i (GoInt.len s))
    end
  else Panic (IndexOutOfRange i (GoInt.len s)).

(** [s[i] = v] on a slice: panics outside [0, len(s)). *)
Definition store {A} (s : list A) (i : Z) (v : A) : result (list A) :=
  if (0 <=? i) && (i <? GoInt.len s) then Ok (<[Z.to_nat i := v]> s)
  else Panic (IndexOutOfRange i (GoInt.len s)).

(** [s[:hi]] on a slice whose capacity is not smaller than its length:
    panics when [hi] is negative. *)
Definition sliceTo {A} (s : list A) (hi : Z) : result (list A) :=
  if (0 <=? hi) && (hi <=? GoInt.len s) then Ok (take (Z.to_nat hi) s)
  else Panic (SliceBoundsOutOfRange hi).

(* ===================================================================== *)
(** ** termbox-go: attributes and cells *)
(* ===================================================================== *)

Module termbox.

(** [type Attribute]: the colours are the numbers 0..8, the text attributes
    are single bits above them. *)
Definition ColorDefault : Z := 0.
Definition ColorBlack : Z := 1.
Definition ColorRed : Z := 2.
Definition ColorGreen : Z := 3.
Definition ColorYellow : Z := 4.
Definition ColorBlue : Z := 5.
Definition ColorMagenta : Z := 6.
Definition ColorCyan : Z := 7.
Definition ColorWhite : Z := 8.
Definition AttrBold : Z := Z.shiftl 1 9.

Record Cell : Type := mkCell { Ch : Z; Fg : Z; Bg : Z }.

End termbox.

(** The zero value of [termbox.Cell], what [make([]termbox.Cell, n)] holds. *)
Definition zeroCell : termbox.Cell := termbox.mkCell 0 0 0.

(* ===================================================================== *)
(** ** The cell buffer document *)
(* ===================================================================== *)

Record cellbuf : Type := mkCellbuf {
  cells : list termbox.Cell;
  width : Z;
  lmargin : Z;
  col : Z;
  row : Z;
  fg : Z;
  bg : Z
}.

Definition setCells (c : cellbuf) (v : list termbox.Cell) : cellbuf :=
  mkCellbuf v (width c) (lmargin c) (col c) (row c) (fg c) (bg c).
Definition setCol (c : cellbuf) (v : Z) : cellbuf :=
  mkCellbuf (cells c) (width c) (lmargin c) v (row c) (fg c) (bg c).
Definition setRow (c : cellbuf) (v : Z) : cellbuf :=
  mkCellbuf (cells c) (width c) (lmargin c) (col c) v (fg c) (bg c).
Definition setFg (c : cellbuf) (v : Z) : cellbuf :=
  mkCellbuf (cells c) (width c) (lmargin c) (col c) (row c) v (bg c).

(** The loop [for y*c.width+x >= len(c.cells) { c.cells = append(c.cells,
    make([]termbox.Cell, 1024)...) }].  [fuel] bounds the number of turns;
    [growTurns] is the number of turns the loop takes. *)
Fixpoint grow (fuel : nat) (cs : list termbox.Cell) (i : Z) : list termbox.Cell :=
  match fuel with
  | O => cs
  | S fuel' =>
      if GoInt.len cs <=? i then grow fuel' (cs ++ replicate 1024 zeroCell) i
      else cs
  end.

Definition growTurns (cs : list termbox.Cell) (i : Z) : nat :=
  Z.to_nat ((i - GoInt.len cs) / 1024 + 1).

(** [func (c *cellbuf) setCell(x, y int, ch rune, fg, bg termbox.Attribute)] *)
Definition setCell (c : cellbuf) (x y : Z) (ch : Z) (fg bg : Z) : result cellbuf :=
  let i := GoInt.add (GoInt.mul y (width c)) x in
  let cs := grow (growTurns (cells c) i) (cells c) i in
  cs' ← store cs i (termbox.mkCell ch fg bg);
  Ok (setCells c cs').

(* ===================================================================== *)
(** ** unicode/utf8: decoding the bytes of a string *)
(* ===================================================================== *)

Module utf8.

Definition RuneError : Z := 0xFFFD.

Definition byte (a : ascii) : Z := Z.of_N (N_of_ascii a).

(** The codes of the table [first]: [as_] marks ASCII, [xx] an invalid
    first byte; otherwise the low three bits give the size of the encoding
    and the high four bits the index into [acceptRanges]. *)
Definition xx : Z := 0xF1.
Definition as_ : Z := 0xF0.
Definition s1 : Z := 0x02.
Definition s2 : Z := 0x13.
Definition s3 : Z := 0x03.
Definition s4 : Z := 0x23.
Definition s5 : Z := 0x34.
Definition s6 : Z := 0x04.
Definition s7 : Z := 0x44.

Definition first (p0 : Z) : Z :=
  if p0 <? 0x80 then as_
  else if p0 <? 0xC2 then xx
  else if p0 <? 0xE0 then s1
  else if p0 =? 0xE0 then s2
  else if p0 <? 0xED then s3
  else if p0 =? 0xED then s4
  else if p0 <? 0xF0 then s3
  else if p0 =? 0xF0 then s5
  else if p0 <? 0xF4 then s6
  else if p0 =? 0xF4 then s7
  else xx.

Definition locb : Z := 0x80.
Definition hicb : Z := 0xBF.

(** [acceptRanges]: the range of a valid second byte. *)
Definition acceptRanges (i : Z) : Z * Z :=
  if i =? 0 then (locb, hicb)
  else if i =? 1 then (0xA0, hicb)
  else if i =? 2 then (locb, 0x9F)
  else if i =? 3 then (0x90, hicb)
  else if i =? 4 then (locb, 0x8F)
  else (0, 0).

(** [len(p) >= k], read off the first [k] bytes only. *)
Fixpoint hasLen (p : string) (k : nat) : bool :=
  match k with
  | O => true
  | S k' => match p with
            | EmptyString => false
            | String _ t => hasLen t k'
            end
  end.

(** [p[i]], for an [i] already known to be below [len(p)]. *)
Definition at_ (p : string) (i : nat) : Z :=
  match String.get i p with
  | Some a => byte a
  | None => 0
  end.

(** [func DecodeRune(p []byte) (r rune, size int)] *)
Definition DecodeRune (p : string) : Z * nat :=
  match p with
  | EmptyString => (RuneError, 0%nat)
  | String a0 _ =>
      let p0 := byte a0 in
      let x := first p0 in
      if as_ <=? x then
        (* The source selects with a mask that is all ones exactly for [xx]. *)
        (if x =? xx then RuneError else p0, 1%nat)
      else
        let sz := Z.to_nat (Z.land x 7) in
        let accept := acceptRanges (Z.shiftr x 4) in
        if negb (hasLen p sz) then (RuneError, 1%nat)
        else
          let b1 := at_ p 1 in
          if (b1 <? accept.1) || (accept.2 <? b1) then (RuneError, 1%nat)
          else if (sz <=? 2)%nat then
            (Z.lor (Z.shiftl (Z.land p0 0x1F) 6) (Z.land b1 0x3F), 2%nat)
          else
            let b2 := at_ p 2 in
            if (b2 <? locb) || (hicb <? b2) then (RuneError, 1%nat)
            else if (sz <=? 3)%nat then
              (Z.lor (Z.lor (Z.shiftl (Z.land p0 0x0F) 12)
                            (Z.shiftl (Z.land b1 0x3F) 6))
                     (Z.land b2 0x3F), 3%nat)
            else
              let b3 := at_ p 3 in
              if (b3 <? locb) || (hicb <? b3) then (RuneError, 1%nat)
              else
                (Z.lor (Z.lor (Z.lor (Z.shiftl (Z.land p0 0x07) 18)
                                     (Z.shiftl (Z.land b1 0x3F) 12))
                              (Z.shiftl (Z.land b2 0x3F) 6))
                       (Z.land b3 0x3F), 4%nat)
  end.

End utf8.

(** The runes of a string in order, as the conversion [[]rune(s)] and the
    loop [for _, r := range s] deliver them: one rune per decoded encoding,
    [utf8.RuneError] for each byte that starts no valid encoding.  The walk
    is over the bytes; [skip] counts the bytes of the rune decoded last that
    are still to be passed. *)
Fixpoint runesFrom (skip : nat) (s : string) : list Z :=
  match s with
  | EmptyString => []
  | String _ t =>
      match skip with
      | S k => runesFrom k t
      | O => let '(r, size) := utf8.DecodeRune s in r :: runesFrom (size - 1) t
      end
  end.

Definition runes (s : string) : list Z := runesFrom 0 s.

Definition space : Z := 32.
Definition newline : Z := 10.

(* ===================================================================== *)
(** ** scanWords and the bufio.Scanner that drives it *)
(* ===================================================================== *)

(** First loop of [scanWords]: [for width := 0; start < len(data); start +=
    width], leaving at the first rune that is not a space.  [pos] is the
    index of the byte at the head of [data]; the result is [start]. *)
Fixpoint skipSpaces (pos skip : nat) (data : string) : nat :=
  match data with
  | EmptyString => pos
  | String _ t =>
      match skip with
      | S k => skipSpaces (S pos) k t
      | O =>
          let '(r, w) := utf8.DecodeRune data in
          if r =? space then skipSpaces (S pos) (w - 1) t else pos
      end
  end.

(** Second loop of [scanWords]: [for width, i := 0, start; i < len(data); i
    += width], leaving at the first space with [(i, width)]. *)
Fixpoint findSpace (pos skip : nat) (data : string) : option (nat * nat) :=
  match data with
  | EmptyString => None
  | String _ t =>
      match skip with
      | S k => findSpace (S pos) k t
      | O =>
          let '(r, w) := utf8.DecodeRune data in
          if r =? space then Some (pos, w) else findSpace (S pos) (w - 1) t
      end
  end.

(** [data[n:]] *)
Fixpoint dropBytes (n : nat) (s : string) : string :=
  match n, s with
  | O, _ => s
  | S n', String _ t => dropBytes n' t
  | S _, EmptyString => EmptyString
  end.

(** [func scanWords(data []byte, atEOF bool) (advance int, token []byte, err
    error)]; a [nil] token is [None], and the error is always [nil]. *)
Definition scanWords (data : string) (atEOF : bool) : nat * option string :=
  let start := skipSpaces 0 0 data in
  match findSpace start 0 (dropBytes start data) with
  | Some (i, w) => ((i + w)%nat, Some (String.substring start (i - start) data))
  | None =>
      if atEOF && (start <? String.length data)%nat
      then (String.length data, Some (dropBytes start data))
      else (start, None)
  end.

Module bufio.

(** [bufio.MaxScanTokenSize]: the scanner's buffer never grows past it. *)
Definition MaxScanTokenSize : Z := 64 * 1024.

(** The tokens [scanner.Scan()] delivers, one after the other, for
    [bufio.NewScanner(strings.NewReader(str))] with [scanWords] as split
    function.  The reader holds the whole string, so each token is the one
    the split function finds in the unread rest at end of input.  A token
    that does not fit the buffer (its bytes alone fill [MaxScanTokenSize])
    stops the scan with [ErrTooLong]: [Scan] returns false from then on. *)
Fixpoint scanFrom (fuel : nat) (data : string) : list string :=
  match fuel with
  | O => []
  | S fuel' =>
      match scanWords data true with
      | (_, None) => []
      | (advance, Some token) =>
          if MaxScanTokenSize <=? Z.of_nat (String.length token) then []
          else token :: scanFrom fuel' (dropBytes advance data)
      end
  end.

(** Every delivered token advances by at least one byte, so the length of
    the input bounds the number of turns. *)
Definition scan (str : string) : list string :=
  scanFrom (String.length str) str.

End bufio.

(* ===================================================================== *)
(** ** html/atom, html tokens and the other packages the parser imports *)
(* ===================================================================== *)

Module atom.

(** [atom.Atom]: the atoms [parse.go] names, and [Other] for every other
    tag or attribute name (the atom 0 of an unknown name included). *)
Inductive Atom : Type :=
| B | Strong | Em | I | Title | H1 | H2 | H3 | H4 | H5 | H6
| Style | Img | Br | P | Hr | Table | Tr | Td | Alt | Src
| Other (name : string).

(** [atom.Lookup]: the atom of a name.  Of the names below only [alt] and
    [src] matter to [parse.go]. *)
Definition Lookup (name : string) : Atom :=
  if String.eqb name "alt" then Alt
  else if String.eqb name "src" then Src
  else if String.eqb name "b" then B
  else if String.eqb name "strong" then Strong
  else if String.eqb name "em" then Em
  else if String.eqb name "i" then I
  else if String.eqb name "title" then Title
  else if String.eqb name "h1" then H1
  else if String.eqb name "h2" then H2
  else if String.eqb name "h3" then H3
  else if String.eqb name "h4" then H4
  else if String.eqb name "h5" then H5
  else if String.eqb name "h6" then H6
  else if String.eqb name "style" then Style
  else if String.eqb name "img" then Img
  else if String.eqb name "br" then Br
  else if String.eqb name "p" then P
  else if String.eqb name "hr" then Hr
  else if String.eqb name "table" then Table
  else if String.eqb name "tr" then Tr
  else if String.eqb name "td" then Td
  else Other name.

End atom.

Module html.

Inductive TokenType : Type :=
| ErrorToken
| TextToken
| StartTagToken
| EndTagToken
| SelfClosingTagToken
| CommentToken
| DoctypeToken.

Record Attribute : Type := mkAttribute { Key : string; Val : string }.

Record Token : Type := mkToken {
  Type_ : TokenType;
  DataAtom : atom.Atom;
  Data : string;
  Attr : list Attribute
}.

End html.

Module io.

(** A non-nil [error] value: [io.EOF] or any other error. *)
Inductive error : Type :=
| EOF
| Failure (msg : string).

End io.

Module epub.

(** [epub.Item]: the reference [HREF] and an identifier standing for the
    archive entry that [Open] reads. *)
Record Item : Type := mkItem { HREF : string; entry : nat }.

End epub.

Module image.

(** A decoded [image.Image]: [Bounds().Max] and, for each point, the [Y] of
    [color.GrayModel.Convert(img.At(x, y))]. *)
Record Image : Type := mkImage { MaxX : Z; MaxY : Z; GrayY : Z -> Z -> Z }.

End image.

(** The functions [parse.go] calls whose code lies in other packages:
    [strings.TrimSpace], the tablewriter ([AppendBulk], [SetBorder],
    [SetRowLine] and [Render] on a fresh writer, giving the buffer's
    content), [epub.Item.Open] (the bytes of the entry, or an error),
    [image.Decode] (the image, or an error) and [resize.Resize] with the
    Lanczos3 filter.  The development is parametric in them. *)
Record Packages : Type := mkPackages {
  strings_TrimSpace : string -> string;
  tablewriter_Render : list (list string) -> bool -> bool -> string;
  Item_Open : epub.Item -> option string;
  image_Decode : string -> option image.Image;
  resize_Resize : Z -> Z -> image.Image -> image.Image
}.

(** The string of one newline, and [strings.Repeat]. *)
Definition nl : string := String (ascii_of_nat 10) EmptyString.

Definition strings_Repeat (s : string) (count : Z) : result string :=
  if count <? 0 then Panic NegativeRepeatCount
  else Ok (fold_right String.append EmptyString (replicate (Z.to_nat count) s)).

(* ===================================================================== *)
(** ** Style, word-wrapped and raw text on the cell buffer *)
(* ===================================================================== *)

(** [func (c *cellbuf) style(tags []atom.Atom)] *)
Definition style (c : cellbuf) (tags : list atom.Atom) : cellbuf :=
  let fg :=
    fold_left (fun fg tag =>
      match tag with
      | atom.B | atom.Strong | atom.Em => Z.lor fg termbox.AttrBold
      | atom.I => Z.lor fg termbox.ColorYellow
      | atom.Title => Z.lor fg termbox.ColorRed
      | atom.H1 => Z.lor fg termbox.ColorMagenta
      | atom.H2 => Z.lor fg termbox.ColorBlue
      | atom.H3 | atom.H4 | atom.H5 | atom.H6 => Z.lor fg termbox.ColorCyan
      | _ => fg
      end) tags termbox.ColorDefault in
  setFg c fg.

(** [if c.col < c.lmargin { c.col = c.lmargin }] *)
Definition snapToMargin (c : cellbuf) : cellbuf :=
  if col c <? lmargin c then setCol c (lmargin c) else c.

(** [c.row++; c.col = c.lmargin] *)
Definition breakRow (c : cellbuf) : cellbuf :=
  setCol (setRow c (GoInt.add (row c) 1)) (lmargin c).

(** The loop over the runes of a word, [for _, r := range word]: a newline
    breaks the row and writes nothing, any other rune is written at the
    cursor, which then moves one column on.  [appendRaw] has the same loop
    over the runes of its string. *)
Fixpoint placeRunes (c : cellbuf) (word : list Z) : result cellbuf :=
  match word with
  | [] => Ok c
  | r :: rest =>
      if r =? newline then placeRunes (breakRow c) rest
      else
        c' ← setCell c (col c) (row c) r (fg c) (bg c);
        placeRunes (setCol c' (GoInt.add (col c') 1)) rest
  end.

(** One turn of the loop [for scanner.Scan()] of [appendText]. *)
Definition appendWord (c : cellbuf) (word : list Z) : result cellbuf :=
  let c1 :=
    if GoInt.sub (width c) (col c) <? GoInt.len word then breakRow c else c in
  c2 ← placeRunes c1 word;
  Ok (if col c2 =? lmargin c2 then c2 else setCol c2 (GoInt.add (col c2) 1)).

Fixpoint appendWords (c : cellbuf) (tokens : list string) : result cellbuf :=
  match tokens with
  | [] => Ok c
  | token :: rest => c' ← appendWord c (runes token); appendWords c' rest
  end.

(** [func (c *cellbuf) appendText(str string)] *)
Definition cellbuf_appendText (c : cellbuf) (str : string) : result cellbuf :=
  appendWords (snapToMargin c) (bufio.scan str).

(** [func (c *cellbuf) appendRaw(str string)] *)
Definition appendRaw (c : cellbuf) (str : string) : result cellbuf :=
  placeRunes (snapToMargin c) (runes str).

(* ===================================================================== *)
(** ** The parser *)
(* ===================================================================== *)

(** [type parser struct]; the tokenizer is threaded through [parse] as the
    tokens still to come. *)
Record parser : Type := mkParser {
  tagStack : list atom.Atom;
  tableStack : list (list (list string));
  doc : cellbuf;
  items : list epub.Item
}.

Definition setTagStack (p : parser) (v : list atom.Atom) : parser :=
  mkParser v (tableStack p) (doc p) (items p).
Definition setTableStack (p : parser) (v : list (list (list string))) : parser :=
  mkParser (tagStack p) v (doc p) (items p).
Definition setDoc (p : parser) (v : cellbuf) : parser :=
  mkParser (tagStack p) (tableStack p) v (items p).

(** [func (p parser) getTableCell() *string]: the pointer is the position
    (table, row, cell) of the string in the table stack; [nil] is [None]. *)
Definition getTableCell (p : parser) : option (nat * nat * nat) :=
  if (0 <? length (tableStack p))%nat then
    let tableI := (length (tableStack p) - 1)%nat in
    let table := default [] (tableStack p !! tableI) in
    if (0 <? length table)%nat then
      let rowI := (length table - 1)%nat in
      let row := default [] (table !! rowI) in
      if (0 <? length row)%nat then
        let colI := (length row - 1)%nat in
        Some (tableI, rowI, colI)
      else None
    else None
  else None.

(** [*cell += s] through the pointer [getTableCell] returned. *)
Definition addToCell (ts : list (list (list string))) (cell : nat * nat * nat)
    (s : string) : list (list (list string)) :=
  alter (alter (alter (fun old => String.append old s) cell.2) cell.1.2) cell.1.1 ts.

Section WithPackages.

Variable pk : Packages.

(** [func (p *parser) appendText(str string, raw bool)] *)
Definition parser_appendText (p : parser) (str : string) (raw : bool) : result parser :=
  match getTableCell p with
  | Some cell =>
      Ok (setTableStack p (addToCell (tableStack p) cell (strings_TrimSpace pk str)))
  | None =>
      if raw then d ← appendRaw (doc p) str; Ok (setDoc p d)
      else d ← cellbuf_appendText (doc p) str; Ok (setDoc p d)
  end.

(** [func (p *parser) handleText(token html.Token)] *)
Definition handleText (p : parser) (token : html.Token) : result parser :=
  if (0 <? length (tagStack p))%nat &&
     match tagStack p !! (length (tagStack p) - 1)%nat with
     | Some atom.Style => true
     | _ => false
     end
  then Ok p
  else
    parser_appendText (setDoc p (style (doc p) (tagStack p))) (html.Data token) false.

(** The glyphs of [charGradient], darkest first. *)
Definition charGradient : list ascii :=
  list_ascii_of_string "MND8OZ$7I?+=~:,..".

(** One row of glyphs: [for x := 0; x < w; x++] with its [WriteRune]s and
    the closing newline.  The luminance is a [uint8], so [pos] stays within
    the 17 glyphs. *)
Definition glyphRow (img : image.Image) (w y : Z) : string :=
  fold_right (fun x rest =>
      let lum := image.GrayY img x y mod 256 in
      let pos := Z.quot (GoInt.mul (GoInt.len charGradient - 1) lum) 255 in
      String (default zero (charGradient !! Z.to_nat pos)) rest)
    nl (seqZ 0 w).

(** [func imageToText(item epub.Item) string] *)
Definition imageToText (item : epub.Item) : result string :=
  match Item_Open pk item with
  | None => Ok EmptyString
  | Some r =>
      match image_Decode pk r with
      | None => Ok EmptyString
      | Some img =>
          let w := 80 in
          let divisor := GoInt.mul (image.MaxX img) 2 in
          if divisor =? 0 then Panic IntegerDivideByZero
          else
            let h := GoInt.wrap (Z.quot (GoInt.mul (image.MaxY img) w) divisor) in
            let img' := resize_Resize pk w (h mod 18446744073709551616) img in
            Ok (fold_right (fun y rest => String.append (glyphRow img' w y) rest)
                  EmptyString (seqZ 0 h))
      end
  end.

(** The loop [for _, item := range p.items] of the [src] case: the first
    item whose [HREF] is the attribute's value. *)
Definition findItem (its : list epub.Item) (val : string) : option epub.Item :=
  List.find (fun item => String.eqb (epub.HREF item) val) its.

(** One turn of [for _, a := range token.Attr] in the [img] case. *)
Definition handleImgAttr (p : parser) (a : html.Attribute) : result parser :=
  match atom.Lookup (html.Key a) with
  | atom.Alt =>
      parser_appendText p
        (String.append "Alt text: " (String.append (html.Val a) nl)) false
  | atom.Src =>
      match getTableCell p with
      | Some _ => Ok p
      | None =>
          match findItem (items p) (html.Val a) with
          | Some item => text ← imageToText item; parser_appendText p text true
          | None => Ok p
          end
      end
  | _ => Ok p
  end.

Fixpoint handleImgAttrs (p : parser) (attrs : list html.Attribute) : result parser :=
  match attrs with
  | [] => Ok p
  | a :: rest => p' ← handleImgAttr p a; handleImgAttrs p' rest
  end.

(** [func (p *parser) handleStartTag(token html.Token)] *)
Definition handleStartTag (p : parser) (token : html.Token) : result parser :=
  match html.DataAtom token with
  | atom.Img => handleImgAttrs p (html.Attr token)
  | atom.Br => parser_appendText p nl true
  | atom.P => Ok (setDoc p (setCol (doc p) (GoInt.add (col (doc p)) 2)))
  | atom.Hr =>
      let p1 := setDoc p (setCol (doc p) 0) in
      line ← strings_Repeat "-" (width (doc p1));
      parser_appendText p1 line true
  | atom.Table => Ok (setTableStack p (tableStack p ++ [[]]))
  | atom.Tr =>
      let tableI := GoInt.sub (GoInt.len (tableStack p)) 1 in
      table ← index (tableStack p) tableI;
      ts ← store (tableStack p) tableI (table ++ [[]]);
      Ok (setTableStack p ts)
  | atom.Td =>
      let tableI := GoInt.sub (GoInt.len (tableStack p)) 1 in
      table ← index (tableStack p) tableI;
      let rowI := GoInt.sub (GoInt.len table) 1 in
      row ← index table rowI;
      table' ← store table rowI (row ++ [EmptyString]);
      ts ← store (tableStack p) tableI table';
      Ok (setTableStack p ts)
  | _ => Ok p
  end.

(** [func (p *parser) handleEndTag(token html.Token)] *)
Definition handleEndTag (p : parser) (token : html.Token) : result parser :=
  match html.DataAtom token with
  | atom.Table =>
      let tableI := GoInt.sub (GoInt.len (tableStack p)) 1 in
      table ← index (tableStack p) tableI;
      let buf := tablewriter_Render pk table true true in
      ts ← sliceTo (tableStack p) tableI;
      p1 ← parser_appendText (setTableStack p ts) nl true;
      parser_appendText p1 buf true
  | _ => Ok p
  end.

(** The [switch tokenType] of [parse] for a token that is no error token. *)
Definition dispatch (p : parser) (token : html.Token) : result parser :=
  match html.Type_ token with
  | html.StartTagToken =>
      handleStartTag (setTagStack p (tagStack p ++ [html.DataAtom token])) token
  | html.SelfClosingTagToken => handleStartTag p token
  | html.TextToken => handleText p token
  | html.EndTagToken =>
      p1 ← handleEndTag p token;
      tags ← sliceTo (tagStack p1) (GoInt.sub (GoInt.len (tagStack p1)) 1);
      Ok (setTagStack p1 tags)
  | _ => Ok p
  end.

(** What [parse] returns for the tokenizer's error: [nil] for [io.EOF]. *)
Definition returned (e : io.error) : option io.error :=
  match e with
  | io.EOF => None
  | _ => Some e
  end.

(** [func (p *parser) parse(io.Reader) (err error)].  The tokenizer is the
    list of tokens [Next] still has to deliver and the error [Err] reports
    once they are used up; from then on (or at an error token in the list)
    [Next] gives [html.ErrorToken]. *)
Fixpoint parse (tokens : list html.Token) (err : io.error) (p : parser)
    : result (parser * option io.error) :=
  match tokens with
  | [] => Ok (p, returned err)
  | token :: rest =>
      match html.Type_ token with
      | html.ErrorToken => Ok (p, returned err)
      | _ => p' ← dispatch p token; parse rest err p'
      end
  end.

(** [func parseText(r io.Reader, items []epub.Item) (cellbuf, error)] *)
Definition parseText (tokens : list html.Token) (err : io.error)
    (its : list epub.Item) : result (cellbuf * option io.error) :=
  let doc0 := mkCellbuf [] 80 0 0 0 0 0 in
  let p := mkParser [] [] doc0 its in
  '(p', e) ← parse tokens err p;
  match e with
  | Some e' => Ok (doc p', Some e')
  | None => Ok (doc p', None)
  end.

End WithPackages.

(* ===================================================================== *)
(** * The vocabulary of the properties *)
(* ===================================================================== *)

(** ** The scanner, in the words of the specification *)

(** The next [k] bytes exist and none of them is a space. *)
Fixpoint noSpaceAhead (k : nat) (s : string) : Prop :=
  match k with
  | O => True
  | S k' => match s with
            | String b t => utf8.byte b <> 32 /\ noSpaceAhead k' t
            | EmptyString => False
            end
  end.

(** The index of the first space of a string, and the number of spaces it
    begins with. *)
Fixpoint indexOfSpace (s : string) : option nat :=
  match s with
  | EmptyString => None
  | String a t => if utf8.byte a =? 32 then Some 0%nat else S <$> indexOfSpace t
  end.

Fixpoint leadingSpaces (s : string) : nat :=
  match s with
  | EmptyString => 0
  | String a t => if utf8.byte a =? 32 then S (leadingSpaces t) else 0
  end.

(** The longest prefix without a space. *)
Fixpoint word (s : string) : string :=
  match s with
  | EmptyString => EmptyString
  | String a t => if utf8.byte a =? 32 then EmptyString else String a (word t)
  end.

(** The words of a text: a word begins at every byte that is no space
    and stands first or after a space, and runs to the next space or the
    end.  [inWord] says that the byte before was no space. *)
Fixpoint tokensFrom (inWord : bool) (s : string) : list string :=
  match s with
  | EmptyString => []
  | String a t =>
      if utf8.byte a =? 32 then tokensFrom false t
      else if inWord then tokensFrom true t
      else word s :: tokensFrom true t
  end.

Definition spaceSeparated (s : string) : list string := tokensFrom false s.

(** The words up to the first that does not fit the scanner's buffer. *)
Fixpoint untilTooLong (tokens : list string) : list string :=
  match tokens with
  | [] => []
  | t :: rest =>
      if bufio.MaxScanTokenSize <=? Z.of_nat (String.length t) then []
      else t :: untilTooLong rest
  end.

(** ** Documents *)

(** The array [setCell] writes into. *)
Definition grown (cs : list termbox.Cell) (i : Z) : list termbox.Cell :=
  cs ++ replicate (1024 * growTurns cs i) zeroCell.

(** The document [parseText] starts from: [cellbuf{width: 80}]. *)
Definition emptyDoc : cellbuf := mkCellbuf [] 80 0 0 0 0 0.

(** ** Styles *)

(** The attribute each open tag contributes, in the words of the
    specification: bold for b, strong and em, yellow for i, red for title,
    magenta for h1, blue for h2, cyan for h3 to h6, nothing otherwise. *)
Definition tagAttribute (tag : atom.Atom) : Z :=
  match tag with
  | atom.B | atom.Strong | atom.Em => termbox.AttrBold
  | atom.I => termbox.ColorYellow
  | atom.Title => termbox.ColorRed
  | atom.H1 => termbox.ColorMagenta
  | atom.H2 => termbox.ColorBlue
  | atom.H3 | atom.H4 | atom.H5 | atom.H6 => termbox.ColorCyan
  | _ => termbox.ColorDefault
  end.

(** The union of the attributes of a stack of tags. *)
Definition unionOfAttributes (tags : list atom.Atom) : Z :=
  fold_right Z.lor termbox.ColorDefault (map tagAttribute tags).

(** The document's background is the default, and so is that of every cell
    it holds. *)
Definition defaultBackground (c : cellbuf) : Prop :=
  bg c = termbox.ColorDefault /\
  Forall (fun cell => termbox.Bg cell = termbox.ColorDefault) (cells c).

(** ** Word-wrapped text *)

(** What the text operations never change of a document. *)
Definition sameSetting (c c' : cellbuf) : Prop :=
  width c' = width c /\ lmargin c' = lmargin c /\ fg c' = fg c /\ bg c' = bg c.

(** The index of the cell under the cursor. *)
Definition cursor (c : cellbuf) : Z := row c * width c + col c.

Definition noNewline (word : list Z) : Prop := Forall (fun r => r <> newline) word.

(** A cursor at or right of a non-negative margin, with room for [n] more
    moves (a rune written, a row broken, a separator column) before any
    index leaves the range of [int]. *)
Definition sane (c : cellbuf) (n : Z) : Prop :=
  0 <= lmargin c <= col c /\ 0 <= row c /\ 0 <= width c /\ 0 <= n /\
  row c + n <= GoInt.maxInt /\
  (row c + n) * width c + col c + n <= GoInt.maxInt.

(** The moves the tokens of a text can cost: for each token a row break,
    its runes and a separator column. *)
Fixpoint budget (tokens : list string) : Z :=
  match tokens with
  | [] => 0
  | t :: rest => GoInt.len (runes t) + 2 + budget rest
  end.

(** The condition on a document under which a text of [n] moves is written
    without leaving the range of [int]. *)
Definition roomFor (c : cellbuf) (n : Z) : Prop :=
  0 <= lmargin c /\ 0 <= row c /\ 0 <= width c /\
  row c + n <= GoInt.maxInt /\
  (row c + n) * width c + Z.max (col c) (lmargin c) + n <= GoInt.maxInt.

(** A token of 81 letters, one more than the grid is wide. *)
Definition longToken : string :=
  "aaaaaaaaaaaaaaaaaaaaaaaaaaaaaaaaaaaaaaaaaaaaaaaaaaaaaaaaaaaaaaaaaaaaaaaaaaaaaaaaa".

(** A token of 81 runes with a newline in the middle: forty letters, the
    newline, forty letters. *)
Definition brokenToken : string :=
  String.append "aaaaaaaaaaaaaaaaaaaaaaaaaaaaaaaaaaaaaaaa"
    (String.append nl "bbbbbbbbbbbbbbbbbbbbbbbbbbbbbbbbbbbbbbbb").

(** No index below the frontier is written again: the text goes on at the
    cursor or, after a row break, at the margin of the next row. *)
Definition frontier (c : cellbuf) : Z :=
  Z.min (cursor c) ((row c + 1) * width c + lmargin c).

(** A token fits the document: its runes are no more than the columns
    between the margin and the width, and none of them is a newline. *)
Definition fits (c : cellbuf) (t : string) : Prop :=
  GoInt.len (runes t) <= width c - lmargin c /\ noNewline (runes t).

(** In the document [c'], the runes of [t] stand in row [y] from column [x]
    on, one column each, all of them left of the width. *)
Definition wholeInRow (c c' : cellbuf) (t : string) (x y : Z) : Prop :=
  lmargin c <= x /\ x + GoInt.len (runes t) <= width c /\
  forall (k : nat) r, runes t !! k = Some r ->
    cells c' !! Z.to_nat (y * width c + (x + Z.of_nat k)) =
      Some (termbox.mkCell r (fg c) (bg c)).

(** One token of three runes: a letter, a newline, a letter. *)
Definition twoLineToken : string := String.append "a" (String.append nl "b").

(** ** Tables *)

(** No cell is focused: the table stack is empty, or its top table has no
    row, or the top row of that table has no cell. *)
Definition unfocused (ts : list (list (list string))) : Prop :=
  ts = [] \/ (exists ts', ts = ts' ++ [[]]) \/
  (exists ts' table, ts = ts' ++ [table ++ [[]]]).

(** ** An instance of the packages, and tokens, for the examples *)

Definition isAsciiSpace (a : ascii) : bool :=
  let b := utf8.byte a in
  (b =? 9) || (b =? 10) || (b =? 11) || (b =? 12) || (b =? 13) || (b =? 32).

Fixpoint trimLeft (s : string) : string :=
  match s with
  | String a t => if isAsciiSpace a then trimLeft t else s
  | EmptyString => EmptyString
  end.

Fixpoint trimRight (s : string) : string :=
  match s with
  | String a t =>
      match trimRight t with
      | EmptyString => if isAsciiSpace a then EmptyString else String a EmptyString
      | t' => String a t'
      end
  | EmptyString => EmptyString
  end.

(** One line per row, the cells between bars: a stand-in for the layout of
    the tablewriter, which the examples do not depend on. *)
Definition barRows (rows : list (list string)) (border rowLine : bool) : string :=
  fold_right (fun r rest =>
      String.append (fold_right (fun s line => String.append "|" (String.append s line)) "|" r)
        (String.append nl rest))
    EmptyString rows.

(** [strings.TrimSpace] on ASCII white space, the stand-in renderer, an
    archive in which no item opens and no image decodes. *)
Definition examplePackages : Packages :=
  mkPackages (fun s => trimRight (trimLeft s)) barRows
    (fun _ => None) (fun _ => None) (fun _ _ img => img).

Definition textToken (data : string) : html.Token :=
  html.mkToken html.TextToken (atom.Other EmptyString) data [].

Definition startTag (a : atom.Atom) : html.Token :=
  html.mkToken html.StartTagToken a EmptyString [].

Definition endTag (a : atom.Atom) : html.Token :=
  html.mkToken html.EndTagToken a EmptyString [].

Definition noErrorToken (tokens : list html.Token) : Prop :=
  Forall (fun token => html.Type_ token <> html.ErrorToken) tokens.

(** The tokens of [<p>Hello <b>world</b></p>]. *)
Definition helloWorld : list html.Token :=
  [startTag atom.P; textToken "Hello "; startTag atom.B; textToken "world";
   endTag atom.B; endTag atom.P].

Definition plainCells (s : string) (fg : Z) : list termbox.Cell :=
  map (fun r => termbox.mkCell r fg termbox.ColorDefault) (runes s).

Definition boldBit (cell : termbox.Cell) : bool := Z.testbit (termbox.Fg cell) 9.

(** A parser inside the cell of a table, with a second table open there. *)
Definition nestedTables : parser :=
  mkParser [atom.Table; atom.Tr; atom.Td; atom.Table; atom.Tr; atom.Td]
    [[["x"%string]]; [["a"%string]]] emptyDoc [].

(** The token of an image tag with a source attribute only. *)
Definition imgToken (ty : html.TokenType) (val : string) : html.Token :=
  html.mkToken ty atom.Img EmptyString [html.mkAttribute "src" val].

Definition startsATag (token : html.Token) : Prop :=
  html.Type_ token = html.StartTagToken \/ html.Type_ token = html.SelfClosingTagToken.

(** A run of 65536 letters, and a text with it in the middle. *)
Definition tooLongToken : string :=
  Nat.iter 16 (fun s => String.append s s) "a".

Section VocabularyWithPackages.

Variable pk : Packages.

(** The parser after the tokens of a list, each dispatched in turn. *)
Fixpoint dispatchAll (p : parser) (tokens : list html.Token) : result parser :=
  match tokens with
  | [] => Ok p
  | token :: rest => p' ← dispatch pk p token; dispatchAll p' rest
  end.

(** The open or the decoding of an item fails. *)
Definition imageFails (item : epub.Item) : Prop :=
  Item_Open pk item = None \/
  exists r, Item_Open pk item = Some r /\ image_Decode pk r = None.

End VocabularyWithPackages.

(** ** Tokens, texts, tables and pictures of the further properties *)

(** The bytes of a text that are no space, in order. *)
Fixpoint withoutSpaces (s : string) : string :=
  match s with
  | EmptyString => EmptyString
  | String a t =>
      if utf8.byte a =? 32 then withoutSpaces t else String a (withoutSpaces t)
  end.

(** The strings of a list, one after the other. *)
Definition concatAll (l : list string) : string :=
  fold_right String.append EmptyString l.

(** A token is not empty and holds no space. *)
Definition properToken (t : string) : Prop :=
  t <> EmptyString /\ indexOfSpace t = None.

(** Every token is shorter than the scanner's buffer. *)
Definition allShort (tokens : list string) : Prop :=
  Forall (fun t => Z.of_nat (String.length t) < bufio.MaxScanTokenSize) tokens.

(** The number of newline runes of a word. *)
Fixpoint newlines (word : list Z) : Z :=
  match word with
  | [] => 0
  | r :: rest => (if r =? newline then 1 else 0) + newlines rest
  end.

(** The rune of the hyphen that [handleStartTag] draws a rule with. *)
Definition hyphen : Z := 45.

(** A foreground [style] can give: a colour from the default to cyan, with
    or without the bold attribute. *)
Definition styleValue (v : Z) : Prop :=
  0 <= v <= termbox.ColorCyan \/
  termbox.AttrBold <= v <= termbox.AttrBold + termbox.ColorCyan.

(** A tag that changes the style of the text inside it. *)
Definition styled (a : atom.Atom) : Prop := tagAttribute a <> termbox.ColorDefault.

(** The tokens of a table cell with a text, of a row of such cells, of a
    table of such rows up to its end tag, and of the whole table. *)
Definition cellTokens (s : string) : list html.Token :=
  [startTag atom.Td; textToken s; endTag atom.Td].

Definition rowTokens (r : list string) : list html.Token :=
  startTag atom.Tr :: concat (map cellTokens r) ++ [endTag atom.Tr].

Definition tableOpen (rows : list (list string)) : list html.Token :=
  startTag atom.Table :: concat (map rowTokens rows).

Definition tableTokens (rows : list (list string)) : list html.Token :=
  tableOpen rows ++ [endTag atom.Table].

(** A line of the picture: eighty glyphs of the gradient and a newline. *)
Definition glyphLine (line : string) : Prop :=
  exists glyphs,
    line = String.append (string_of_list_ascii glyphs) nl /\
    length glyphs = 80%nat /\ Forall (fun g => g ∈ charGradient) glyphs.

(** An archive in which every item opens and decodes to an image two pixels
    wide and one high, brighter to the right; the resize is the identity. *)
Definition examplePictures : Packages :=
  mkPackages (fun s => s) barRows (fun _ => Some "png"%string)
    (fun _ => Some (image.mkImage 2 1 (fun x y => 3 * x))) (fun _ _ img => img).

(** The shape of the documents of a parse: eighty columns, no margin, an
    array that is a whole number of 1024-cell blocks, and foregrounds that
    [style] can give, for the document and for each of its cells. *)
Definition gridInvariant (c : cellbuf) : Prop :=
  width c = 80 /\ lmargin c = 0 /\
  (exists k : nat, length (cells c) = (1024 * k)%nat) /\
  styleValue (fg c) /\
  Forall (fun cell => styleValue (termbox.Fg cell)) (cells c).

(** The moves a token can cost the cursor: a text twice its bytes and one,
    a paragraph its indent, a line break one row, a rule the width of the
    document, an image the moves of its alternative texts. *)
Definition textCost (str : string) : Z := 2 * Z.of_nat (String.length str) + 1.

Definition attrCost (a : html.Attribute) : Z :=
  match atom.Lookup (html.Key a) with
  | atom.Alt => textCost (String.append "Alt text: " (String.append (html.Val a) nl))
  | _ => 0
  end.

Fixpoint attrsCost (attrs : list html.Attribute) : Z :=
  match attrs with
  | [] => 0
  | a :: rest => attrCost a + attrsCost rest
  end.

Definition tagCost (w : Z) (token : html.Token) : Z :=
  match html.DataAtom token with
  | atom.P => 2
  | atom.Br => 1
  | atom.Hr => w
  | atom.Img => attrsCost (html.Attr token)
  | _ => 0
  end.

Definition tokenCost (w : Z) (token : html.Token) : Z :=
  match html.Type_ token with
  | html.TextToken => textCost (html.Data token)
  | html.StartTagToken | html.SelfClosingTagToken => tagCost w token
  | _ => 0
  end.

Fixpoint cost (w : Z) (tokens : list html.Token) : Z :=
  match tokens with
  | [] => 0
  | token :: rest => tokenCost w token + cost w rest
  end.

(** A tag of plain markup: no table, row or cell, and no image whose source
    is among the items. *)
Definition plainTag (its : list epub.Item) (token : html.Token) : Prop :=
  match html.DataAtom token with
  | atom.Table | atom.Tr | atom.Td => False
  | atom.Img =>
      Forall (fun a => atom.Lookup (html.Key a) = atom.Src ->
                       findItem its (html.Val a) = None) (html.Attr token)
  | _ => True
  end.

(** Plain markup in which no end tag comes without an open tag: [depth] is
    the number of tags open before the tokens.  What follows an error token
    is never read. *)
Fixpoint wellNested (its : list epub.Item) (depth : nat) (tokens : list html.Token) : Prop :=
  match tokens with
  | [] => True
  | token :: rest =>
      match html.Type_ token with
      | html.ErrorToken => True
      | html.StartTagToken => plainTag its token /\ wellNested its (S depth) rest
      | html.SelfClosingTagToken => plainTag its token /\ wellNested its depth rest
      | html.EndTagToken =>
          html.DataAtom token <> atom.Table /\
          match depth with
          | S depth' => wellNested its depth' rest
          | O => False
          end
      | _ => wellNested its depth rest
      end
  end.

(** A parser outside every table, on a document of width [w] without
    margin that has room for [n] moves. *)
Definition ready (p : parser) (w n : Z) : Prop :=
  tableStack p = [] /\ lmargin (doc p) = 0 /\ width (doc p) = w /\ sane (doc p) n.

(** The tokens of [<h1>Title</h1><p>Some <b>bold</b> text<br>and a rule<hr></p>]
    followed by a comment. *)
Definition plainPage : list html.Token :=
  [startTag atom.H1; textToken "Title"; endTag atom.H1; startTag atom.P;
   textToken "Some "; startTag atom.B; textToken "bold"; endTag atom.B;
   textToken " text"; html.mkToken html.SelfClosingTagToken atom.Br EmptyString [];
   textToken "and a rule"; html.mkToken html.SelfClosingTagToken atom.Hr EmptyString [];
   endTag atom.P; html.mkToken html.CommentToken (atom.Other EmptyString) "note" []].

(* ===================================================================== *)
(** * Properties *)
(* ===================================================================== *)

(** ** Integers and the result monad *)

Lemma wrap_inRange z : GoInt.inRange z -> GoInt.wrap z = z.
Proof.
  unfold GoInt.inRange, GoInt.wrap, GoInt.minInt, GoInt.maxInt. intros Hz.
  rewrite Z.mod_small; lia.
Qed.

Lemma add_exact a b : GoInt.inRange (a + b) -> GoInt.add a b = a + b.
Proof. apply wrap_inRange. Qed.

Lemma sub_exact a b : GoInt.inRange (a - b) -> GoInt.sub a b = a - b.
Proof. apply wrap_inRange. Qed.

Lemma mul_exact a b : GoInt.inRange (a * b) -> GoInt.mul a b = a * b.
Proof. apply wrap_inRange. Qed.

Lemma bind_Ok {A B} (a : A) (f : A -> result B) : (Ok a ≫= f) = f a.
Proof. reflexivity. Qed.

Lemma bind_Panic {A B} e (f : A -> result B) : (Panic e ≫= f) = Panic e.
Proof. reflexivity. Qed.

Lemma bind_Ok_inv {A B} (m : result A) (f : A -> result B) b :
  (m ≫= f) = Ok b -> exists a, m = Ok a /\ f a = Ok b.
Proof. destruct m as [a|e]; [eauto | discriminate]. Qed.

Lemma len_app {A} (l k : list A) : GoInt.len (l ++ k) = GoInt.len l + GoInt.len k.
Proof. unfold GoInt.len. rewrite length_app. lia. Qed.

Lemma len_nonneg {A} (l : list A) : 0 <= GoInt.len l.
Proof. unfold GoInt.len. lia. Qed.

Lemma store_Ok {A} (s : list A) i v :
  0 <= i < GoInt.len s -> store s i v = Ok (<[Z.to_nat i := v]> s).
Proof.
  intros [H0 H1]. unfold store.
  destruct (Z.leb_spec 0 i); [|lia]. destruct (Z.ltb_spec i (GoInt.len s)); [|lia].
  reflexivity.
Qed.

Lemma store_Panic {A} (s : list A) i v :
  ~ (0 <= i < GoInt.len s) -> store s i v = Panic (IndexOutOfRange i (GoInt.len s)).
Proof.
  intros H. unfold store.
  destruct (Z.leb_spec 0 i); destruct (Z.ltb_spec i (GoInt.len s)); simpl;
    try reflexivity; lia.
Qed.

Lemma index_Ok {A} (s : list A) i a :
  0 <= i -> s !! Z.to_nat i = Some a -> index s i = Ok a.
Proof.
  intros H0 Hl. unfold index.
  assert (Z.to_nat i < length s)%nat by (eapply lookup_lt_Some; eauto).
  destruct (Z.leb_spec 0 i); [|lia].
  destruct (Z.ltb_spec i (GoInt.len s)); [|unfold GoInt.len in *; lia].
  simpl. rewrite Hl. reflexivity.
Qed.

Lemma index_Panic {A} (s : list A) i :
  ~ (0 <= i < GoInt.len s) -> index s i = Panic (IndexOutOfRange i (GoInt.len s)).
Proof.
  intros H. unfold index.
  destruct (Z.leb_spec 0 i); destruct (Z.ltb_spec i (GoInt.len s)); simpl;
    try reflexivity; lia.
Qed.

Lemma sliceTo_Ok {A} (s : list A) hi :
  0 <= hi <= GoInt.len s -> sliceTo s hi = Ok (take (Z.to_nat hi) s).
Proof.
  intros [H0 H1]. unfold sliceTo.
  destruct (Z.leb_spec 0 hi); [|lia]. destruct (Z.leb_spec hi (GoInt.len s)); [|lia].
  reflexivity.
Qed.

(** ** The growing backing array *)

Lemma growTurns_enough cs i : GoInt.len cs <= i ->
  growTurns cs i = S (growTurns (cs ++ replicate 1024 zeroCell) i).
Proof.
  intros Hi. unfold growTurns. rewrite len_app.
  replace (GoInt.len (replicate 1024 zeroCell)) with 1024
    by (unfold GoInt.len; rewrite length_replicate; reflexivity).
  replace (i - GoInt.len cs) with ((i - (GoInt.len cs + 1024)) + 1 * 1024) by lia.
  rewrite Z.div_add by lia.
  assert (0 <= (i - (GoInt.len cs + 1024)) / 1024 + 1).
  { assert (-1 <= (i - (GoInt.len cs + 1024)) / 1024); [|lia].
    apply Z.div_le_lower_bound; lia. }
  rewrite <- Z2Nat.inj_succ by lia. f_equal; lia.
Qed.

Lemma growTurns_none cs i : i < GoInt.len cs -> growTurns cs i = 0%nat.
Proof.
  intros Hi. unfold growTurns.
  assert ((i - GoInt.len cs) / 1024 < 0) by (apply Z.div_lt_upper_bound; lia).
  lia.
Qed.

(** The loop of [setCell] appends [growTurns] blocks of 1024 zero cells, and
    then the index is within the array: the fuel given is the fuel used. *)
Lemma grow_blocks fuel : forall cs i,
  (growTurns cs i <= fuel)%nat ->
  grow fuel cs i = cs ++ replicate (1024 * growTurns cs i) zeroCell /\
  i < GoInt.len (grow fuel cs i).
Proof.
  induction fuel as [|fuel IH]; intros cs i Hfuel.
  - assert (Hlt : i < GoInt.len cs).
    { destruct (Z.lt_ge_cases i (GoInt.len cs)) as [|Hge]; [assumption|].
      rewrite (growTurns_enough _ _ Hge) in Hfuel. lia. }
    rewrite growTurns_none by assumption. simpl. rewrite app_nil_r. auto.
  - cbn [grow]. destruct (Z.leb_spec (GoInt.len cs) i) as [Hge|Hlt].
    + rewrite (growTurns_enough _ _ Hge) in Hfuel |- *.
      destruct (IH (cs ++ replicate 1024 zeroCell) i) as [Heq Hlen]; [lia|].
      split; [|assumption]. rewrite Heq, <- app_assoc. f_equal.
      rewrite <- replicate_add. f_equal. lia.
    + rewrite growTurns_none by assumption. simpl. rewrite app_nil_r. auto.
Qed.

Lemma grown_addressable cs i : i < GoInt.len (grown cs i).
Proof.
  unfold grown. destruct (grow_blocks (growTurns cs i) cs i) as [Heq Hlen]; [lia|].
  rewrite <- Heq. assumption.
Qed.

Lemma grown_lookup_old cs i (j : nat) :
  (j < length cs)%nat -> grown cs i !! j = cs !! j.
Proof. intros Hj. unfold grown. apply lookup_app_l. assumption. Qed.

Lemma grown_length cs i : (length cs <= length (grown cs i))%nat.
Proof. unfold grown. rewrite length_app. lia. Qed.

(** [setCell] at an index the [int] arithmetic computes exactly. *)
Lemma setCell_exact c x y ch f b :
  0 <= y * width c + x <= GoInt.maxInt ->
  GoInt.inRange (y * width c) ->
  setCell c x y ch f b =
    Ok (setCells c (<[Z.to_nat (y * width c + x) := termbox.mkCell ch f b]>
                      (grown (cells c) (y * width c + x)))).
Proof.
  intros Hi Hm. unfold setCell.
  rewrite mul_exact by assumption.
  rewrite add_exact by (unfold GoInt.inRange, GoInt.minInt; lia).
  destruct (grow_blocks (growTurns (cells c) (y * width c + x)) (cells c)
              (y * width c + x)) as [Heq Hlen]; [lia|].
  rewrite store_Ok by lia. rewrite Heq. reflexivity.
Qed.

Lemma growTurns_least cs i : GoInt.len cs <= i ->
  GoInt.len cs + 1024 * (Z.of_nat (growTurns cs i) - 1) <= i.
Proof.
  intros Hi. unfold growTurns.
  assert (0 <= (i - GoInt.len cs) / 1024) by (apply Z.div_pos; lia).
  rewrite Z2Nat.id by lia.
  pose proof (Z.mul_div_le (i - GoInt.len cs) 1024). lia.
Qed.

(** C6 (as amended).  On an 80-wide document, for a column [x] in [0, 80) and
    a row [y >= 0] whose index [y*80+x] is an [int], [setCell] does not
    panic: it appends [k] blocks of 1024 zero cells, [k] being the least
    number that makes the index addressable (none when it already is),
    writes the cell there, and leaves every cell the array held before, other
    than the one at the index, as it was; no other field changes. *)
Theorem setCell_grows_and_preserves (c : cellbuf) (x y ch f b : Z) :
  width c = 80 -> 0 <= x < 80 -> 0 <= y -> y * 80 + x <= GoInt.maxInt ->
  exists (k : nat) (c' : cellbuf),
    setCell c x y ch f b = Ok c' /\
    cells c' = <[Z.to_nat (y * 80 + x) := termbox.mkCell ch f b]>
                 (cells c ++ replicate (1024 * k) zeroCell) /\
    (y * 80 + x < GoInt.len (cells c) -> k = 0%nat) /\
    (GoInt.len (cells c) <= y * 80 + x ->
       GoInt.len (cells c) + 1024 * (Z.of_nat k - 1) <= y * 80 + x) /\
    y * 80 + x < GoInt.len (cells c') /\
    cells c' !! Z.to_nat (y * 80 + x) = Some (termbox.mkCell ch f b) /\
    (forall j : nat, j <> Z.to_nat (y * 80 + x) -> (j < length (cells c))%nat ->
       cells c' !! j = cells c !! j) /\
    (width c', lmargin c', col c', row c', fg c', bg c') =
      (width c, lmargin c, col c, row c, fg c, bg c).
Proof.
  intros Hw Hx Hy Hmax.
  exists (growTurns (cells c) (y * 80 + x)).
  eexists. split.
  { rewrite setCell_exact; rewrite Hw.
    - reflexivity.
    - lia.
    - unfold GoInt.inRange, GoInt.minInt. lia. }
  pose proof (grown_addressable (cells c) (y * 80 + x)) as Haddr.
  assert (Hlt : (Z.to_nat (y * 80 + x) < length (grown (cells c) (y * 80 + x)))%nat)
    by (unfold GoInt.len in Haddr; lia).
  cbn [cells setCells width lmargin col row fg bg].
  repeat split.
  - apply growTurns_none.
  - apply growTurns_least.
  - unfold GoInt.len. rewrite length_insert. unfold GoInt.len in Haddr. exact Haddr.
  - apply list_lookup_insert_eq. exact Hlt.
  - intros j Hne Hj. rewrite list_lookup_insert_ne by congruence.
    apply grown_lookup_old. exact Hj.
Qed.

Lemma setCell_row_1000 :
  exists (k : nat) (c' : cellbuf),
    setCell emptyDoc 79 1000 65 0 0 = Ok c' /\
    cells c' = <[Z.to_nat (1000 * 80 + 79) := termbox.mkCell 65 0 0]>
                 (cells emptyDoc ++ replicate (1024 * k) zeroCell) /\
    (1000 * 80 + 79 < GoInt.len (cells emptyDoc) -> k = 0%nat) /\
    (GoInt.len (cells emptyDoc) <= 1000 * 80 + 79 ->
       GoInt.len (cells emptyDoc) + 1024 * (Z.of_nat k - 1) <= 1000 * 80 + 79) /\
    1000 * 80 + 79 < GoInt.len (cells c') /\
    cells c' !! Z.to_nat (1000 * 80 + 79) = Some (termbox.mkCell 65 0 0) /\
    (forall j : nat, j <> Z.to_nat (1000 * 80 + 79) ->
       (j < length (cells emptyDoc))%nat -> cells c' !! j = cells emptyDoc !! j) /\
    (width c', lmargin c', col c', row c', fg c', bg c') =
      (width emptyDoc, lmargin emptyDoc, col emptyDoc, row emptyDoc,
       fg emptyDoc, bg emptyDoc).
Proof.
  apply (setCell_grows_and_preserves emptyDoc 79 1000 65 0 0).
  - reflexivity.
  - lia.
  - lia.
  - unfold GoInt.maxInt. lia.
Defined.

(** C6 as stated fails for a row whose index leaves the range of [int]: the
    product wraps to a negative number, the loop does not run, and the
    write indexes the array below zero. *)
Lemma setCell_row_overflow :
  0 <= 0 < 80 /\ 0 <= 115292150460684698 /\
  setCell emptyDoc 0 115292150460684698 65 0 0 =
    Panic (IndexOutOfRange (-9223372036854775776) 0).
Proof. repeat split; try lia. Qed.

(** ** The style resolver *)

Lemma style_loop_union tags : forall acc,
  fold_left (fun fg tag =>
      match tag with
      | atom.B | atom.Strong | atom.Em => Z.lor fg termbox.AttrBold
      | atom.I => Z.lor fg termbox.ColorYellow
      | atom.Title => Z.lor fg termbox.ColorRed
      | atom.H1 => Z.lor fg termbox.ColorMagenta
      | atom.H2 => Z.lor fg termbox.ColorBlue
      | atom.H3 | atom.H4 | atom.H5 | atom.H6 => Z.lor fg termbox.ColorCyan
      | _ => fg
      end) tags acc = Z.lor acc (unionOfAttributes tags).
Proof.
  induction tags as [|tag tags IH]; intros acc.
  - unfold unionOfAttributes. simpl. unfold termbox.ColorDefault.
    rewrite Z.lor_0_r. reflexivity.
  - cbn [fold_left]. rewrite IH. unfold unionOfAttributes. cbn [map fold_right].
    rewrite Z.lor_assoc. f_equal.
    destruct tag; cbn [tagAttribute]; try reflexivity;
      unfold termbox.ColorDefault; rewrite Z.lor_0_r; reflexivity.
Qed.

Lemma unionOfAttributes_perm tags tags' :
  tags ≡ₚ tags' -> unionOfAttributes tags = unionOfAttributes tags'.
Proof.
  unfold unionOfAttributes.
  induction 1 as [|a l l' _ IH|a a' l|l l' l'' _ IH1 _ IH2]; cbn [map fold_right].
  - reflexivity.
  - rewrite IH. reflexivity.
  - rewrite !Z.lor_assoc. f_equal. apply Z.lor_comm.
  - congruence.
Qed.

Lemma style_fg c tags : fg (style c tags) = unionOfAttributes tags.
Proof.
  unfold style. cbn [fg setFg]. rewrite style_loop_union.
  unfold termbox.ColorDefault. apply Z.lor_0_l.
Qed.

Lemma style_other_fields c tags :
  cells (style c tags) = cells c /\ width (style c tags) = width c /\
  lmargin (style c tags) = lmargin c /\ col (style c tags) = col c /\
  row (style c tags) = row c /\ bg (style c tags) = bg c.
Proof. unfold style. cbn. auto 10. Qed.

Lemma cellbuf_eq c d :
  cells c = cells d -> width c = width d -> lmargin c = lmargin d ->
  col c = col d -> row c = row d -> fg c = fg d -> bg c = bg d -> c = d.
Proof. destruct c, d. cbn. intros; subst; reflexivity. Qed.

(** ** The background attribute *)

Lemma grow_shape fuel : forall cs i,
  exists k : nat, grow fuel cs i = cs ++ replicate (1024 * k) zeroCell.
Proof.
  induction fuel as [|fuel IH]; intros cs i.
  - exists 0%nat. simpl. rewrite app_nil_r. reflexivity.
  - cbn [grow]. destruct (GoInt.len cs <=? i).
    + destruct (IH (cs ++ replicate 1024 zeroCell) i) as [k Hk].
      exists (S k). rewrite Hk, <- app_assoc. f_equal.
      rewrite <- replicate_add. f_equal. lia.
    + exists 0%nat. simpl. rewrite app_nil_r. reflexivity.
Qed.

Lemma setCell_fields c x y ch f b c' :
  setCell c x y ch f b = Ok c' ->
  width c' = width c /\ lmargin c' = lmargin c /\ col c' = col c /\
  row c' = row c /\ fg c' = fg c /\ bg c' = bg c.
Proof.
  unfold setCell. intros H. apply bind_Ok_inv in H as (cs & _ & H).
  injection H as <-. cbn. auto 10.
Qed.

Lemma setCell_background c x y ch f c' :
  defaultBackground c -> setCell c x y ch f (bg c) = Ok c' -> defaultBackground c'.
Proof.
  intros [Hbg Hcells] H. split.
  { apply setCell_fields in H. destruct H as (_ & _ & _ & _ & _ & ->). exact Hbg. }
  unfold setCell in H. apply bind_Ok_inv in H as (cs & Hst & H).
  injection H as <-. cbn [cells setCells].
  unfold store in Hst.
  destruct ((0 <=? _) && _); [|discriminate]. injection Hst as <-.
  destruct (grow_shape (growTurns (cells c) (GoInt.add (GoInt.mul y (width c)) x))
              (cells c) (GoInt.add (GoInt.mul y (width c)) x)) as [k ->].
  apply Forall_insert; [|exact Hbg].
  apply Forall_app. split; [exact Hcells|].
  apply Forall_replicate. reflexivity.
Qed.

Lemma defaultBackground_cursor c d :
  bg d = bg c -> cells d = cells c -> defaultBackground c -> defaultBackground d.
Proof. unfold defaultBackground. intros -> ->. auto. Qed.

Lemma placeRunes_background word : forall c c',
  defaultBackground c -> placeRunes c word = Ok c' -> defaultBackground c'.
Proof.
  induction word as [|r rest IH]; intros c c' Hc H; cbn [placeRunes] in H.
  - injection H as <-. exact Hc.
  - destruct (r =? newline).
    + apply (IH (breakRow c) c'); [|exact H].
      apply (defaultBackground_cursor c); [reflexivity..|exact Hc].
    + apply bind_Ok_inv in H as (c1 & Hset & H).
      apply (IH (setCol c1 (GoInt.add (col c1) 1)) c'); [|exact H].
      apply (defaultBackground_cursor c1); [reflexivity..|].
      apply (setCell_background _ _ _ _ _ _ Hc Hset).
Qed.

Lemma snapToMargin_background c : defaultBackground c -> defaultBackground (snapToMargin c).
Proof.
  unfold snapToMargin. destruct (col c <? lmargin c); [|auto].
  apply defaultBackground_cursor; reflexivity.
Qed.

Lemma appendWord_background c word c' :
  defaultBackground c -> appendWord c word = Ok c' -> defaultBackground c'.
Proof.
  unfold appendWord. intros Hc H. apply bind_Ok_inv in H as (c2 & Hp & H).
  injection H as <-.
  assert (defaultBackground c2).
  { eapply placeRunes_background; [|exact Hp].
    destruct (GoInt.sub (width c) (col c) <? GoInt.len word); [|exact Hc].
    apply (defaultBackground_cursor c); [reflexivity..|exact Hc]. }
  destruct (col c2 =? lmargin c2); [assumption|].
  apply (defaultBackground_cursor c2); [reflexivity..|assumption].
Qed.

Lemma appendWords_background tokens : forall c c',
  defaultBackground c -> appendWords c tokens = Ok c' -> defaultBackground c'.
Proof.
  induction tokens as [|t rest IH]; intros c c' Hc H; cbn [appendWords] in H.
  - injection H as <-. exact Hc.
  - apply bind_Ok_inv in H as (c1 & Hw & H).
    eapply IH; [|exact H]. eapply appendWord_background; eauto.
Qed.

Lemma appendText_background c str c' :
  defaultBackground c -> cellbuf_appendText c str = Ok c' -> defaultBackground c'.
Proof.
  intros Hc. apply appendWords_background. apply snapToMargin_background, Hc.
Qed.

Lemma appendRaw_background c str c' :
  defaultBackground c -> appendRaw c str = Ok c' -> defaultBackground c'.
Proof.
  intros Hc. apply placeRunes_background. apply snapToMargin_background, Hc.
Qed.

Section BackgroundOfTheParse.

Variable pk : Packages.

Lemma parser_appendText_background p str raw p' :
  defaultBackground (doc p) -> parser_appendText pk p str raw = Ok p' ->
  defaultBackground (doc p').
Proof.
  unfold parser_appendText. intros Hp H.
  destruct (getTableCell p).
  - injection H as <-. exact Hp.
  - destruct raw; apply bind_Ok_inv in H as (d & Hd & H); injection H as <-; cbn [doc setDoc].
    + eapply appendRaw_background; eauto.
    + eapply appendText_background; eauto.
Qed.

Lemma handleText_background p token p' :
  defaultBackground (doc p) -> handleText pk p token = Ok p' ->
  defaultBackground (doc p').
Proof.
  unfold handleText. intros Hp H.
  destruct (_ && _).
  - injection H as <-. exact Hp.
  - eapply parser_appendText_background; [|exact H]. cbn [doc setDoc].
    apply (defaultBackground_cursor (doc p)); [reflexivity..|exact Hp].
Qed.

Lemma handleImgAttrs_background attrs : forall p p',
  defaultBackground (doc p) -> handleImgAttrs pk p attrs = Ok p' ->
  defaultBackground (doc p').
Proof.
  induction attrs as [|a rest IH]; intros p p' Hp H; cbn [handleImgAttrs] in H.
  - injection H as <-. exact Hp.
  - apply bind_Ok_inv in H as (p1 & H1 & H). eapply IH; [|exact H].
    unfold handleImgAttr in H1.
    destruct (atom.Lookup (html.Key a)); try (injection H1 as <-; exact Hp).
    + eapply parser_appendText_background; eauto.
    + destruct (getTableCell p); [injection H1 as <-; exact Hp|].
      destruct (findItem (items p) (html.Val a)); [|injection H1 as <-; exact Hp].
      apply bind_Ok_inv in H1 as (text & _ & H1).
      eapply parser_appendText_background; eauto.
Qed.

Lemma handleStartTag_background p token p' :
  defaultBackground (doc p) -> handleStartTag pk p token = Ok p' ->
  defaultBackground (doc p').
Proof.
  unfold handleStartTag. intros Hp H.
  destruct (html.DataAtom token); try (injection H as <-; exact Hp).
  - eapply handleImgAttrs_background; eauto.
  - eapply parser_appendText_background; eauto.
  - apply bind_Ok_inv in H as (line & _ & H).
    eapply parser_appendText_background; [|exact H]. cbn [doc setDoc].
    apply (defaultBackground_cursor (doc p)); [reflexivity..|exact Hp].
  - apply bind_Ok_inv in H as (table & _ & H).
    apply bind_Ok_inv in H as (ts & _ & H). injection H as <-. exact Hp.
  - apply bind_Ok_inv in H as (table & _ & H).
    apply bind_Ok_inv in H as (r & _ & H).
    apply bind_Ok_inv in H as (table' & _ & H).
    apply bind_Ok_inv in H as (ts & _ & H). injection H as <-. exact Hp.
Qed.

Lemma handleEndTag_background p token p' :
  defaultBackground (doc p) -> handleEndTag pk p token = Ok p' ->
  defaultBackground (doc p').
Proof.
  unfold handleEndTag. intros Hp H.
  destruct (html.DataAtom token); try (injection H as <-; exact Hp).
  apply bind_Ok_inv in H as (table & _ & H).
  apply bind_Ok_inv in H as (ts & _ & H).
  apply bind_Ok_inv in H as (p1 & H1 & H).
  eapply parser_appendText_background; [|exact H].
  eapply parser_appendText_background; [|exact H1]. exact Hp.
Qed.

Lemma dispatch_background p token p' :
  defaultBackground (doc p) -> dispatch pk p token = Ok p' ->
  defaultBackground (doc p').
Proof.
  unfold dispatch. intros Hp H.
  destruct (html.Type_ token); try (injection H as <-; exact Hp).
  - eapply handleText_background; eauto.
  - eapply handleStartTag_background; [|exact H]. exact Hp.
  - apply bind_Ok_inv in H as (p1 & H1 & H).
    apply bind_Ok_inv in H as (tags & _ & H). injection H as <-. cbn [doc setTagStack].
    eapply handleEndTag_background; eauto.
  - eapply handleStartTag_background; eauto.
Qed.

Lemma parse_background tokens err : forall p p' e,
  defaultBackground (doc p) -> parse pk tokens err p = Ok (p', e) ->
  defaultBackground (doc p').
Proof.
  induction tokens as [|token rest IH]; intros p p' e Hp H; cbn [parse] in H.
  - injection H as <- _. exact Hp.
  - destruct (html.Type_ token) eqn:Hty;
      try (apply bind_Ok_inv in H as (p1 & H1 & H);
           eapply IH; [|exact H]; eapply dispatch_background; eauto).
    injection H as <- _. exact Hp.
Qed.

Lemma parseText_background tokens err its d e :
  parseText pk tokens err its = Ok (d, e) -> defaultBackground d.
Proof.
  unfold parseText. intros H. apply bind_Ok_inv in H as ([p' e'] & Hp & H).
  assert (d = doc p') as -> by (destruct e'; congruence).
  eapply parse_background; [|exact Hp].
  split; [reflexivity | constructor].
Qed.

End BackgroundOfTheParse.

(** C5.  [style] sets the foreground to the default colour OR-ed with the
    attribute of every open tag and changes nothing else of the document, so
    any two stacks holding the same tags in a different order give the same
    document; bold and italic nested either way give the attribute with the
    bold bit and the yellow bits both set; the background is left as it
    was, and in every document [parseText] returns it is the default, for the
    document and for each of its cells. *)
Theorem style_is_union_of_open_tags (c : cellbuf) (tags tags' : list atom.Atom) :
  tags ≡ₚ tags' ->
  fg (style c tags) = unionOfAttributes tags /\
  style c tags' = style c tags /\
  style c [atom.B; atom.I] = style c [atom.I; atom.B] /\
  fg (style c [atom.B; atom.I]) = Z.lor termbox.AttrBold termbox.ColorYellow /\
  Z.land (fg (style c [atom.B; atom.I])) termbox.AttrBold = termbox.AttrBold /\
  Z.land (fg (style c [atom.B; atom.I])) termbox.ColorYellow = termbox.ColorYellow /\
  bg (style c tags) = bg c /\
  (forall pk tokens err its,
     match parseText pk tokens err its with
     | Ok (d, _) => defaultBackground d
     | Panic _ => True
     end).
Proof.
  intros Hperm.
  split; [apply style_fg|].
  split.
  { apply cellbuf_eq; try reflexivity.
    rewrite !style_fg. symmetry. apply unionOfAttributes_perm, Hperm. }
  do 5 (split; [reflexivity|]).
  intros pk tokens err its.
  destruct (parseText pk tokens err its) as [[d e]|] eqn:H; [|exact I].
  apply (parseText_background _ _ _ _ _ _ H).
Qed.

Lemma style_of_nested_bold_italic :
  fg (style emptyDoc [atom.B; atom.I]) = unionOfAttributes [atom.B; atom.I] /\
  style emptyDoc [atom.I; atom.B] = style emptyDoc [atom.B; atom.I] /\
  style emptyDoc [atom.B; atom.I] = style emptyDoc [atom.I; atom.B] /\
  fg (style emptyDoc [atom.B; atom.I]) = Z.lor termbox.AttrBold termbox.ColorYellow /\
  Z.land (fg (style emptyDoc [atom.B; atom.I])) termbox.AttrBold = termbox.AttrBold /\
  Z.land (fg (style emptyDoc [atom.B; atom.I])) termbox.ColorYellow = termbox.ColorYellow /\
  bg (style emptyDoc [atom.B; atom.I]) = bg emptyDoc /\
  (forall pk tokens err its,
     match parseText pk tokens err its with
     | Ok (d, _) => defaultBackground d
     | Panic _ => True
     end).
Proof.
  apply (style_is_union_of_open_tags emptyDoc [atom.B; atom.I] [atom.I; atom.B]).
  apply perm_swap.
Defined.

(** ** Word-wrapped text: where the runes of a word go *)

Lemma sameSetting_refl c : sameSetting c c.
Proof. unfold sameSetting. auto. Qed.

Lemma sameSetting_trans c d e : sameSetting c d -> sameSetting d e -> sameSetting c e.
Proof. unfold sameSetting. intuition congruence. Qed.

(** A word without a newline is written rune by rune from the cursor on, in
    one row, and nothing before the cursor is touched. *)
Lemma placeRunes_plain word : forall c,
  noNewline word ->
  0 <= row c -> 0 <= col c -> 0 <= width c ->
  cursor c + GoInt.len word <= GoInt.maxInt ->
  exists c',
    placeRunes c word = Ok c' /\ sameSetting c c' /\
    row c' = row c /\ col c' = col c + GoInt.len word /\
    (forall (k : nat) r, word !! k = Some r ->
       cells c' !! (Z.to_nat (cursor c) + k)%nat = Some (termbox.mkCell r (fg c) (bg c))) /\
    (forall j : nat, (j < Z.to_nat (cursor c))%nat -> (j < length (cells c))%nat ->
       cells c' !! j = cells c !! j) /\
    (length (cells c) <= length (cells c'))%nat.
Proof.
  induction word as [|r rest IH]; intros c Hnl Hrow Hcol Hw Hmax.
  - exists c. cbn [placeRunes]. unfold GoInt.len. cbn [length].
    repeat split; auto using sameSetting_refl; try lia.
    intros k r Hk. rewrite lookup_nil in Hk. discriminate.
  - apply Forall_cons in Hnl as [Hr Hnl].
    unfold GoInt.len in Hmax. cbn [length] in Hmax. unfold cursor in *.
    assert (Hprod : 0 <= row c * width c) by (apply Z.mul_nonneg_nonneg; assumption).
    cbn [placeRunes]. destruct (Z.eqb_spec r newline) as [|_]; [contradiction|].
    rewrite setCell_exact by (unfold GoInt.inRange, GoInt.minInt; lia).
    rewrite bind_Ok.
    set (i := row c * width c + col c) in *.
    set (c1 := setCells c _).
    assert (Hadd : GoInt.add (col c1) 1 = col c + 1).
    { apply add_exact. subst c1. cbn. unfold GoInt.inRange, GoInt.minInt. lia. }
    rewrite Hadd.
    destruct (IH (setCol c1 (col c + 1))) as (c' & Hrun & Hset & Hrow' & Hcol' & Hput & Hkeep & Hlen);
      subst c1; cbn [row col width cells setCol setCells fg bg lmargin]; try assumption; try lia.
    { unfold GoInt.len. lia. }
    cbn [row col width cells setCol setCells fg bg lmargin] in *.
    pose proof (grown_addressable (cells c) i) as Haddr. unfold GoInt.len in Haddr.
    exists c'. split; [exact Hrun|].
    split. { unfold sameSetting in *. cbn in Hset. exact Hset. }
    split; [exact Hrow'|].
    split. { rewrite Hcol'. unfold GoInt.len. cbn [length]. lia. }
    split; [|split].
    + intros k r' Hk. destruct k as [|k].
      * cbn in Hk. injection Hk as <-. rewrite Nat.add_0_r.
        rewrite Hkeep.
        -- apply list_lookup_insert_eq. lia.
        -- lia.
        -- rewrite length_insert. lia.
      * cbn in Hk. specialize (Hput k r' Hk).
        replace (Z.to_nat i + S k)%nat with (Z.to_nat (i + 1) + k)%nat by lia.
        replace (row c * width c + (col c + 1)) with (i + 1) in Hput by (subst i; lia).
        exact Hput.
    + intros j Hj Hjlen. rewrite Hkeep.
      * rewrite list_lookup_insert_ne by lia. apply grown_lookup_old. exact Hjlen.
      * lia.
      * rewrite length_insert. pose proof (grown_length (cells c) i). lia.
    + rewrite length_insert in Hlen. pose proof (grown_length (cells c) i). lia.
Qed.

(** ** Word-wrapped text never panics while the indices stay within [int] *)

Lemma sane_weaken c m n : 0 <= n <= m -> sane c m -> sane c n.
Proof.
  unfold sane. intros Hn (Hl & Hr & Hw & Hm & Hrm & Hb).
  repeat split; try lia.
  assert ((row c + n) * width c <= (row c + m) * width c)
    by (apply Z.mul_le_mono_nonneg_r; lia).
  lia.
Qed.

Lemma sane_cursor c n : sane c n ->
  0 <= row c * width c /\ cursor c + n <= GoInt.maxInt.
Proof.
  unfold sane, cursor. intros (Hl & Hr & Hw & Hm & Hrm & Hb).
  split; [apply Z.mul_nonneg_nonneg; lia|].
  assert (row c * width c <= (row c + n) * width c)
    by (apply Z.mul_le_mono_nonneg_r; lia).
  lia.
Qed.

Lemma sane_breakRow c n : sane c (n + 1) -> 0 <= n ->
  breakRow c = setCol (setRow c (row c + 1)) (lmargin c) /\ sane (breakRow c) n.
Proof.
  unfold sane. intros (Hl & Hr & Hw & Hm & Hrm & Hb) Hn.
  unfold breakRow.
  rewrite add_exact by (unfold GoInt.inRange, GoInt.minInt; lia).
  split; [reflexivity|]. cbn.
  replace (row c + 1 + n) with (row c + (n + 1)) by lia.
  repeat split; lia.
Qed.

Lemma sane_step c n : sane c (n + 1) -> 0 <= n ->
  GoInt.add (col c) 1 = col c + 1 /\ sane (setCol c (col c + 1)) n.
Proof.
  unfold sane. intros (Hl & Hr & Hw & Hm & Hrm & Hb) Hn.
  assert (0 <= (row c + (n + 1)) * width c) by (apply Z.mul_nonneg_nonneg; lia).
  split.
  { apply add_exact. unfold GoInt.inRange, GoInt.minInt. lia. }
  cbn.
  assert ((row c + n) * width c <= (row c + (n + 1)) * width c)
    by (apply Z.mul_le_mono_nonneg_r; lia).
  repeat split; lia.
Qed.

Lemma sane_same_cursor c d n :
  lmargin d = lmargin c -> col d = col c -> row d = row c -> width d = width c ->
  sane c n -> sane d n.
Proof. unfold sane. intros -> -> -> ->. auto. Qed.

Lemma placeRunes_sane word : forall c n,
  0 <= n -> sane c (n + GoInt.len word) ->
  exists c', placeRunes c word = Ok c' /\ sameSetting c c' /\ sane c' n /\
             row c <= row c'.
Proof.
  induction word as [|r rest IH]; intros c n Hn Hs.
  - exists c. cbn [placeRunes]. unfold GoInt.len in Hs. cbn [length] in Hs.
    rewrite Z.add_0_r in Hs. auto using sameSetting_refl with zarith.
  - assert (Hlen : n + GoInt.len (r :: rest) = n + GoInt.len rest + 1)
      by (unfold GoInt.len; cbn [length]; lia).
    rewrite Hlen in Hs.
    assert (0 <= GoInt.len rest) by apply len_nonneg.
    cbn [placeRunes]. destruct (r =? newline).
    + destruct (sane_breakRow c (n + GoInt.len rest)) as [Hbr Hs']; [assumption|lia|].
      destruct (IH (breakRow c) n Hn Hs') as (c' & Hrun & Hset & Hsane & Hrow).
      exists c'. split; [exact Hrun|]. split; [|split; [exact Hsane|]].
      * eapply sameSetting_trans; [|exact Hset]. rewrite Hbr. unfold sameSetting. auto.
      * rewrite Hbr in Hrow. cbn in Hrow. lia.
    + destruct (sane_cursor _ _ Hs) as [Hprod Hcur]. unfold cursor in Hcur.
      pose proof Hs as (Hl & Hr & Hw & _).
      rewrite setCell_exact by (unfold GoInt.inRange, GoInt.minInt; lia).
      rewrite bind_Ok. set (c1 := setCells c _).
      assert (Hs1 : sane c1 (n + GoInt.len rest + 1))
        by (apply (sane_same_cursor c); [reflexivity..|exact Hs]).
      destruct (sane_step c1 (n + GoInt.len rest)) as [Hadd Hs']; [assumption|lia|].
      rewrite Hadd.
      destruct (IH _ n Hn Hs') as (c' & Hrun & Hset & Hsane & Hrow).
      exists c'. split; [exact Hrun|]. split; [|split; [exact Hsane|exact Hrow]].
      eapply sameSetting_trans; [|exact Hset]. unfold sameSetting. auto.
Qed.

Lemma appendWord_sane c word n :
  0 <= n -> sane c (n + GoInt.len word + 2) ->
  exists c', appendWord c word = Ok c' /\ sameSetting c c' /\ sane c' n /\
             row c <= row c'.
Proof.
  intros Hn Hs. unfold appendWord.
  assert (0 <= GoInt.len word) by apply len_nonneg.
  set (c1 := if _ <? _ then breakRow c else c).
  assert (H1 : sameSetting c c1 /\ sane c1 (n + 1 + GoInt.len word) /\ row c <= row c1).
  { subst c1. destruct (_ <? _).
    - destruct (sane_breakRow c (n + 1 + GoInt.len word)) as [Hbr Hs'];
        [replace (n + 1 + GoInt.len word + 1) with (n + GoInt.len word + 2) by lia;
         exact Hs | lia |].
      split; [|split; [exact Hs'|]]; rewrite Hbr; [unfold sameSetting; auto | cbn; lia].
    - split; [apply sameSetting_refl|]. split; [|lia].
      apply (sane_weaken c (n + GoInt.len word + 2)); [lia|exact Hs]. }
  destruct H1 as (Hset1 & Hs1 & Hrow1).
  destruct (placeRunes_sane word c1 (n + 1)) as (c2 & Hrun & Hset2 & Hs2 & Hrow2);
    [lia|exact Hs1|].
  rewrite Hrun, bind_Ok.
  destruct (col c2 =? lmargin c2).
  - exists c2. split; [reflexivity|].
    split; [eapply sameSetting_trans; eauto|].
    split; [apply (sane_weaken c2 (n + 1)); [lia|exact Hs2] | lia].
  - destruct (sane_step c2 n Hs2 Hn) as [Hadd Hs3]. rewrite Hadd.
    eexists. split; [reflexivity|].
    split; [|split; [exact Hs3 | cbn; lia]].
    eapply sameSetting_trans; [exact Hset1|].
    eapply sameSetting_trans; [exact Hset2|]. unfold sameSetting. auto.
Qed.

Lemma budget_nonneg tokens : 0 <= budget tokens.
Proof.
  induction tokens as [|t rest IH]; cbn [budget]; [lia|].
  pose proof (len_nonneg (runes t)). lia.
Qed.

Lemma budget_app pre post : budget (pre ++ post) = budget pre + budget post.
Proof.
  induction pre as [|t rest IH]; cbn [budget app]; lia.
Qed.

Lemma appendWords_sane tokens : forall c n,
  0 <= n -> sane c (n + budget tokens) ->
  exists c', appendWords c tokens = Ok c' /\ sameSetting c c' /\ sane c' n /\
             row c <= row c'.
Proof.
  induction tokens as [|t rest IH]; intros c n Hn Hs.
  - exists c. cbn [appendWords]. cbn in Hs. rewrite Z.add_0_r in Hs.
    auto using sameSetting_refl with zarith.
  - cbn [budget] in Hs.
    pose proof (budget_nonneg rest).
    destruct (appendWord_sane c (runes t) (n + budget rest)) as (c1 & H1 & Hset1 & Hs1 & Hrow1);
      [lia | replace (n + budget rest + GoInt.len (runes t) + 2)
               with (n + (GoInt.len (runes t) + 2 + budget rest)) by lia; exact Hs |].
    destruct (IH c1 n Hn Hs1) as (c' & H2 & Hset2 & Hs2 & Hrow2).
    exists c'. cbn [appendWords]. rewrite H1, bind_Ok.
    split; [exact H2|]. split; [eapply sameSetting_trans; eauto|].
    split; [exact Hs2 | lia].
Qed.

Lemma roomFor_sane c n : 0 <= n -> roomFor c n ->
  sane (snapToMargin c) n /\ sameSetting c (snapToMargin c) /\
  row (snapToMargin c) = row c /\ cells (snapToMargin c) = cells c /\
  col (snapToMargin c) = Z.max (col c) (lmargin c).
Proof.
  unfold roomFor, sane, snapToMargin, sameSetting. intros Hn (Hl & Hr & Hw & Hrm & Hb).
  destruct (Z.ltb_spec (col c) (lmargin c)); cbn; repeat split; lia.
Qed.

(** [appendText] returns, with the setting of the document unchanged. *)
Lemma appendText_total c str :
  roomFor c (budget (bufio.scan str)) ->
  exists c', cellbuf_appendText c str = Ok c' /\ sameSetting c c' /\ row c <= row c'.
Proof.
  intros Hroom. pose proof (budget_nonneg (bufio.scan str)) as Hb.
  destruct (roomFor_sane _ _ Hb Hroom) as (Hs & Hset & Hrow & _).
  destruct (appendWords_sane (bufio.scan str) (snapToMargin c) 0) as (c' & H & Hset' & _ & Hrow');
    [lia | exact Hs |].
  exists c'. split; [exact H|]. split; [eapply sameSetting_trans; eauto | lia].
Qed.

Lemma noNewline_check word :
  forallb (fun r => negb (r =? newline)) word = true -> noNewline word.
Proof.
  unfold noNewline. rewrite forallb_forall, Forall_forall.
  intros H r Hr Heq. apply list_elem_of_In in Hr. specialize (H r Hr).
  subst r. discriminate.
Qed.

Lemma sane_in_range c n : sane c n -> 1 <= n ->
  GoInt.inRange (width c - col c).
Proof.
  unfold sane. intros (Hl & Hr & Hw & Hn & Hrm & Hb) H1.
  assert (width c <= (row c + n) * width c).
  { replace (width c) with (1 * width c) at 1 by lia.
    apply Z.mul_le_mono_nonneg_r; lia. }
  unfold GoInt.inRange, GoInt.minInt, GoInt.maxInt in *. lia.
Qed.

(** A token longer than the grid is wide, without a newline in it: the row
    is broken first, the runes go from the margin of the new row on, and the
    column ends beyond the width. *)
Lemma appendWord_long c word n :
  0 <= n -> sane c (n + GoInt.len word + 2) ->
  width c < GoInt.len word -> noNewline word ->
  exists c',
    appendWord c word = Ok c' /\ sameSetting c c' /\ sane c' n /\
    row c' = row c + 1 /\ col c' = lmargin c + GoInt.len word + 1 /\
    (forall (k : nat) r, word !! k = Some r ->
       cells c' !! Z.to_nat ((row c + 1) * width c + (lmargin c + Z.of_nat k)) =
         Some (termbox.mkCell r (fg c) (bg c))).
Proof.
  intros Hn Hs Hlong Hnl.
  destruct (appendWord_sane c word n Hn Hs) as (c' & Happ & Hset & Hsane & _).
  exists c'. split; [exact Happ|]. split; [exact Hset|]. split; [exact Hsane|].
  pose proof (len_nonneg word) as Hlen.
  unfold appendWord in Happ.
  rewrite sub_exact in Happ by (apply (sane_in_range c (n + GoInt.len word + 2)); [exact Hs|lia]).
  pose proof Hs as (Hl & Hr & Hw & _).
  destruct (Z.ltb_spec (width c - col c) (GoInt.len word)) as [_|Hge]; [|lia].
  destruct (sane_breakRow c (n + GoInt.len word + 1)) as [Hbr Hs1];
    [replace (n + GoInt.len word + 1 + 1) with (n + GoInt.len word + 2) by lia; exact Hs | lia |].
  rewrite Hbr in Happ, Hs1.
  set (c1 := setCol (setRow c (row c + 1)) (lmargin c)) in *.
  destruct (sane_cursor _ _ Hs1) as [Hprod Hcur].
  destruct (placeRunes_plain word c1) as (c2 & Hrun & Hset2 & Hrow2 & Hcol2 & Hput & _ & _);
    [exact Hnl | subst c1; cbn; lia | subst c1; cbn; lia | subst c1; cbn; lia | lia |].
  rewrite Hrun, bind_Ok in Happ.
  assert (Hlm : lmargin c2 = lmargin c) by (destruct Hset2 as (_ & -> & _); reflexivity).
  assert (Hcol2' : col c2 = lmargin c + GoInt.len word) by (rewrite Hcol2; reflexivity).
  destruct (Z.eqb_spec (col c2) (lmargin c2)) as [Heq|_]; [lia|].
  unfold cursor in Hcur, Hput. subst c1.
  cbn [row col width fg bg setCol setRow] in Hcur, Hput, Hrow2.
  rewrite add_exact in Happ by (unfold GoInt.inRange, GoInt.minInt; lia).
  injection Happ as <-. cbn [row col cells setCol].
  split; [exact Hrow2|]. split; [lia|].
  intros k r Hk. specialize (Hput k r Hk).
  rewrite <- Hput. f_equal. lia.
Qed.

(** C4 (as amended).  The tokens of [str] are the words between its spaces,
    up to the first of 64 KiB or more, where the scanner stops
    ([scan_refines]).  Let a document have room for them, and
    let [t] be one of them, longer than the grid is wide and without a
    newline rune.  Then the loop of [appendText] reaches [t] in some state
    [c1], breaks to the next row, writes every rune of [t] from the left
    margin of that row on, one column each, and leaves the column beyond the
    width; the text as a whole is appended without a panic. *)
Theorem long_token_overflows_a_fresh_row
    (c : cellbuf) (str : string) (pre post : list string) (t : string) :
  roomFor c (budget (bufio.scan str)) ->
  bufio.scan str = pre ++ t :: post ->
  width c < GoInt.len (runes t) ->
  noNewline (runes t) ->
  exists c1 c2,
    appendWords (snapToMargin c) pre = Ok c1 /\
    appendWord c1 (runes t) = Ok c2 /\
    row c2 = row c1 + 1 /\
    (forall (k : nat) r, runes t !! k = Some r ->
       cells c2 !! Z.to_nat ((row c1 + 1) * width c + (lmargin c + Z.of_nat k)) =
         Some (termbox.mkCell r (fg c) (bg c))) /\
    col c2 = lmargin c + GoInt.len (runes t) + 1 /\
    width c < col c2 - 1 /\
    exists c', cellbuf_appendText c str = Ok c'.
Proof.
  intros Hroom Hscan Hlong Hnl.
  pose proof (budget_nonneg (bufio.scan str)) as Hb.
  destruct (appendText_total c str Hroom) as (c' & Htot & _).
  destruct (roomFor_sane _ _ Hb Hroom) as (Hs & Hset0 & _).
  rewrite Hscan, budget_app in Hs. cbn [budget] in Hs.
  pose proof (budget_nonneg pre). pose proof (budget_nonneg post).
  pose proof (len_nonneg (runes t)).
  destruct (appendWords_sane pre (snapToMargin c) (GoInt.len (runes t) + 2 + budget post))
    as (c1 & Hpre & Hset1 & Hs1 & _); [lia | rewrite Z.add_comm; exact Hs |].
  destruct (appendWord_long c1 (runes t) (budget post))
    as (c2 & Hword & Hset2 & _ & Hrow & Hcol & Hput); try assumption.
  { replace (budget post + GoInt.len (runes t) + 2)
      with (GoInt.len (runes t) + 2 + budget post) by lia. exact Hs1. }
  { destruct Hset0 as (Hw0 & _), Hset1 as (Hw1 & _). lia. }
  assert (Hc1 : width c1 = width c /\ lmargin c1 = lmargin c /\ fg c1 = fg c /\ bg c1 = bg c).
  { pose proof (sameSetting_trans _ _ _ Hset0 Hset1) as Hc1. exact Hc1. }
  destruct Hc1 as (Hw & Hlm & Hfg & Hbg).
  rewrite Hw, Hlm, Hfg, Hbg in *.
  assert (0 <= lmargin c) by (destruct Hroom as (Hl & _); exact Hl).
  exists c1. exists c2.
  split; [exact Hpre|]. split; [exact Hword|]. split; [exact Hrow|].
  split; [exact Hput|]. split; [exact Hcol|]. split; [lia|].
  exists c'. exact Htot.
Qed.

Lemma long_token_after_a_word :
  exists c1 c2,
    appendWords (snapToMargin emptyDoc) ["x"%string] = Ok c1 /\
    appendWord c1 (runes longToken) = Ok c2 /\
    row c2 = row c1 + 1 /\
    (forall (k : nat) r, runes longToken !! k = Some r ->
       cells c2 !! Z.to_nat ((row c1 + 1) * width emptyDoc + (lmargin emptyDoc + Z.of_nat k)) =
         Some (termbox.mkCell r (fg emptyDoc) (bg emptyDoc))) /\
    col c2 = lmargin emptyDoc + GoInt.len (runes longToken) + 1 /\
    width emptyDoc < col c2 - 1 /\
    exists c', cellbuf_appendText emptyDoc (String.append "x " longToken) = Ok c'.
Proof.
  apply (long_token_overflows_a_fresh_row emptyDoc (String.append "x " longToken)
           ["x"%string] [] longToken).
  - assert (Hb : budget (bufio.scan (String.append "x " longToken)) = 86)
      by (vm_compute; reflexivity).
    rewrite Hb. unfold roomFor, GoInt.maxInt. cbn. lia.
  - vm_compute. reflexivity.
  - vm_compute. reflexivity.
  - apply noNewline_check. vm_compute. reflexivity.
Defined.

(** C4 as stated fails for a token with a newline rune in it: the newline is
    not written, the runes after it go to the row below the fresh one, and
    the column never passes the width.  Rune 41 of the token (the first
    letter b) is not at column 41 of the fresh row, which stays empty. *)
Lemma long_token_with_newline_is_spread :
  bufio.scan brokenToken = [brokenToken] /\
  width emptyDoc < GoInt.len (runes brokenToken) /\
  runes brokenToken !! 41%nat = Some 98 /\
  exists c2,
    appendWord (snapToMargin emptyDoc) (runes brokenToken) = Ok c2 /\
    cellbuf_appendText emptyDoc brokenToken = Ok c2 /\
    row c2 = row emptyDoc + 2 /\
    col c2 = 41 /\
    cells c2 !! Z.to_nat ((row emptyDoc + 1) * width emptyDoc + (lmargin emptyDoc + 41)) =
      Some zeroCell /\
    cells c2 !! Z.to_nat ((row emptyDoc + 2) * width emptyDoc + lmargin emptyDoc) =
      Some (termbox.mkCell 98 0 0) /\
    forallb (fun cell => negb (termbox.Ch cell =? newline)) (cells c2) = true.
Proof.
  split; [vm_compute; reflexivity|].
  split; [vm_compute; reflexivity|].
  split; [vm_compute; reflexivity|].
  destruct (appendWord (snapToMargin emptyDoc) (runes brokenToken)) as [c2|e] eqn:H;
    vm_compute in H; [|discriminate].
  exists c2. split; [reflexivity|].
  injection H as <-.
  repeat split; vm_compute; reflexivity.
Qed.

(** ** Words that fit are not split *)

(** The second half of a turn of the loop of [appendText], for a word that
    fits between the cursor and the right edge. *)
Lemma place_and_separate c1 word n :
  0 <= n -> sane c1 (n + GoInt.len word + 1) -> noNewline word ->
  col c1 + GoInt.len word <= width c1 ->
  exists c',
    (c2 ← placeRunes c1 word;
     Ok (if col c2 =? lmargin c2 then c2 else setCol c2 (GoInt.add (col c2) 1))) = Ok c' /\
    sameSetting c1 c' /\ sane c' n /\ row c' = row c1 /\
    (forall (k : nat) r, word !! k = Some r ->
       cells c' !! Z.to_nat (row c1 * width c1 + (col c1 + Z.of_nat k)) =
         Some (termbox.mkCell r (fg c1) (bg c1))) /\
    (forall j : nat, Z.of_nat j < cursor c1 -> (j < length (cells c1))%nat ->
       cells c' !! j = cells c1 !! j) /\
    (length (cells c1) <= length (cells c'))%nat /\
    cursor c1 + GoInt.len word <= frontier c'.
Proof.
  intros Hn Hs Hnl Hfit.
  pose proof (len_nonneg word) as Hlen.
  pose proof Hs as (Hl & Hr & Hw & _).
  destruct (sane_cursor _ _ Hs) as [Hprod Hcur].
  destruct (placeRunes_sane word c1 (n + 1)) as (c2 & Hrun & Hset & Hs2 & _);
    [lia | replace (n + 1 + GoInt.len word) with (n + GoInt.len word + 1) by lia; exact Hs |].
  destruct (placeRunes_plain word c1) as (c2' & Hrun' & _ & Hrow & Hcol & Hput & Hkeep & Hgrow);
    try assumption; try lia.
  rewrite Hrun in Hrun'. injection Hrun' as <-.
  rewrite Hrun, bind_Ok.
  assert (Hput' : forall (k : nat) r, word !! k = Some r ->
    cells c2 !! Z.to_nat (row c1 * width c1 + (col c1 + Z.of_nat k)) =
      Some (termbox.mkCell r (fg c1) (bg c1))).
  { intros k r Hk. rewrite <- (Hput k r Hk). f_equal. unfold cursor. lia. }
  assert (Hkeep' : forall j : nat, Z.of_nat j < cursor c1 -> (j < length (cells c1))%nat ->
    cells c2 !! j = cells c1 !! j).
  { intros j Hj Hjl. apply Hkeep; [lia|exact Hjl]. }
  destruct Hset as (Hw2 & Hlm2 & Hfg2 & Hbg2).
  assert (Hfront : forall d, row d = row c1 -> width d = width c1 -> lmargin d = lmargin c1 ->
    col c1 + GoInt.len word <= col d -> cursor c1 + GoInt.len word <= frontier d).
  { intros d Hdr Hdw Hdl Hdc. unfold frontier, cursor. rewrite Hdr, Hdw, Hdl.
    apply Z.min_glb; lia. }
  destruct (col c2 =? lmargin c2).
  - exists c2. split; [reflexivity|].
    split; [unfold sameSetting; auto|].
    split; [apply (sane_weaken c2 (n + 1)); [lia|exact Hs2]|].
    split; [exact Hrow|]. split; [exact Hput'|]. split; [exact Hkeep'|].
    split; [exact Hgrow|]. apply Hfront; auto; lia.
  - destruct (sane_step c2 n Hs2 Hn) as [Hadd Hs3]. rewrite Hadd.
    eexists. split; [reflexivity|].
    split; [unfold sameSetting; auto|].
    split; [exact Hs3|].
    split; [exact Hrow|]. split; [exact Hput'|]. split; [exact Hkeep'|].
    split; [exact Hgrow|]. apply Hfront; cbn; auto; lia.
Qed.

(** One turn of the loop for a word that fits between the margins and has
    no newline: all its runes go to one row, from a column [x] on, within
    the width. *)
Lemma appendWord_short c word n :
  0 <= n -> sane c (n + GoInt.len word + 2) ->
  GoInt.len word <= width c - lmargin c -> noNewline word ->
  exists c' x,
    appendWord c word = Ok c' /\ sameSetting c c' /\ sane c' n /\
    row c <= row c' <= row c + 1 /\
    lmargin c <= x /\ x + GoInt.len word <= width c /\
    (forall (k : nat) r, word !! k = Some r ->
       cells c' !! Z.to_nat (row c' * width c + (x + Z.of_nat k)) =
         Some (termbox.mkCell r (fg c) (bg c))) /\
    (forall j : nat, Z.of_nat j < frontier c -> (j < length (cells c))%nat ->
       cells c' !! j = cells c !! j) /\
    (length (cells c) <= length (cells c'))%nat /\
    frontier c <= row c' * width c + x /\
    row c' * width c + x + GoInt.len word <= frontier c'.
Proof.
  intros Hn Hs Hfit Hnl.
  pose proof (len_nonneg word) as Hlen.
  pose proof Hs as (Hl & Hr & Hw & _).
  unfold appendWord.
  rewrite sub_exact by (apply (sane_in_range c (n + GoInt.len word + 2)); [exact Hs|lia]).
  destruct (Z.ltb_spec (width c - col c) (GoInt.len word)) as [Hbreak|Hstay].
  - destruct (sane_breakRow c (n + GoInt.len word + 1)) as [Hbr Hs1];
      [replace (n + GoInt.len word + 1 + 1) with (n + GoInt.len word + 2) by lia; exact Hs | lia |].
    rewrite Hbr in Hs1 |- *.
    set (c1 := setCol (setRow c (row c + 1)) (lmargin c)) in *.
    destruct (place_and_separate c1 word n Hn Hs1 Hnl)
      as (c' & Hok & Hset & Hsane & Hrow & Hput & Hkeep & Hgrow & Hfront);
      [subst c1; cbn; lia|].
    subst c1. unfold cursor in *. cbn [row col width lmargin fg bg cells setCol setRow] in *.
    exists c'. exists (lmargin c). rewrite Hrow.
    split; [exact Hok|]. split; [exact Hset|]. split; [exact Hsane|].
    split; [lia|]. split; [lia|]. split; [lia|]. split; [exact Hput|].
    split; [|split; [exact Hgrow|split; [|lia]]].
    + intros j Hj Hjl. apply Hkeep; [|exact Hjl]. unfold frontier, cursor in Hj. lia.
    + unfold frontier. lia.
  - destruct (place_and_separate c word n Hn) as
      (c' & Hok & Hset & Hsane & Hrow & Hput & Hkeep & Hgrow & Hfront);
      [apply (sane_weaken c (n + GoInt.len word + 2)); [lia|exact Hs] | exact Hnl | lia |].
    unfold cursor in *.
    exists c'. exists (col c). rewrite Hrow.
    split; [exact Hok|]. split; [exact Hset|]. split; [exact Hsane|].
    split; [lia|]. split; [lia|]. split; [lia|]. split; [exact Hput|].
    split; [|split; [exact Hgrow|split; [|lia]]].
    + intros j Hj Hjl. apply Hkeep; [|exact Hjl]. unfold frontier, cursor in Hj. lia.
    + unfold frontier, cursor. lia.
Qed.

Lemma appendWords_short tokens : forall c n,
  0 <= n -> sane c (n + budget tokens) -> Forall (fits c) tokens ->
  exists c',
    appendWords c tokens = Ok c' /\ sameSetting c c' /\ sane c' n /\
    row c <= row c' /\
    (forall j : nat, Z.of_nat j < frontier c -> (j < length (cells c))%nat ->
       cells c' !! j = cells c !! j) /\
    (length (cells c) <= length (cells c'))%nat /\
    frontier c <= frontier c' /\
    (forall pre t post, tokens = pre ++ t :: post ->
       exists x y, row c <= y <= row c' /\ wholeInRow c c' t x y).
Proof.
  induction tokens as [|t0 rest IH]; intros c n Hn Hs Hfits.
  - exists c. cbn [appendWords]. cbn [budget] in Hs. rewrite Z.add_0_r in Hs.
    split; [reflexivity|]. split; [apply sameSetting_refl|]. split; [exact Hs|].
    split; [lia|]. split; [auto|]. split; [lia|]. split; [lia|].
    intros pre t post Heq. destruct pre; discriminate.
  - apply Forall_cons in Hfits as [[Hfit0 Hnl0] Hfits].
    cbn [budget] in Hs. pose proof (budget_nonneg rest) as Hb.
    destruct (appendWord_short c (runes t0) (n + budget rest))
      as (c1 & x0 & Hok1 & Hset1 & Hs1 & Hrow1 & Hx0 & Hx0' & Hput1 & Hkeep1 & Hgrow1 & Hf1 & Hf1');
      [lia | replace (n + budget rest + GoInt.len (runes t0) + 2)
               with (n + (GoInt.len (runes t0) + 2 + budget rest)) by lia; exact Hs
       | exact Hfit0 | exact Hnl0 |].
    pose proof Hset1 as (Hw1 & Hlm1 & Hfg1 & Hbg1).
    assert (Hfits1 : Forall (fits c1) rest).
    { eapply Forall_impl; [exact Hfits|]. intros t. unfold fits. rewrite Hw1, Hlm1. auto. }
    destruct (IH c1 n Hn Hs1 Hfits1)
      as (c' & Hok & Hset & Hsane & Hrow & Hkeep & Hgrow & Hf & Hall).
    assert (Hlenpos : 0 <= GoInt.len (runes t0)) by apply len_nonneg.
    exists c'. cbn [appendWords]. rewrite Hok1, bind_Ok.
    split; [exact Hok|]. split; [eapply sameSetting_trans; eauto|]. split; [exact Hsane|].
    split; [lia|].
    split; [|split; [lia|split; [lia|]]].
    + intros j Hj Hjl. rewrite Hkeep; [apply Hkeep1; assumption|lia|lia].
    + intros pre t post Heq. destruct pre as [|t1 pre].
      * cbn [app] in Heq. injection Heq as <- <-.
        exists x0. exists (row c1). split; [lia|].
        split; [exact Hx0|]. split; [exact Hx0'|].
        intros k r Hk. specialize (Hput1 k r Hk).
        rewrite <- Hput1. apply Hkeep.
        -- assert (Hklt : (k < length (runes t0))%nat) by (eapply lookup_lt_Some; eauto).
           unfold GoInt.len in Hf1'.
           destruct Hs as ((Hl & _) & Hr & Hw & _).
           assert (0 <= row c1 * width c) by (apply Z.mul_nonneg_nonneg; lia).
           lia.
        -- eapply lookup_lt_Some. exact Hput1.
      * cbn [app] in Heq. injection Heq as _ Heq.
        destruct (Hall pre t post Heq) as (x & y & Hy & Hx & Hx' & Hput).
        rewrite Hw1, Hlm1, Hfg1, Hbg1 in *.
        exists x. exists y. split; [lia|]. split; [exact Hx|]. split; [exact Hx'|exact Hput].
Qed.

(** C3 (as amended).  The tokens of [str] are the words between its spaces
    ([scan_refines]).  Let a document have room for them, and
    let every token have no more runes than there are columns between the
    left margin and the width (80 columns in the documents of [parseText],
    whose margin is 0) and no newline rune.  Then [appendText] returns a
    document in which every token stands whole in one row: its runes are in
    consecutive columns of a row [y], from a column [x] at or right of the
    margin, and the last of them is left of the width. *)
Theorem short_tokens_are_not_split (c : cellbuf) (str : string) :
  roomFor c (budget (bufio.scan str)) ->
  Forall (fits c) (bufio.scan str) ->
  exists c',
    cellbuf_appendText c str = Ok c' /\
    forall pre t post, bufio.scan str = pre ++ t :: post ->
      exists x y, row c <= y <= row c' /\ wholeInRow c c' t x y.
Proof.
  intros Hroom Hfits.
  pose proof (budget_nonneg (bufio.scan str)) as Hb.
  destruct (roomFor_sane _ _ Hb Hroom) as (Hs & Hset0 & Hrow0 & _).
  pose proof Hset0 as (Hw & Hlm & Hfg & Hbg).
  destruct (appendWords_short (bufio.scan str) (snapToMargin c) 0)
    as (c' & Hok & _ & _ & Hrow & _ & _ & _ & Hall); [lia | exact Hs | |].
  { eapply Forall_impl; [exact Hfits|]. intros t. unfold fits. rewrite Hw, Hlm. auto. }
  exists c'. split; [exact Hok|].
  intros pre t post Heq.
  destruct (Hall pre t post Heq) as (x & y & Hy & Hwhole).
  exists x. exists y. split; [lia|].
  unfold wholeInRow in *. rewrite Hw, Hlm, Hfg, Hbg in Hwhole. exact Hwhole.
Qed.

Lemma two_short_tokens :
  exists c',
    cellbuf_appendText emptyDoc "Hello world" = Ok c' /\
    forall pre t post, bufio.scan "Hello world" = pre ++ t :: post ->
      exists x y, row emptyDoc <= y <= row c' /\ wholeInRow emptyDoc c' t x y.
Proof.
  apply (short_tokens_are_not_split emptyDoc "Hello world").
  - assert (Hb : budget (bufio.scan "Hello world") = 14) by (vm_compute; reflexivity).
    rewrite Hb. unfold roomFor, GoInt.maxInt. cbn. lia.
  - assert (Hscan : bufio.scan "Hello world" = ["Hello"%string; "world"%string])
      by (vm_compute; reflexivity).
    rewrite Hscan.
    repeat constructor; try (vm_compute; discriminate);
      apply noNewline_check; vm_compute; reflexivity.
Defined.

(** C3 as stated fails for a token with a newline rune in it, however
    short: the runes before and after the newline go to different rows, so
    no row holds the token whole. *)
Lemma token_with_newline_is_split :
  bufio.scan twoLineToken = [twoLineToken] /\
  GoInt.len (runes twoLineToken) <= width emptyDoc /\
  exists c',
    cellbuf_appendText emptyDoc twoLineToken = Ok c' /\
    cells c' !! Z.to_nat (0 * width emptyDoc + 0) = Some (termbox.mkCell 97 0 0) /\
    cells c' !! Z.to_nat (1 * width emptyDoc + 0) = Some (termbox.mkCell 98 0 0) /\
    ~ exists x y, wholeInRow emptyDoc c' twoLineToken x y.
Proof.
  split; [vm_compute; reflexivity|].
  split; [vm_compute; discriminate|].
  destruct (cellbuf_appendText emptyDoc twoLineToken) as [c'|e] eqn:H;
    vm_compute in H; [|discriminate].
  exists c'. split; [reflexivity|]. injection H as <-.
  split; [vm_compute; reflexivity|]. split; [vm_compute; reflexivity|].
  intros (x & y & _ & _ & Hput).
  specialize (Hput 1%nat 10 eq_refl).
  apply list_elem_of_lookup_2, list_elem_of_In in Hput.
  match type of Hput with
  | In _ ?cs =>
      assert (Hall : forallb (fun cell => negb (termbox.Ch cell =? newline)) cs = true)
        by (vm_compute; reflexivity)
  end.
  rewrite forallb_forall in Hall. specialize (Hall _ Hput). discriminate.
Qed.

(** ** The table stack and the routing of text *)

(** The top of a stack kept as a slice: its last element. *)
Lemma top_of_stack {A} (s : list A) (x : A) :
  (0 <? length (s ++ [x]))%nat = true /\
  (length (s ++ [x]) - 1)%nat = length s /\
  (s ++ [x]) !! length s = Some x.
Proof.
  rewrite length_app. cbn [length].
  split; [apply Nat.ltb_lt; lia|]. split; [lia|].
  apply list_lookup_middle. reflexivity.
Qed.

Lemma getTableCell_focused p ts table cellsOfRow s :
  tableStack p = ts ++ [table ++ [cellsOfRow ++ [s]]] ->
  getTableCell p = Some (length ts, length table, length cellsOfRow).
Proof.
  intros Hts. unfold getTableCell. rewrite Hts.
  destruct (top_of_stack ts (table ++ [cellsOfRow ++ [s]])) as (-> & -> & ->).
  cbn [from_option id].
  destruct (top_of_stack table (cellsOfRow ++ [s])) as (-> & -> & ->).
  cbn [from_option id].
  destruct (top_of_stack cellsOfRow s) as (-> & -> & _).
  reflexivity.
Qed.

Lemma getTableCell_unfocused p : unfocused (tableStack p) -> getTableCell p = None.
Proof.
  unfold getTableCell. intros [Hts|[(ts & Hts)|(ts & table & Hts)]]; rewrite Hts.
  - reflexivity.
  - destruct (top_of_stack ts []) as (-> & -> & ->). reflexivity.
  - destruct (top_of_stack ts (table ++ [[]])) as (-> & -> & ->). cbn [from_option id].
    destruct (top_of_stack table []) as (-> & -> & ->). reflexivity.
Qed.

(** The two cases are all there is: a table stack either focuses a cell or
    is [unfocused]. *)
Lemma focused_or_unfocused (ts : list (list (list string))) :
  unfocused ts \/
  exists ts' table cellsOfRow s, ts = ts' ++ [table ++ [cellsOfRow ++ [s]]].
Proof.
  destruct ts as [|t0 ts0] using rev_ind; [left; left; reflexivity|].
  clear IHts0.
  destruct t0 as [|r0 rows] using rev_ind; [left; right; left; eauto|].
  clear IHrows.
  destruct r0 as [|s0 cs] using rev_ind; [left; right; right; eauto|].
  right. eauto.
Qed.

Lemma alter_top {A} (f : A -> A) (s : list A) (x : A) :
  alter f (length s) (s ++ [x]) = s ++ [f x].
Proof.
  replace (length s) with (length s + 0)%nat at 1 by lia.
  rewrite alter_app_r. reflexivity.
Qed.

Lemma addToCell_focused ts table cellsOfRow s s' :
  addToCell (ts ++ [table ++ [cellsOfRow ++ [s]]])
    (length ts, length table, length cellsOfRow) s' =
  ts ++ [table ++ [cellsOfRow ++ [String.append s s']]].
Proof.
  unfold addToCell. cbn [fst snd]. rewrite !alter_top. reflexivity.
Qed.

Section TextRouting.

Variable pk : Packages.

Lemma parser_appendText_focused p str raw ts table cellsOfRow s :
  tableStack p = ts ++ [table ++ [cellsOfRow ++ [s]]] ->
  parser_appendText pk p str raw =
    Ok (setTableStack p
          (ts ++ [table ++ [cellsOfRow ++ [String.append s (strings_TrimSpace pk str)]]])).
Proof.
  intros Hts. unfold parser_appendText.
  rewrite (getTableCell_focused _ _ _ _ _ Hts), Hts, addToCell_focused. reflexivity.
Qed.

Lemma parser_appendText_unfocused p str raw :
  unfocused (tableStack p) ->
  parser_appendText pk p str raw =
    if raw then d ← appendRaw (doc p) str; Ok (setDoc p d)
    else d ← cellbuf_appendText (doc p) str; Ok (setDoc p d).
Proof.
  intros Hun. unfold parser_appendText. rewrite (getTableCell_unfocused _ Hun). reflexivity.
Qed.

(** C2.  A text token under a style tag leaves the parser as it is.
    Otherwise the foreground is recomputed from the whole tag stack, and
    then: with a focused cell (the last cell of the last row of the last
    table), the trimmed text is concatenated onto that cell and the cells
    and the cursor of the grid stay as they are; with none, the text is
    appended to the document with word wrap. *)
Theorem handleText_routes_the_text (p : parser) (token : html.Token) :
  (last (tagStack p) = Some atom.Style -> handleText pk p token = Ok p) /\
  (last (tagStack p) <> Some atom.Style ->
     (forall ts table cellsOfRow s,
        tableStack p = ts ++ [table ++ [cellsOfRow ++ [s]]] ->
        handleText pk p token =
          Ok (mkParser (tagStack p)
                (ts ++ [table ++ [cellsOfRow ++
                   [String.append s (strings_TrimSpace pk (html.Data token))]]])
                (style (doc p) (tagStack p)) (items p)) /\
        cells (style (doc p) (tagStack p)) = cells (doc p) /\
        col (style (doc p) (tagStack p)) = col (doc p) /\
        row (style (doc p) (tagStack p)) = row (doc p)) /\
     (unfocused (tableStack p) ->
        handleText pk p token =
          d ← cellbuf_appendText (style (doc p) (tagStack p)) (html.Data token);
          Ok (mkParser (tagStack p) (tableStack p) d (items p)))).
Proof.
  assert (Htop : ((0 <? length (tagStack p))%nat &&
                  match tagStack p !! (length (tagStack p) - 1)%nat with
                  | Some atom.Style => true
                  | _ => false
                  end) = true <-> last (tagStack p) = Some atom.Style).
  { rewrite last_lookup. replace (Init.Nat.pred (length (tagStack p)))
      with (length (tagStack p) - 1)%nat by lia.
    destruct (tagStack p) as [|a l] eqn:Hstack; [cbn; split; discriminate|].
    rewrite <- Hstack. assert (Hlen : (0 <? length (tagStack p))%nat = true)
      by (rewrite Hstack; reflexivity).
    rewrite Hlen. cbn [andb].
    destruct (tagStack p !! (length (tagStack p) - 1)%nat) as [[]|];
      split; congruence. }
  split.
  - intros Hstyle. unfold handleText. apply Htop in Hstyle. rewrite Hstyle. reflexivity.
  - intros Hno. unfold handleText.
    destruct (_ && _); [exfalso; apply Hno, Htop; reflexivity|].
    split.
    + intros ts table cellsOfRow s Hts. split; [|repeat split].
      erewrite parser_appendText_focused by (cbn [tableStack setDoc]; exact Hts).
      reflexivity.
    + intros Hun. rewrite parser_appendText_unfocused by exact Hun. reflexivity.
Qed.

End TextRouting.

Lemma handleText_examples :
  handleText examplePackages (mkParser [atom.P; atom.Style] [] emptyDoc [])
      (textToken "p { }") = Ok (mkParser [atom.P; atom.Style] [] emptyDoc []) /\
  handleText examplePackages
      (mkParser [atom.Table; atom.Tr; atom.Td] [[["a"%string]]] emptyDoc [])
      (textToken " b ") =
    Ok (mkParser [atom.Table; atom.Tr; atom.Td]
          ([] ++ [[] ++ [[] ++
             [String.append "a" (strings_TrimSpace examplePackages " b ")]]])
          (style emptyDoc [atom.Table; atom.Tr; atom.Td]) []) /\
  handleText examplePackages (mkParser [atom.P] [] emptyDoc []) (textToken "Hello") =
    (d ← cellbuf_appendText (style emptyDoc [atom.P]) "Hello";
     Ok (mkParser [atom.P] [] d [])).
Proof.
  split; [|split].
  - apply (proj1 (handleText_routes_the_text examplePackages
                    (mkParser [atom.P; atom.Style] [] emptyDoc []) (textToken "p { }"))).
    reflexivity.
  - apply (proj1 (proj2 (handleText_routes_the_text examplePackages
                           (mkParser [atom.Table; atom.Tr; atom.Td] [[["a"%string]]] emptyDoc [])
                           (textToken " b ")) ltac:(discriminate)) [] [] [] "a"%string).
    reflexivity.
  - apply (proj2 (proj2 (handleText_routes_the_text examplePackages
                           (mkParser [atom.P] [] emptyDoc []) (textToken "Hello"))
                    ltac:(discriminate))).
    left. reflexivity.
Defined.

(** ** The parse loop and the tokenizer's error *)

Section ParseLoop.

Variable pk : Packages.

Lemma parse_dispatches tokens err : forall p,
  noErrorToken tokens ->
  parse pk tokens err p = (p' ← dispatchAll pk p tokens; Ok (p', returned err)).
Proof.
  induction tokens as [|token rest IH]; intros p Hno.
  - reflexivity.
  - apply Forall_cons in Hno as [Hty Hno].
    cbn [parse dispatchAll].
    assert (Hstep : parse pk (token :: rest) err p =
                    (p' ← dispatch pk p token; parse pk rest err p')).
    { cbn [parse]. destruct (html.Type_ token); try reflexivity. contradiction. }
    cbn [parse] in Hstep. rewrite Hstep.
    destruct (dispatch pk p token) as [p'|e]; [|reflexivity].
    rewrite !bind_Ok. apply IH, Hno.
Qed.

(** C1.  Let the tokenizer deliver the tokens of a list, none of them an
    error token, and then report the error [err].  If no token makes the
    parser panic, [parse] returns with the parser the tokens have built:
    with a nil error when [err] is [io.EOF], with [err] itself otherwise.
    In both cases [parseText] returns the document built so far beside what
    [parse] returned.  (A token that makes the parser panic ends the
    program before the loop reaches the error.) *)
Theorem parse_returns_at_the_tokenizers_error
    (tokens : list html.Token) (err : io.error) (p : parser) (its : list epub.Item) :
  noErrorToken tokens ->
  parse pk tokens err p = (p' ← dispatchAll pk p tokens; Ok (p', returned err)) /\
  parseText pk tokens err its =
    (p' ← dispatchAll pk (mkParser [] [] emptyDoc its) tokens; Ok (doc p', returned err)) /\
  returned io.EOF = None /\
  (forall msg, returned (io.Failure msg) = Some (io.Failure msg)) /\
  (forall p' msg, dispatchAll pk (mkParser [] [] emptyDoc its) tokens = Ok p' ->
     parseText pk tokens io.EOF its = Ok (doc p', None) /\
     parseText pk tokens (io.Failure msg) its = Ok (doc p', Some (io.Failure msg))).
Proof.
  intros Hno.
  assert (Htext : forall e, parseText pk tokens e its =
            (p' ← dispatchAll pk (mkParser [] [] emptyDoc its) tokens; Ok (doc p', returned e))).
  { intros e. unfold parseText. rewrite (parse_dispatches tokens e _ Hno).
    fold emptyDoc.
    destruct (dispatchAll pk (mkParser [] [] emptyDoc its) tokens) as [p'|e']; [|reflexivity].
    rewrite !bind_Ok. destruct (returned e); reflexivity. }
  split; [apply parse_dispatches, Hno|].
  split; [apply Htext|].
  split; [reflexivity|]. split; [reflexivity|].
  intros p' msg Hp'. rewrite !Htext, Hp'. split; reflexivity.
Qed.

End ParseLoop.

Lemma parse_of_hello_world :
  parse examplePackages helloWorld (io.Failure "unexpected EOF")
      (mkParser [] [] emptyDoc []) =
    (p' ← dispatchAll examplePackages (mkParser [] [] emptyDoc []) helloWorld;
     Ok (p', returned (io.Failure "unexpected EOF"))) /\
  parseText examplePackages helloWorld (io.Failure "unexpected EOF") [] =
    (p' ← dispatchAll examplePackages (mkParser [] [] emptyDoc []) helloWorld;
     Ok (doc p', returned (io.Failure "unexpected EOF"))) /\
  returned io.EOF = None /\
  (forall msg, returned (io.Failure msg) = Some (io.Failure msg)) /\
  (forall p' msg,
     dispatchAll examplePackages (mkParser [] [] emptyDoc []) helloWorld = Ok p' ->
     parseText examplePackages helloWorld io.EOF [] = Ok (doc p', None) /\
     parseText examplePackages helloWorld (io.Failure msg) [] =
       Ok (doc p', Some (io.Failure msg))).
Proof.
  apply (parse_returns_at_the_tokenizers_error examplePackages helloWorld
           (io.Failure "unexpected EOF") (mkParser [] [] emptyDoc []) []).
  unfold noErrorToken, helloWorld. repeat constructor; discriminate.
Defined.

(** ** The scenario of a paragraph with a bold word *)

(** C8.  Parsing the tokens of [<p>Hello <b>world</b></p>] returns without
    an error an 80-wide document with margin 0 whose array begins with row 0:
    two empty cells (the indent of the paragraph), the five letters of
    Hello with the default foreground, one empty cell, the five letters of
    world with the bold attribute; every other cell is empty.  The bold bit
    is set in each cell of world and in no cell of Hello. *)
Theorem hello_world_scenario (pk : Packages) :
  exists d,
    parseText pk helloWorld io.EOF [] = Ok (d, None) /\
    width d = 80 /\ lmargin d = 0 /\
    cells d =
      [zeroCell; zeroCell] ++ plainCells "Hello" termbox.ColorDefault ++
      [zeroCell] ++ plainCells "world" termbox.AttrBold ++
      replicate 1011 zeroCell /\
    forallb boldBit (plainCells "world" termbox.AttrBold) = true /\
    forallb (fun cell => negb (boldBit cell)) (plainCells "Hello" termbox.ColorDefault) = true /\
    take 5 (drop 2 (cells d)) = plainCells "Hello" termbox.ColorDefault /\
    take 5 (drop 8 (cells d)) = plainCells "world" termbox.AttrBold.
Proof.
  destruct (parseText pk helloWorld io.EOF []) as [[d e]|e] eqn:H;
    vm_compute in H; [|discriminate].
  injection H as <- <-. eexists. split; [reflexivity|].
  repeat split; vm_compute; reflexivity.
Qed.

(** ** The end of a table *)

Lemma sub_len_1 {A} (s : list A) :
  GoInt.len s <= GoInt.maxInt -> GoInt.sub (GoInt.len s) 1 = GoInt.len s - 1.
Proof.
  intros H. apply sub_exact. pose proof (len_nonneg s).
  unfold GoInt.inRange, GoInt.minInt, GoInt.maxInt in *. lia.
Qed.

Lemma len_snoc {A} (s : list A) (x : A) : GoInt.len (s ++ [x]) - 1 = GoInt.len s.
Proof. rewrite len_app. unfold GoInt.len. cbn [length]. lia. Qed.

Lemma index_top {A} (s : list A) (x : A) : index (s ++ [x]) (GoInt.len s) = Ok x.
Proof.
  apply index_Ok; [apply len_nonneg|].
  unfold GoInt.len. rewrite Nat2Z.id. apply list_lookup_middle. reflexivity.
Qed.

Lemma sliceTo_top {A} (s : list A) (x : A) : sliceTo (s ++ [x]) (GoInt.len s) = Ok s.
Proof.
  rewrite sliceTo_Ok.
  - unfold GoInt.len. rewrite Nat2Z.id, take_app_length. reflexivity.
  - rewrite len_app. pose proof (len_nonneg s). pose proof (len_nonneg [x]). lia.
Qed.

Section TableEnd.

Variable pk : Packages.

(** At a table end with a table on the stack, [handleEndTag] pops the table
    and sends a newline and the rendered block through [appendText]. *)
Lemma handleEndTag_pops p token ts table :
  html.DataAtom token = atom.Table ->
  tableStack p = ts ++ [table] ->
  GoInt.len (tableStack p) <= GoInt.maxInt ->
  handleEndTag pk p token =
    p1 ← parser_appendText pk (setTableStack p ts) nl true;
    parser_appendText pk p1 (tablewriter_Render pk table true true) true.
Proof.
  intros Hatom Hts Hlen. unfold handleEndTag. rewrite Hatom.
  rewrite (sub_len_1 _ Hlen), Hts, len_snoc, index_top, bind_Ok, sliceTo_top, bind_Ok.
  reflexivity.
Qed.

(** C7 (as amended).  At a table-end token with a table on the stack, the
    top table is popped and its rows go to the tablewriter with the border
    and the row lines on.  When the stack left focuses no cell (as for a
    table that is not nested), a newline and then the rendered block are
    appended to the document as raw text.  When the popped table stood
    inside a cell of an enclosing table, nothing is appended to the
    document: the trimmed newline and the trimmed block are concatenated
    onto that cell. *)
Theorem table_end_renders_the_top_table
    (p : parser) (token : html.Token) (ts : list (list (list string)))
    (table : list (list string)) :
  html.DataAtom token = atom.Table ->
  tableStack p = ts ++ [table] ->
  GoInt.len (tableStack p) <= GoInt.maxInt ->
  (unfocused ts ->
     handleEndTag pk p token =
       d1 ← appendRaw (doc p) nl;
       d2 ← appendRaw d1 (tablewriter_Render pk table true true);
       Ok (mkParser (tagStack p) ts d2 (items p))) /\
  (forall ts' outer cellsOfRow s,
     ts = ts' ++ [outer ++ [cellsOfRow ++ [s]]] ->
     handleEndTag pk p token =
       Ok (mkParser (tagStack p)
             (ts' ++ [outer ++ [cellsOfRow ++
                [String.append (String.append s (strings_TrimSpace pk nl))
                   (strings_TrimSpace pk (tablewriter_Render pk table true true))]]])
             (doc p) (items p))).
Proof.
  intros Hatom Hts Hlen. rewrite (handleEndTag_pops p token ts table Hatom Hts Hlen).
  split.
  - intros Hun.
    rewrite parser_appendText_unfocused by exact Hun. cbn [doc setTableStack].
    destruct (appendRaw (doc p) nl) as [d1|e]; [|reflexivity]. rewrite !bind_Ok.
    rewrite parser_appendText_unfocused by exact Hun. cbn [doc setDoc].
    destruct (appendRaw d1 _) as [d2|e]; reflexivity.
  - intros ts' outer cellsOfRow s Hfocus.
    erewrite parser_appendText_focused by (cbn [tableStack setTableStack]; exact Hfocus).
    rewrite bind_Ok.
    erewrite parser_appendText_focused by (cbn [tableStack setTableStack]; reflexivity).
    reflexivity.
Qed.

End TableEnd.

Lemma table_end_of_a_single_table :
  (unfocused [] ->
     handleEndTag examplePackages
         (mkParser [atom.Table] [[["a"%string]]] emptyDoc []) (endTag atom.Table) =
       d1 ← appendRaw (doc (mkParser [atom.Table] [[["a"%string]]] emptyDoc [])) nl;
       d2 ← appendRaw d1 (tablewriter_Render examplePackages [["a"%string]] true true);
       Ok (mkParser (tagStack (mkParser [atom.Table] [[["a"%string]]] emptyDoc []))
             [] d2 (items (mkParser [atom.Table] [[["a"%string]]] emptyDoc [])))) /\
  (forall ts' outer cellsOfRow s,
     [] = ts' ++ [outer ++ [cellsOfRow ++ [s]]] ->
     handleEndTag examplePackages
         (mkParser [atom.Table] [[["a"%string]]] emptyDoc []) (endTag atom.Table) =
       Ok (mkParser (tagStack (mkParser [atom.Table] [[["a"%string]]] emptyDoc []))
             (ts' ++ [outer ++ [cellsOfRow ++
                [String.append (String.append s (strings_TrimSpace examplePackages nl))
                   (strings_TrimSpace examplePackages
                      (tablewriter_Render examplePackages [["a"%string]] true true))]]])
             (doc (mkParser [atom.Table] [[["a"%string]]] emptyDoc []))
             (items (mkParser [atom.Table] [[["a"%string]]] emptyDoc [])))).
Proof.
  apply (table_end_renders_the_top_table examplePackages
           (mkParser [atom.Table] [[["a"%string]]] emptyDoc []) (endTag atom.Table)
           [] [["a"%string]]).
  - reflexivity.
  - reflexivity.
  - unfold GoInt.maxInt, GoInt.len. cbn. lia.
Defined.

(** C7 as stated fails for a table that ends inside a cell of an enclosing
    table: whatever the packages do, the document is returned as it was and
    the block goes, trimmed, into the cell. *)
Lemma table_end_inside_a_cell :
  tableStack nestedTables = [[["x"%string]]] ++ [[["a"%string]]] /\
  forall pk,
    handleEndTag pk nestedTables (endTag atom.Table) =
      Ok (mkParser (tagStack nestedTables)
            [[[String.append (String.append "x" (strings_TrimSpace pk nl))
                 (strings_TrimSpace pk (tablewriter_Render pk [["a"%string]] true true))]]]
            (doc nestedTables) (items nestedTables)).
Proof.
  split; [reflexivity|]. intros pk.
  rewrite (handleEndTag_pops pk nestedTables (endTag atom.Table)
             [[["x"%string]]] [["a"%string]]);
    [| reflexivity | reflexivity | unfold GoInt.maxInt, GoInt.len; cbn; lia].
  rewrite (parser_appendText_focused pk _ nl true [] [] [] "x"%string) by reflexivity.
  rewrite bind_Ok.
  rewrite (parser_appendText_focused pk _ _ true [] [] []
             (String.append "x" (strings_TrimSpace pk nl))) by reflexivity.
  reflexivity.
Qed.

(** ** Images that do not open or decode *)

Section ImageFailures.

Variable pk : Packages.

Lemma imageToText_of_failure item : imageFails pk item -> imageToText pk item = Ok EmptyString.
Proof.
  unfold imageToText. intros [Hopen|(r & Hopen & Hdec)]; rewrite Hopen; [reflexivity|].
  rewrite Hdec. reflexivity.
Qed.

(** An image that decodes is another matter: with bounds of no width the
    height divides by zero. *)
Lemma imageToText_of_no_width item r img :
  Item_Open pk item = Some r -> image_Decode pk r = Some img -> image.MaxX img = 0 ->
  imageToText pk item = Panic IntegerDivideByZero.
Proof.
  unfold imageToText. intros -> -> ->. reflexivity.
Qed.

Lemma appendRaw_empty c : appendRaw c EmptyString = Ok (snapToMargin c).
Proof. reflexivity. Qed.

(** C9.  When the item of an image does not open, or opens and does not
    decode, [imageToText] returns the empty string.  The source attribute of
    an image tag is skipped inside the cell of a table; outside, when it
    resolves to such an item, it writes no cell (the cursor is at most moved
    to the margin), and the parse goes on with the tokens that follow: the
    failure is no error of the render. *)
Theorem image_failure_renders_nothing
    (item : epub.Item) (p : parser) (val : string)
    (rest : list html.Token) (err : io.error) :
  imageFails pk item ->
  imageToText pk item = Ok EmptyString /\
  (forall cell, getTableCell p = Some cell ->
     handleImgAttr pk p (html.mkAttribute "src" val) = Ok p) /\
  (getTableCell p = None -> findItem (items p) val = Some item ->
     handleImgAttr pk p (html.mkAttribute "src" val) =
       Ok (setDoc p (snapToMargin (doc p))) /\
     cells (snapToMargin (doc p)) = cells (doc p) /\
     row (snapToMargin (doc p)) = row (doc p) /\
     parse pk (imgToken html.SelfClosingTagToken val :: rest) err p =
       parse pk rest err (setDoc p (snapToMargin (doc p))) /\
     parse pk (imgToken html.StartTagToken val :: rest) err p =
       parse pk rest err
         (setDoc (setTagStack p (tagStack p ++ [atom.Img])) (snapToMargin (doc p)))).
Proof.
  intros Hfail. pose proof (imageToText_of_failure item Hfail) as Htext.
  split; [exact Htext|].
  split.
  { intros cell Hcell. unfold handleImgAttr. cbn [html.Key html.Val].
    change (atom.Lookup "src") with atom.Src. cbn iota. rewrite Hcell. reflexivity. }
  intros Hcell Hitem.
  assert (Hattr : forall q, getTableCell q = None -> items q = items p -> doc q = doc p ->
            handleImgAttr pk q (html.mkAttribute "src" val) =
              Ok (setDoc q (snapToMargin (doc p)))).
  { intros q Hq Hitems Hdoc. unfold handleImgAttr. cbn [html.Key html.Val atom.Lookup String.eqb].
    change (atom.Lookup "src") with atom.Src. cbn iota.
    rewrite Hq, Hitems, Hitem, Htext, bind_Ok.
    unfold parser_appendText. rewrite Hq, appendRaw_empty, bind_Ok, Hdoc. reflexivity. }
  split; [apply Hattr; auto|].
  split; [unfold snapToMargin; destruct (_ <? _); reflexivity|].
  split; [unfold snapToMargin; destruct (_ <? _); reflexivity|].
  split.
  - unfold imgToken. cbn [parse html.Type_]. unfold dispatch. cbn [html.Type_].
    unfold handleStartTag. cbn [html.DataAtom html.Attr handleImgAttrs].
    rewrite Hattr by auto. rewrite !bind_Ok. reflexivity.
  - unfold imgToken. cbn [parse html.Type_]. unfold dispatch. cbn [html.Type_].
    unfold handleStartTag. cbn [html.DataAtom html.Attr handleImgAttrs].
    rewrite Hattr by auto. rewrite !bind_Ok. reflexivity.
Qed.

End ImageFailures.

Lemma image_that_does_not_open :
  imageToText examplePackages (epub.mkItem "cover.png" 0) = Ok EmptyString /\
  (forall cell, getTableCell (mkParser [] [] emptyDoc [epub.mkItem "cover.png" 0]) = Some cell ->
     handleImgAttr examplePackages (mkParser [] [] emptyDoc [epub.mkItem "cover.png" 0])
         (html.mkAttribute "src" "cover.png") =
       Ok (mkParser [] [] emptyDoc [epub.mkItem "cover.png" 0])) /\
  (getTableCell (mkParser [] [] emptyDoc [epub.mkItem "cover.png" 0]) = None ->
   findItem (items (mkParser [] [] emptyDoc [epub.mkItem "cover.png" 0])) "cover.png" =
     Some (epub.mkItem "cover.png" 0) ->
     handleImgAttr examplePackages (mkParser [] [] emptyDoc [epub.mkItem "cover.png" 0])
         (html.mkAttribute "src" "cover.png") =
       Ok (setDoc (mkParser [] [] emptyDoc [epub.mkItem "cover.png" 0])
             (snapToMargin (doc (mkParser [] [] emptyDoc [epub.mkItem "cover.png" 0])))) /\
     cells (snapToMargin (doc (mkParser [] [] emptyDoc [epub.mkItem "cover.png" 0]))) =
       cells (doc (mkParser [] [] emptyDoc [epub.mkItem "cover.png" 0])) /\
     row (snapToMargin (doc (mkParser [] [] emptyDoc [epub.mkItem "cover.png" 0]))) =
       row (doc (mkParser [] [] emptyDoc [epub.mkItem "cover.png" 0])) /\
     parse examplePackages
         (imgToken html.SelfClosingTagToken "cover.png" :: [textToken "after"]) io.EOF
         (mkParser [] [] emptyDoc [epub.mkItem "cover.png" 0]) =
       parse examplePackages [textToken "after"] io.EOF
         (setDoc (mkParser [] [] emptyDoc [epub.mkItem "cover.png" 0])
            (snapToMargin (doc (mkParser [] [] emptyDoc [epub.mkItem "cover.png" 0])))) /\
     parse examplePackages
         (imgToken html.StartTagToken "cover.png" :: [textToken "after"]) io.EOF
         (mkParser [] [] emptyDoc [epub.mkItem "cover.png" 0]) =
       parse examplePackages [textToken "after"] io.EOF
         (setDoc (setTagStack (mkParser [] [] emptyDoc [epub.mkItem "cover.png" 0])
                    (tagStack (mkParser [] [] emptyDoc [epub.mkItem "cover.png" 0]) ++ [atom.Img]))
            (snapToMargin (doc (mkParser [] [] emptyDoc [epub.mkItem "cover.png" 0]))))).
Proof.
  apply (image_failure_renders_nothing examplePackages (epub.mkItem "cover.png" 0)
           (mkParser [] [] emptyDoc [epub.mkItem "cover.png" 0]) "cover.png"
           [textToken "after"] io.EOF).
  left. reflexivity.
Defined.

(** ** Tokens without their expected ancestor *)

Section Orphans.

Variable pk : Packages.

Lemma dispatch_start token p :
  startsATag token ->
  exists tags, dispatch pk p token = handleStartTag pk (setTagStack p tags) token.
Proof.
  unfold dispatch. intros [->| ->].
  - eexists. reflexivity.
  - exists (tagStack p). destruct p. reflexivity.
Qed.

Lemma parse_aborts token rest err p e :
  dispatch pk p token = Panic e -> html.Type_ token <> html.ErrorToken ->
  parse pk (token :: rest) err p = Panic e.
Proof.
  intros Hpanic Hty. cbn [parse].
  destruct (html.Type_ token); try contradiction; rewrite Hpanic; reflexivity.
Qed.

(** C10.  The handlers do not guard the top of their stacks: an end tag
    with the tag stack empty slices it to [:-1]; a row start with the table
    stack empty, and a cell start with no row in the top table, index a
    slice at -1.  Each of these panics, and the panic ends the parse; token
    streams as short as one end tag, one row start, or a table start
    followed by a cell start make [parseText] panic. *)
Theorem orphan_tokens_panic (p : parser) (token : html.Token) :
  (html.Type_ token = html.EndTagToken -> tagStack p = [] ->
   html.DataAtom token <> atom.Table ->
     dispatch pk p token = Panic (SliceBoundsOutOfRange (-1))) /\
  (startsATag token -> html.DataAtom token = atom.Tr -> tableStack p = [] ->
     dispatch pk p token = Panic (IndexOutOfRange (-1) 0)) /\
  (startsATag token -> html.DataAtom token = atom.Td ->
   GoInt.len (tableStack p) <= GoInt.maxInt ->
   (exists ts, tableStack p = ts ++ [[]]) ->
     dispatch pk p token = Panic (IndexOutOfRange (-1) 0)) /\
  (forall e rest err,
     dispatch pk p token = Panic e -> html.Type_ token <> html.ErrorToken ->
     parse pk (token :: rest) err p = Panic e) /\
  (forall its err,
     parseText pk [endTag atom.B] err its = Panic (SliceBoundsOutOfRange (-1)) /\
     parseText pk [startTag atom.Tr] err its = Panic (IndexOutOfRange (-1) 0) /\
     parseText pk [startTag atom.Table; startTag atom.Td] err its =
       Panic (IndexOutOfRange (-1) 0)).
Proof.
  split; [|split; [|split; [|split]]].
  - intros Hty Htags Hatom. unfold dispatch. rewrite Hty.
    assert (Hend : handleEndTag pk p token = Ok p)
      by (unfold handleEndTag; destruct (html.DataAtom token); try reflexivity; contradiction).
    rewrite Hend, bind_Ok, Htags. reflexivity.
  - intros Hstart Hatom Hts.
    destruct (dispatch_start token p Hstart) as [tags ->].
    unfold handleStartTag. rewrite Hatom. cbn [tableStack setTagStack]. rewrite Hts.
    reflexivity.
  - intros Hstart Hatom Hlen [ts Hts].
    destruct (dispatch_start token p Hstart) as [tags ->].
    unfold handleStartTag. rewrite Hatom. cbn [tableStack setTagStack].
    rewrite (sub_len_1 _ Hlen), Hts, len_snoc, index_top, bind_Ok. reflexivity.
  - intros e rest err. apply parse_aborts.
  - intros its err. repeat split; reflexivity.
Qed.

End Orphans.

Lemma orphan_end_tag_on_a_fresh_parser :
  dispatch examplePackages (mkParser [] [] emptyDoc []) (endTag atom.B) =
    Panic (SliceBoundsOutOfRange (-1)) /\
  dispatch examplePackages (mkParser [] [] emptyDoc []) (startTag atom.Tr) =
    Panic (IndexOutOfRange (-1) 0) /\
  dispatch examplePackages (mkParser [atom.Table] [[]] emptyDoc []) (startTag atom.Td) =
    Panic (IndexOutOfRange (-1) 0) /\
  parse examplePackages [endTag atom.B; textToken "lost"] io.EOF
      (mkParser [] [] emptyDoc []) = Panic (SliceBoundsOutOfRange (-1)).
Proof.
  split; [|split; [|split]].
  - apply (proj1 (orphan_tokens_panic examplePackages (mkParser [] [] emptyDoc [])
                    (endTag atom.B))); [reflexivity | reflexivity | discriminate].
  - apply (proj1 (proj2 (orphan_tokens_panic examplePackages (mkParser [] [] emptyDoc [])
                           (startTag atom.Tr)))); [left; reflexivity | reflexivity | reflexivity].
  - apply (proj1 (proj2 (proj2 (orphan_tokens_panic examplePackages
                                  (mkParser [atom.Table] [[]] emptyDoc [])
                                  (startTag atom.Td))))).
    + left. reflexivity.
    + reflexivity.
    + unfold GoInt.maxInt, GoInt.len. cbn. lia.
    + exists []. reflexivity.
  - apply (proj1 (proj2 (proj2 (proj2 (orphan_tokens_panic examplePackages
                                         (mkParser [] [] emptyDoc []) (endTag atom.B)))))).
    + apply (proj1 (orphan_tokens_panic examplePackages (mkParser [] [] emptyDoc [])
                      (endTag atom.B))); [reflexivity | reflexivity | discriminate].
    + discriminate.
Defined.

(** ** The scanner: enough fuel, and the token that is too long *)

Lemma DecodeRune_size a t r w : utf8.DecodeRune (String a t) = (r, w) -> (1 <= w)%nat.
Proof.
  unfold utf8.DecodeRune.
  repeat match goal with
         | |- (if ?b then _ else _) = _ -> _ => destruct b
         end; intros H; injection H as _ <-; lia.
Qed.

Lemma findSpace_found data : forall pos skip i w,
  findSpace pos skip data = Some (i, w) -> (1 <= w)%nat /\ data <> EmptyString.
Proof.
  induction data as [|a t IH]; intros pos skip i w H; cbn [findSpace] in H; [discriminate|].
  split; [|discriminate].
  destruct skip as [|k]; [|apply (IH _ _ _ _ H)].
  destruct (utf8.DecodeRune (String a t)) as [r w'] eqn:Hdec.
  destruct (r =? space).
  - injection H as _ <-. apply (DecodeRune_size _ _ _ _ Hdec).
  - apply (IH _ _ _ _ H).
Qed.

Lemma skipSpaces_bound data : forall pos skip,
  (skipSpaces pos skip data <= pos + String.length data)%nat.
Proof.
  induction data as [|a t IH]; intros pos skip; cbn [skipSpaces String.length]; [lia|].
  destruct skip as [|k]; [|specialize (IH (S pos) k); lia].
  destruct (utf8.DecodeRune (String a t)) as [r w].
  destruct (r =? space); [|lia].
  specialize (IH (S pos) (w - 1)%nat). lia.
Qed.

Lemma length_dropBytes n : forall s,
  String.length (dropBytes n s) = (String.length s - n)%nat.
Proof.
  induction n as [|n IH]; intros s; cbn [dropBytes]; [lia|].
  destruct s as [|a t]; [reflexivity|]. cbn [String.length]. apply IH.
Qed.

Lemma dropBytes_all n : forall s, (String.length s <= n)%nat -> dropBytes n s = EmptyString.
Proof.
  induction n as [|n IH]; intros s Hn; destruct s as [|a t]; cbn [dropBytes]; try reflexivity.
  - cbn in Hn. lia.
  - apply IH. cbn in Hn. lia.
Qed.

(** A token delivered takes at least one byte of the input. *)
Lemma scanWords_advances data advance token :
  scanWords data true = (advance, Some token) ->
  (1 <= advance)%nat /\ (1 <= String.length data)%nat.
Proof.
  unfold scanWords. set (start := skipSpaces 0 0 data).
  pose proof (skipSpaces_bound data 0 0) as Hstart. fold start in Hstart.
  destruct (findSpace start 0 (dropBytes start data)) as [[i w]|] eqn:Hfind.
  - intros H. injection H as <- _.
    destruct (findSpace_found _ _ _ _ _ Hfind) as [Hw Hne].
    split; [lia|].
    destruct (Nat.le_gt_cases (String.length data) start) as [Hle|Hgt]; [|lia].
    rewrite dropBytes_all in Hne by exact Hle. contradiction.
  - cbn [andb]. destruct (Nat.ltb_spec start (String.length data)) as [Hlt|_]; [|discriminate].
    intros Heq. injection Heq as <- _. lia.
Qed.

(** More fuel than the length of the input changes nothing: [bufio.scan]
    delivers every token the scanner does. *)
Lemma scanFrom_fuel fuel : forall fuel' data,
  (String.length data <= fuel)%nat -> (String.length data <= fuel')%nat ->
  bufio.scanFrom fuel data = bufio.scanFrom fuel' data.
Proof.
  induction fuel as [|fuel IH]; intros fuel' data Hf Hf'.
  - destruct data; [|cbn in Hf; lia]. destruct fuel'; reflexivity.
  - destruct fuel' as [|fuel'].
    + destruct data; [reflexivity|cbn in Hf'; lia].
    + cbn [bufio.scanFrom].
      destruct (scanWords data true) as [advance [token|]] eqn:Hscan; [|reflexivity].
      destruct (_ <=? _); [reflexivity|].
      destruct (scanWords_advances _ _ _ Hscan) as [Hadv Hlen].
      f_equal. apply IH; rewrite length_dropBytes; lia.
Qed.

(** *** Decoding never makes a space of other bytes *)

Lemma byte_range a : 0 <= utf8.byte a < 256.
Proof.
  unfold utf8.byte. pose proof (N_ascii_bounded a). lia.
Qed.

Lemma lor_ge_64 a b : 0 <= a -> 0 <= b -> 64 <= a \/ 64 <= b -> 64 <= Z.lor a b.
Proof.
  intros Ha Hb Hor.
  assert (Hlog : 6 <= Z.log2 (Z.lor a b)).
  { rewrite Z.log2_lor by assumption.
    destruct Hor as [H|H]; apply (Z.log2_le_mono 64) in H; change (Z.log2 64) with 6 in H; lia. }
  assert (Hpos : 0 < Z.lor a b).
  { destruct (Z.le_gt_cases (Z.lor a b) 0) as [Hle|]; [|assumption].
    rewrite (Z.log2_nonpos _ Hle) in Hlog. lia. }
  pose proof (proj1 (Z.log2_spec _ Hpos)) as Hspec.
  assert (2 ^ 6 <= 2 ^ Z.log2 (Z.lor a b)) by (apply Z.pow_le_mono_r; lia).
  change (2 ^ 6) with 64 in *. lia.
Qed.

Lemma land_low b n : 0 <= n -> Z.land b (Z.ones n) = b mod 2 ^ n.
Proof. apply Z.land_ones. Qed.

(** The bits a first byte and a continuation byte contribute. *)
Lemma payload_bounds p0 b1 :
  0 <= Z.land p0 31 /\ 0 <= Z.land p0 15 /\ 0 <= Z.land p0 7 /\ 0 <= Z.land b1 63 /\
  (194 <= p0 < 224 -> 2 <= Z.land p0 31) /\
  (225 <= p0 < 240 -> 1 <= Z.land p0 15) /\
  (241 <= p0 < 248 -> 1 <= Z.land p0 7) /\
  (160 <= b1 < 192 -> 32 <= Z.land b1 63) /\
  (144 <= b1 < 192 -> 16 <= Z.land b1 63).
Proof.
  change 31 with (Z.ones 5). change 15 with (Z.ones 4). change 7 with (Z.ones 3).
  change 63 with (Z.ones 6).
  rewrite !Z.land_ones by lia.
  change (2 ^ 5) with 32. change (2 ^ 4) with 16. change (2 ^ 3) with 8. change (2 ^ 6) with 64.
  repeat split; intros; Z.div_mod_to_equations; lia.
Qed.

Lemma shiftl_ge a n k : 0 <= n -> 1 <= a -> 64 <= 2 ^ n * k -> k <= a -> 64 <= Z.shiftl a n.
Proof.
  intros Hn Ha Hk Hka. rewrite Z.shiftl_mul_pow2 by assumption.
  assert (0 < 2 ^ n) by (apply Z.pow_pos_nonneg; lia). nia.
Qed.

Ltac decode_error :=
  let H := fresh "H" in
  intros H; injection H as <- <-;
  split; [split; [unfold space, utf8.RuneError; intros; lia | intros; lia]
         | split; [intros; lia | exact I]].

Ltac decode_consts :=
  repeat match goal with
  | |- context [Z.to_nat (Z.land ?c 7)] =>
      let v := eval vm_compute in (Z.to_nat (Z.land c 7)) in
      change (Z.to_nat (Z.land c 7)) with v
  | |- context [utf8.acceptRanges ?c] =>
      let v := eval vm_compute in (utf8.acceptRanges c) in
      change (utf8.acceptRanges c) with v
  end;
  change utf8.locb with 128; change utf8.hicb with 191.

Ltac decode_range :=
  repeat match goal with
  | H : (_ || _) = false |- _ =>
      apply orb_false_iff in H; destruct H as [?Hlo ?Hhi];
      apply Z.ltb_ge in Hlo; apply Z.ltb_ge in Hhi
  end.

Ltac decode_step :=
  first
    [ progress cbn -[Z.land Z.lor Z.shiftl Z.ltb]
    | match goal with
      | |- context [utf8.hasLen ?t _] => is_var t; destruct t
      | |- context [match ?t with EmptyString => _ | String _ _ => _ end] =>
          is_var t; destruct t
      | |- (if ?c then _ else _) = _ -> _ => destruct c eqn:?; [decode_error|]
      end ].

Ltac nonneg :=
  repeat first
    [ apply Z.lor_nonneg; split
    | apply Z.shiftl_nonneg
    | apply Z.land_nonneg; right; lia ].

Ltac big_shift :=
  rewrite Z.shiftl_mul_pow2 by lia;
  match goal with |- context [2 ^ ?n] => let v := eval vm_compute in (2 ^ n) in change (2 ^ n) with v end;
  lia.

Ltac lor64 :=
  lazymatch goal with
  | |- 64 <= Z.lor _ _ =>
      apply lor_ge_64; [nonneg | nonneg | first [left; lor64 | right; lor64]]
  | |- 64 <= Z.shiftl _ _ => big_shift
  | |- _ => lia
  end.

Lemma DecodeRune_spec a t r w :
  utf8.DecodeRune (String a t) = (r, w) ->
  (r = space <-> utf8.byte a = 32) /\ (utf8.byte a = 32 -> w = 1%nat) /\
  noSpaceAhead (w - 1) t.
Proof.
  pose proof (byte_range a) as Ha.
  unfold utf8.DecodeRune. set (p0 := utf8.byte a) in *.
  unfold utf8.first.
  repeat match goal with
  | |- context [if ?x <? ?y then _ else _] =>
      lazymatch x with p0 => destruct (Z.ltb_spec x y) end
  | |- context [if ?x =? ?y then _ else _] =>
      lazymatch x with p0 => destruct (Z.eqb_spec x y) end
  end.
  all: try lia.
  all: cbn -[Z.land Z.lor Z.shiftl Z.ltb utf8.at_ String.get].
  1: { intros Heq; injection Heq as <- <-. unfold space. repeat split; intros; try lia. }
  1: decode_error.
  all: decode_consts.
  all: repeat decode_step.
  all: decode_range.
  all: try decode_error.
  all: intros Heq; injection Heq as <- <-.
  all: repeat match goal with
       | a' : ascii |- _ =>
           lazymatch goal with
           | _ : context [Z.land (utf8.byte a') 63] |- _ => fail
           | |- context [Z.land (utf8.byte a') 63] =>
               pose proof (payload_bounds p0 (utf8.byte a'))
           end
       end.
  all: split; [split; [intros Hr; exfalso | intros; lia] | split; [intros; lia|]].
  all: try (cbn; repeat split; lia).
  all: match type of Hr with ?e = space => assert (64 <= e) by lor64 end; unfold space in Hr; lia.
Qed.

(** *** The tokens of the scanner are the words between the spaces *)

Lemma findSpace_spec data : forall pos skip,
  noSpaceAhead skip data ->
  findSpace pos skip data = (fun j => ((pos + j)%nat, 1%nat)) <$> indexOfSpace data.
Proof.
  induction data as [|a t IH]; intros pos skip Hskip; [reflexivity|].
  cbn [findSpace indexOfSpace]. destruct skip as [|k].
  - destruct (utf8.DecodeRune (String a t)) as [r w] eqn:Hdec.
    destruct (DecodeRune_spec _ _ _ _ Hdec) as (Hr & Hw & Hahead).
    destruct (Z.eqb_spec r space) as [Hsp|Hsp].
    + apply Hr in Hsp. rewrite (Hw Hsp). apply Z.eqb_eq in Hsp. rewrite Hsp.
      cbn. rewrite Nat.add_0_r. reflexivity.
    + assert (Hne : utf8.byte a <> 32) by (intros Heq; apply Hsp, Hr, Heq).
      apply Z.eqb_neq in Hne. rewrite Hne.
      rewrite (IH _ _ Hahead). destruct (indexOfSpace t); cbn; [|reflexivity].
      do 2 f_equal. lia.
  - cbn [noSpaceAhead] in Hskip. destruct Hskip as [Hne Hahead].
    apply Z.eqb_neq in Hne. rewrite Hne.
    rewrite (IH _ _ Hahead). destruct (indexOfSpace t); cbn; [|reflexivity].
    do 2 f_equal. lia.
Qed.

Lemma skipSpaces_spec data : forall pos,
  skipSpaces pos 0 data = (pos + leadingSpaces data)%nat.
Proof.
  induction data as [|a t IH]; intros pos; cbn [skipSpaces leadingSpaces]; [lia|].
  destruct (utf8.DecodeRune (String a t)) as [r w] eqn:Hdec.
  destruct (DecodeRune_spec _ _ _ _ Hdec) as (Hr & Hw & _).
  destruct (Z.eqb_spec r space) as [Hsp|Hsp].
  - apply Hr in Hsp. rewrite (Hw Hsp). apply Z.eqb_eq in Hsp. rewrite Hsp.
    cbn [Nat.sub]. rewrite IH. lia.
  - assert (Hne : utf8.byte a <> 32) by (intros Heq; apply Hsp, Hr, Heq).
    apply Z.eqb_neq in Hne. rewrite Hne. lia.
Qed.

Lemma dropBytes_add m : forall n s, dropBytes (m + n) s = dropBytes n (dropBytes m s).
Proof.
  induction m as [|m IH]; intros n s; [reflexivity|].
  destruct s as [|a t]; cbn [dropBytes Nat.add].
  - destruct n; reflexivity.
  - apply IH.
Qed.

Lemma substring_dropBytes start : forall j s,
  String.substring start j s = String.substring 0 j (dropBytes start s).
Proof.
  induction start as [|start IH]; intros j s; [reflexivity|].
  destruct s as [|a t]; cbn [String.substring dropBytes].
  - destruct j; reflexivity.
  - apply IH.
Qed.

Lemma word_until_space s : forall j,
  indexOfSpace s = Some j -> String.substring 0 j s = word s.
Proof.
  induction s as [|a t IH]; intros j Hj; [discriminate|].
  cbn [indexOfSpace word] in *. destruct (utf8.byte a =? 32).
  - injection Hj as <-. reflexivity.
  - destruct (indexOfSpace t) as [j'|]; [|discriminate]. injection Hj as <-.
    cbn [String.substring]. rewrite (IH j' eq_refl). reflexivity.
Qed.

Lemma word_without_space s : indexOfSpace s = None -> word s = s.
Proof.
  induction s as [|a t IH]; intros Hj; [reflexivity|].
  cbn [indexOfSpace word] in *. destruct (utf8.byte a =? 32); [discriminate|].
  destruct (indexOfSpace t); [discriminate|]. rewrite IH; reflexivity.
Qed.

Lemma leadingSpaces_bound s : (leadingSpaces s <= String.length s)%nat.
Proof.
  induction s as [|a t IH]; cbn [leadingSpaces String.length]; [lia|].
  destruct (utf8.byte a =? 32); lia.
Qed.

(** After the leading spaces comes the end or a byte that is no space. *)
Lemma after_leadingSpaces s :
  match dropBytes (leadingSpaces s) s with
  | EmptyString => leadingSpaces s = String.length s
  | String a _ => utf8.byte a <> 32 /\ (leadingSpaces s < String.length s)%nat
  end.
Proof.
  induction s as [|a t IH]; cbn [leadingSpaces dropBytes String.length]; [reflexivity|].
  destruct (Z.eqb_spec (utf8.byte a) 32) as [Heq|Hne].
  - cbn [dropBytes]. destruct (dropBytes (leadingSpaces t) t); [lia|].
    destruct IH. split; [assumption|lia].
  - cbn [dropBytes]. split; [assumption|lia].
Qed.

Lemma tokensFrom_leadingSpaces s :
  tokensFrom false s = tokensFrom false (dropBytes (leadingSpaces s) s).
Proof.
  induction s as [|a t IH]; cbn [leadingSpaces]; [reflexivity|].
  destruct (utf8.byte a =? 32) eqn:Ha; cbn [dropBytes]; [|reflexivity].
  cbn [tokensFrom]. rewrite Ha. exact IH.
Qed.

Lemma tokensFrom_inWord s :
  tokensFrom true s =
    match indexOfSpace s with
    | Some j => tokensFrom false (dropBytes (S j) s)
    | None => []
    end.
Proof.
  induction s as [|a t IH]; [reflexivity|].
  cbn [tokensFrom indexOfSpace]. destruct (utf8.byte a =? 32); [reflexivity|].
  rewrite IH. destruct (indexOfSpace t); reflexivity.
Qed.

Lemma scanFrom_empty fuel : bufio.scanFrom fuel EmptyString = [].
Proof. destruct fuel; reflexivity. Qed.

(** What [scanWords] returns at the end of the input, in terms of the
    spaces of the data. *)
Lemma scanWords_spec data :
  scanWords data true =
    let start := leadingSpaces data in
    match indexOfSpace (dropBytes start data) with
    | Some j => ((start + j + 1)%nat, Some (word (dropBytes start data)))
    | None =>
        if (start <? String.length data)%nat
        then (String.length data, Some (dropBytes start data))
        else (start, None)
    end.
Proof.
  unfold scanWords. rewrite skipSpaces_spec. cbn [Nat.add].
  rewrite findSpace_spec by exact I. cbn zeta.
  destruct (indexOfSpace (dropBytes (leadingSpaces data) data)) as [j|] eqn:Hj; cbn.
  - rewrite substring_dropBytes.
    replace (leadingSpaces data + j - leadingSpaces data)%nat with j by lia.
    rewrite (word_until_space _ _ Hj). reflexivity.
  - reflexivity.
Qed.

Lemma scanFrom_refines fuel : forall data,
  (String.length data <= fuel)%nat ->
  bufio.scanFrom fuel data = untilTooLong (spaceSeparated data).
Proof.
  unfold spaceSeparated.
  induction fuel as [|fuel IH]; intros data Hfuel.
  - destruct data; [reflexivity|cbn in Hfuel; lia].
  - cbn [bufio.scanFrom]. rewrite scanWords_spec. cbn zeta.
    rewrite (tokensFrom_leadingSpaces data).
    pose proof (after_leadingSpaces data) as Hafter.
    pose proof (leadingSpaces_bound data) as Hlead.
    destruct (dropBytes (leadingSpaces data) data) as [|a t] eqn:Hrest.
    + cbn [indexOfSpace]. destruct (Nat.ltb_spec (leadingSpaces data) (String.length data));
        [lia|reflexivity].
    + destruct Hafter as [Hne Hlt]. apply Z.eqb_neq in Hne.
      cbn [tokensFrom indexOfSpace word]. rewrite Hne.
      cbn [untilTooLong]. rewrite tokensFrom_inWord.
      destruct (indexOfSpace t) as [j|] eqn:Hj; cbn [fmap option_fmap option_map].
      * destruct (_ <=? _); [reflexivity|]. f_equal.
        replace (leadingSpaces data + S j + 1)%nat with (leadingSpaces data + (S (S j)))%nat by lia.
        rewrite dropBytes_add, Hrest.
        change (dropBytes (S (S j)) (String a t)) with (dropBytes (S j) t).
        apply IH. rewrite length_dropBytes.
        assert (String.length data = (leadingSpaces data + String.length (String a t))%nat).
        { rewrite <- Hrest, length_dropBytes. lia. }
        cbn [String.length] in *. lia.
      * destruct (Nat.ltb_spec (leadingSpaces data) (String.length data)); [|lia].
        rewrite dropBytes_all by lia. rewrite scanFrom_empty.
        rewrite (word_without_space t Hj).
        destruct (_ <=? _); reflexivity.
Qed.

(** [bufio.scan], which walks the data by index as [scanWords] does, delivers
    the words between the spaces, up to the first that is too long. *)
Lemma scan_refines str : bufio.scan str = untilTooLong (spaceSeparated str).
Proof. apply scanFrom_refines. lia. Qed.

(** With no word of 64 KiB or more, the scanner delivers every word. *)
Lemma scan_of_short_words str :
  Forall (fun t => Z.of_nat (String.length t) < bufio.MaxScanTokenSize) (spaceSeparated str) ->
  bufio.scan str = spaceSeparated str.
Proof.
  rewrite scan_refines. induction 1 as [|t rest Ht _ IH]; [reflexivity|].
  cbn [untilTooLong]. destruct (Z.leb_spec bufio.MaxScanTokenSize (Z.of_nat (String.length t)));
    [lia|]. rewrite IH. reflexivity.
Qed.

Lemma words_of_a_text :
  spaceSeparated "  Hello   wide world " = ["Hello"%string; "wide"%string; "world"%string] /\
  bufio.scan "  Hello   wide world " = ["Hello"%string; "wide"%string; "world"%string].
Proof. split; reflexivity. Qed.

(** The scanner stops at a token that fills its buffer: [appendText] writes
    the words before it and drops, without a panic, the token and all the
    text after it. *)
Lemma scan_stops_at_a_token_too_long :
  Z.of_nat (String.length tooLongToken) = bufio.MaxScanTokenSize /\
  bufio.scan (String.append "b " (String.append tooLongToken " c")) = ["b"%string] /\
  cellbuf_appendText emptyDoc (String.append "b " (String.append tooLongToken " c")) =
    cellbuf_appendText emptyDoc "b".
Proof.
  assert (Hscan : bufio.scan (String.append "b " (String.append tooLongToken " c")) =
                  ["b"%string]) by (vm_compute; reflexivity).
  split; [vm_compute; reflexivity|]. split; [exact Hscan|].
  unfold cellbuf_appendText. rewrite Hscan. reflexivity.
Qed.

(* ===================================================================== *)
(** * Further properties of the code *)
(* ===================================================================== *)

(** ** The scanner: tokens, and [scanWords] as a split function *)

Lemma word_no_space s : indexOfSpace (word s) = None.
Proof.
  induction s as [|a t IH]; [reflexivity|]. cbn [word].
  destruct (utf8.byte a =? 32) eqn:Ha; [reflexivity|].
  cbn [indexOfSpace]. rewrite Ha, IH. reflexivity.
Qed.

Lemma tokensFrom_proper s : forall inWord, Forall properToken (tokensFrom inWord s).
Proof.
  induction s as [|a t IH]; intros inWord; cbn [tokensFrom]; [constructor|].
  destruct (utf8.byte a =? 32) eqn:Ha; [apply IH|].
  destruct inWord; [apply IH|]. constructor; [|apply IH].
  split; [cbn [word]; rewrite Ha; discriminate|apply word_no_space].
Qed.

Lemma untilTooLong_Forall (P : string -> Prop) tokens :
  Forall P tokens ->
  Forall (fun t => P t /\ Z.of_nat (String.length t) < bufio.MaxScanTokenSize)
    (untilTooLong tokens).
Proof.
  induction 1 as [|t rest Ht _ IH]; cbn [untilTooLong]; [constructor|].
  destruct (Z.leb_spec bufio.MaxScanTokenSize (Z.of_nat (String.length t)));
    [constructor|]. constructor; [split; [exact Ht|lia]|exact IH].
Qed.

Lemma concat_tokensFrom s :
  concatAll (tokensFrom false s) = withoutSpaces s /\
  String.append (word s) (concatAll (tokensFrom true s)) = withoutSpaces s.
Proof.
  induction s as [|a t [IH1 IH2]]; [split; reflexivity|].
  cbn [tokensFrom word withoutSpaces].
  destruct (utf8.byte a =? 32) eqn:Ha.
  - split; [exact IH1|]. cbn [String.append]. exact IH1.
  - split.
    + unfold concatAll in *. cbn [fold_right]. change (String a (word t) +:+ ?x) with (String a (word t +:+ x)).
      f_equal. exact IH2.
    + change (String a (word t) +:+ ?x) with (String a (word t +:+ x)). f_equal. exact IH2.
Qed.

Lemma spaceSeparated_proper t : properToken t -> spaceSeparated t = [t].
Proof.
  intros [Hne Hno]. destruct t as [|a t']; [contradiction|].
  unfold spaceSeparated. cbn [tokensFrom]. cbn [indexOfSpace] in Hno.
  destruct (utf8.byte a =? 32) eqn:Ha; [discriminate|].
  destruct (indexOfSpace t') as [j|] eqn:Hj; [discriminate|].
  rewrite tokensFrom_inWord, Hj. f_equal.
  apply word_without_space. cbn [indexOfSpace]. rewrite Ha, Hj. reflexivity.
Qed.

(** X1.  The tokens the scanner delivers for a text are its words between
    the spaces, in order, up to the first word that does not fit the
    scanner's buffer.  Each delivered token is non-empty, holds no space and
    is shorter than 64 KiB.  Joined, the words of a text are its bytes
    without the spaces: nothing but spaces is lost between them.  A text
    without a space that fits the buffer is one token, whatever tabs and
    newlines it holds. *)
Theorem scanner_delivers_the_words_between_spaces str :
  bufio.scan str = untilTooLong (spaceSeparated str) /\
  Forall (fun t => properToken t /\
                   Z.of_nat (String.length t) < bufio.MaxScanTokenSize)
    (bufio.scan str) /\
  concatAll (spaceSeparated str) = withoutSpaces str /\
  (properToken str -> Z.of_nat (String.length str) < bufio.MaxScanTokenSize ->
   bufio.scan str = [str]).
Proof.
  split; [apply scan_refines|]. split; [|split].
  - rewrite scan_refines. apply untilTooLong_Forall, tokensFrom_proper.
  - apply concat_tokensFrom.
  - intros Hproper Hshort. rewrite scan_refines, (spaceSeparated_proper _ Hproper).
    cbn [untilTooLong].
    destruct (Z.leb_spec bufio.MaxScanTokenSize (Z.of_nat (String.length str)));
      [lia|reflexivity].
Qed.

Lemma scanWords_cases data atEOF :
  scanWords data atEOF =
    let start := leadingSpaces data in
    match indexOfSpace (dropBytes start data) with
    | Some j => ((start + j + 1)%nat, Some (word (dropBytes start data)))
    | None =>
        if atEOF && (start <? String.length data)%nat
        then (String.length data, Some (dropBytes start data))
        else (start, None)
    end.
Proof.
  unfold scanWords. rewrite skipSpaces_spec. cbn [Nat.add].
  rewrite findSpace_spec by exact I. cbn zeta.
  destruct (indexOfSpace (dropBytes (leadingSpaces data) data)) as [j|] eqn:Hj; cbn.
  - rewrite substring_dropBytes.
    replace (leadingSpaces data + j - leadingSpaces data)%nat with j by lia.
    rewrite (word_until_space _ _ Hj). reflexivity.
  - reflexivity.
Qed.

Lemma indexOfSpace_bound s : forall j, indexOfSpace s = Some j -> (j < String.length s)%nat.
Proof.
  induction s as [|a t IH]; intros j; cbn [indexOfSpace]; [discriminate|].
  destruct (utf8.byte a =? 32).
  - intros [= <-]. cbn. lia.
  - destruct (indexOfSpace t) as [k|]; cbn; [|discriminate].
    intros [= <-]. specialize (IH k eq_refl). lia.
Qed.

Lemma length_word s : forall j, indexOfSpace s = Some j -> String.length (word s) = j.
Proof.
  induction s as [|a t IH]; intros j; cbn [indexOfSpace word]; [discriminate|].
  destruct (utf8.byte a =? 32).
  - intros [= <-]. reflexivity.
  - destruct (indexOfSpace t) as [k|]; cbn; [|discriminate].
    intros [= <-]. rewrite (IH k eq_refl). reflexivity.
Qed.

(** X2.  [scanWords] as a split function, at end of input or before: it never
    advances past the data; a token it returns is the non-empty, space-free
    word after the leading spaces, either ended by a space (the advance
    passes the spaces, the word and that one space) or, at end of input only,
    running to the end of the data (the advance is all the data); it returns
    no token only when no space ends the word, advancing past the leading
    spaces alone, and at end of input only when the data is nothing but
    spaces. *)
Theorem scanWords_is_a_split_function data atEOF :
  let start := leadingSpaces data in
  let rest := dropBytes start data in
  let advance := (scanWords data atEOF).1 in
  (advance <= String.length data)%nat /\
  match (scanWords data atEOF).2 with
  | Some token =>
      properToken token /\ token = word rest /\
      ((indexOfSpace rest = Some (String.length token) /\
        advance = (start + String.length token + 1)%nat) \/
       (indexOfSpace rest = None /\ atEOF = true /\ advance = String.length data))
  | None =>
      advance = start /\ indexOfSpace rest = None /\
      (atEOF = true -> start = String.length data)
  end.
Proof.
  cbn zeta. rewrite scanWords_cases. cbn zeta.
  pose proof (after_leadingSpaces data) as Hafter.
  pose proof (leadingSpaces_bound data) as Hlead.
  pose proof (length_dropBytes (leadingSpaces data) data) as Hlen.
  destruct (indexOfSpace (dropBytes (leadingSpaces data) data)) as [j|] eqn:Hj.
  - cbn [fst snd]. pose proof (indexOfSpace_bound _ _ Hj) as Hbound.
    pose proof (length_word _ _ Hj) as Hword.
    split; [lia|]. split; [|split; [reflexivity|]].
    + split; [|apply word_no_space].
      destruct (dropBytes (leadingSpaces data) data) as [|a t]; [discriminate|].
      destruct Hafter as [Hne _]. apply Z.eqb_neq in Hne. cbn [word]. rewrite Hne.
      discriminate.
    + left. rewrite Hword. split; [reflexivity|lia].
  - destruct atEOF; cbn [andb].
    + destruct (Nat.ltb_spec (leadingSpaces data) (String.length data)) as [Hlt|Hge];
        cbn [fst snd].
      * split; [lia|]. rewrite (word_without_space _ Hj).
        split; [|split; [reflexivity|right; auto]].
        split; [|exact Hj].
        destruct (dropBytes (leadingSpaces data) data); [cbn in Hlen; lia|discriminate].
      * split; [lia|]. split; [reflexivity|]. split; [reflexivity|]. lia.
    + cbn [fst snd]. split; [lia|]. split; [reflexivity|]. split; [reflexivity|discriminate].
Qed.

(** ** Word-wrapped text: room, separation and spacing *)

Lemma length_runesFrom s : forall skip,
  GoInt.len (runesFrom skip s) <= Z.of_nat (String.length s).
Proof.
  unfold GoInt.len.
  induction s as [|a t IH]; intros skip; cbn [runesFrom String.length length]; [lia|].
  destruct skip as [|k].
  - destruct (utf8.DecodeRune (String a t)) as [r w]. cbn [length].
    specialize (IH (w - 1)%nat). lia.
  - specialize (IH k). lia.
Qed.

Lemma budget_tokensFrom s :
  budget (tokensFrom false s) <= 2 * Z.of_nat (String.length s) + 1 /\
  Z.of_nat (String.length (word s)) + 2 + budget (tokensFrom true s) <=
    2 * Z.of_nat (String.length s) + 2.
Proof.
  induction s as [|a t [IH1 IH2]]; [cbn; lia|].
  cbn [tokensFrom word]. destruct (utf8.byte a =? 32) eqn:Ha.
  - cbn [String.length]. lia.
  - cbn [budget]. pose proof (length_runesFrom (String a (word t)) 0) as Hr.
    fold (runes (String a (word t))) in Hr.
    cbn [String.length] in *. lia.
Qed.

Lemma budget_untilTooLong tokens : budget (untilTooLong tokens) <= budget tokens.
Proof.
  induction tokens as [|t rest IH]; cbn [untilTooLong budget]; [lia|].
  pose proof (budget_nonneg rest). pose proof (len_nonneg (runes t)).
  destruct (_ <=? _); cbn [budget]; lia.
Qed.

Lemma budget_of_a_text str :
  budget (bufio.scan str) <= 2 * Z.of_nat (String.length str) + 1.
Proof.
  rewrite scan_refines. pose proof (budget_untilTooLong (spaceSeparated str)).
  pose proof (budget_tokensFrom str) as [H1 _]. unfold spaceSeparated in *. lia.
Qed.

Lemma roomFor_weaken c m n : 0 <= n <= m -> roomFor c m -> roomFor c n.
Proof.
  unfold roomFor. intros Hn (Hl & Hr & Hw & H1 & H2).
  split; [exact Hl|]. split; [exact Hr|]. split; [exact Hw|]. split; [lia|nia].
Qed.

(** X3.  On a document with room for twice the bytes of the text and one
    more move, [appendText] never panics: it returns a document of the same
    width, margin and attributes, whose row is not above the row it started
    from and whose column is at or right of the margin. *)
Theorem appendText_never_panics c str :
  roomFor c (2 * Z.of_nat (String.length str) + 1) ->
  exists c',
    cellbuf_appendText c str = Ok c' /\ sameSetting c c' /\
    row c <= row c' /\ lmargin c <= col c'.
Proof.
  intros Hroom. pose proof (budget_nonneg (bufio.scan str)) as Hb.
  pose proof (budget_of_a_text str) as Hle.
  apply (roomFor_weaken _ _ (budget (bufio.scan str))) in Hroom; [|lia].
  destruct (roomFor_sane _ _ Hb Hroom) as (Hs & Hset & Hrow & _).
  destruct (appendWords_sane (bufio.scan str) (snapToMargin c) 0)
    as (c' & H & Hset' & Hsane & Hrow'); [lia | exact Hs |].
  exists c'. split; [exact H|].
  split; [eapply sameSetting_trans; eauto|]. split; [lia|].
  destruct Hsane as (Hcol & _). destruct Hset as (_ & Hm & _). destruct Hset' as (_ & Hm' & _).
  lia.
Qed.

Lemma appendText_never_panics_on_the_empty_document :
  roomFor emptyDoc (2 * Z.of_nat (String.length "Hello world") + 1) /\
  exists c',
    cellbuf_appendText emptyDoc "Hello world" = Ok c' /\ sameSetting emptyDoc c' /\
    row emptyDoc <= row c' /\ lmargin emptyDoc <= col c'.
Proof.
  assert (H : roomFor emptyDoc (2 * Z.of_nat (String.length "Hello world") + 1))
    by (vm_compute; repeat split; discriminate).
  split; [exact H|]. apply (appendText_never_panics emptyDoc "Hello world" H).
Defined.

Lemma appendWords_app pre : forall c post,
  appendWords c (pre ++ post) = (c' ← appendWords c pre; appendWords c' post).
Proof.
  induction pre as [|t rest IH]; intros c post; [reflexivity|].
  cbn [app appendWords]. destruct (appendWord c (runes t)) as [c1|e]; [|reflexivity].
  rewrite !bind_Ok. apply IH.
Qed.

Lemma word_app_space s s2 : word (String.append s (String " " s2)) = word s.
Proof.
  induction s as [|a t IH]; [reflexivity|].
  change (String a t +:+ ?x) with (String a (t +:+ x)). cbn [word].
  rewrite IH. reflexivity.
Qed.

Lemma tokensFrom_app_space s1 s2 : forall inWord,
  tokensFrom inWord (String.append s1 (String " " s2)) =
    tokensFrom inWord s1 ++ tokensFrom false s2.
Proof.
  induction s1 as [|a t IH]; intros inWord; [reflexivity|].
  change (String a t +:+ ?x) with (String a (t +:+ x)).
  cbn [tokensFrom]. destruct (utf8.byte a =? 32) eqn:Ha; [apply IH|].
  destruct inWord; [apply IH|].
  rewrite IH. cbn [app]. f_equal.
  change (String a (t +:+ String " " s2)) with (String a t +:+ String " " s2).
  apply word_app_space.
Qed.

Lemma untilTooLong_app pre post :
  allShort pre -> untilTooLong (pre ++ post) = pre ++ untilTooLong post.
Proof.
  induction 1 as [|t rest Ht _ IH]; [reflexivity|].
  cbn [app untilTooLong].
  destruct (Z.leb_spec bufio.MaxScanTokenSize (Z.of_nat (String.length t))); [lia|].
  rewrite IH. reflexivity.
Qed.

Lemma untilTooLong_short tokens : allShort tokens -> untilTooLong tokens = tokens.
Proof.
  intros H. rewrite <- (app_nil_r tokens) at 1. rewrite untilTooLong_app by exact H.
  cbn [untilTooLong]. apply app_nil_r.
Qed.

(** X4.  Two texts appended one after the other give the document that
    their concatenation with a space between them gives: [appendText] leaves
    a separator column after its last word, so the texts of two tokens are
    shown apart even when the markup has no space between them. *)
Theorem consecutive_texts_are_separated c s1 s2 :
  allShort (spaceSeparated s1) ->
  roomFor c (2 * Z.of_nat (String.length s1) + 1) ->
  (c1 ← cellbuf_appendText c s1; cellbuf_appendText c1 s2) =
    cellbuf_appendText c (String.append s1 (String " " s2)).
Proof.
  intros Hshort Hroom. unfold cellbuf_appendText.
  rewrite !scan_refines. unfold spaceSeparated in *.
  rewrite tokensFrom_app_space, (untilTooLong_app _ _ Hshort), appendWords_app.
  rewrite (untilTooLong_short _ Hshort).
  pose proof (budget_nonneg (tokensFrom false s1)) as Hb.
  pose proof (budget_tokensFrom s1) as [Hle _].
  apply (roomFor_weaken _ _ (budget (tokensFrom false s1))) in Hroom; [|lia].
  destruct (roomFor_sane _ _ Hb Hroom) as (Hs & _).
  destruct (appendWords_sane (tokensFrom false s1) (snapToMargin c) 0)
    as (c' & H & _ & Hsane & _); [lia | exact Hs |].
  rewrite H, !bind_Ok. f_equal.
  unfold snapToMargin. destruct Hsane as (Hcol & _).
  destruct (Z.ltb_spec (col c') (lmargin c')); [lia|reflexivity].
Qed.

Lemma split_word_is_shown_with_a_gap :
  (allShort (spaceSeparated "Hel") /\
   roomFor emptyDoc (2 * Z.of_nat (String.length "Hel") + 1)) /\
  (c1 ← cellbuf_appendText emptyDoc "Hel"; cellbuf_appendText c1 "lo") =
    cellbuf_appendText emptyDoc "Hel lo".
Proof.
  assert (H1 : allShort (spaceSeparated "Hel"))
    by (repeat constructor).
  assert (H2 : roomFor emptyDoc (2 * Z.of_nat (String.length "Hel") + 1))
    by (vm_compute; repeat split; discriminate).
  split; [split; assumption|].
  apply (consecutive_texts_are_separated emptyDoc "Hel" "lo" H1 H2).
Defined.

(** X5.  [appendText] depends on the words of its text only: two texts with
    the same words between their spaces, however many spaces lead, separate
    or follow them, give the same result. *)
Theorem appendText_sees_only_the_words c s1 s2 :
  spaceSeparated s1 = spaceSeparated s2 ->
  cellbuf_appendText c s1 = cellbuf_appendText c s2.
Proof.
  intros H. unfold cellbuf_appendText. rewrite !scan_refines, H. reflexivity.
Qed.

Lemma runs_of_spaces_collapse :
  spaceSeparated "  Hello   wide world " = spaceSeparated "Hello wide world" /\
  cellbuf_appendText emptyDoc "  Hello   wide world " =
    cellbuf_appendText emptyDoc "Hello wide world".
Proof.
  assert (H : spaceSeparated "  Hello   wide world " = spaceSeparated "Hello wide world")
    by reflexivity.
  split; [exact H|]. apply (appendText_sees_only_the_words emptyDoc _ _ H).
Defined.

(** ** Word-wrapped text: the token too long and the token overwritten *)

(** X6.  When a text holds a word of 64 KiB or more, [appendText] writes the
    words before it and nothing else: the word itself and all the text after
    it are dropped without a panic, as the scanner's error is not read. *)
Theorem text_after_a_token_too_long_is_dropped c s1 t s2 :
  allShort (spaceSeparated s1) -> properToken t ->
  bufio.MaxScanTokenSize <= Z.of_nat (String.length t) ->
  cellbuf_appendText c (String.append s1 (String " " (String.append t (String " " s2)))) =
    cellbuf_appendText c s1.
Proof.
  intros Hshort Ht Hlong. unfold cellbuf_appendText. rewrite !scan_refines.
  pose proof (spaceSeparated_proper t Ht) as Hone.
  unfold spaceSeparated in *. rewrite !tokensFrom_app_space, Hone.
  rewrite (untilTooLong_app _ _ Hshort), (untilTooLong_short _ Hshort).
  cbn [app untilTooLong].
  destruct (Z.leb_spec bufio.MaxScanTokenSize (Z.of_nat (String.length t))); [|lia].
  rewrite app_nil_r. reflexivity.
Qed.

Lemma text_after_65536_letters_is_dropped :
  (allShort (spaceSeparated "b") /\ properToken tooLongToken /\
   bufio.MaxScanTokenSize <= Z.of_nat (String.length tooLongToken)) /\
  cellbuf_appendText emptyDoc
      (String.append "b" (String " " (String.append tooLongToken (String " " "c")))) =
    cellbuf_appendText emptyDoc "b".
Proof.
  assert (H1 : allShort (spaceSeparated "b")) by (repeat constructor).
  assert (H2 : properToken tooLongToken).
  { split; [discriminate|]. vm_compute. reflexivity. }
  assert (H3 : bufio.MaxScanTokenSize <= Z.of_nat (String.length tooLongToken))
    by (vm_compute; discriminate).
  split; [auto|].
  apply (text_after_a_token_too_long_is_dropped emptyDoc "b" tooLongToken "c" H1 H2 H3).
Defined.

(** X7.  A token longer than the width is written past the end of its row,
    into the cells of the row below; the next word is then written on that
    row from the margin, over them.  The rune of the token at position
    [width + j] is replaced by the [j]-th rune of the following word. *)
Theorem long_token_is_overwritten_by_the_next_word c t u :
  sane c (budget [t; u]) ->
  width c < GoInt.len (runes t) -> noNewline (runes t) ->
  GoInt.len (runes u) <= width c - lmargin c -> noNewline (runes u) ->
  exists c1 c',
    appendWord c (runes t) = Ok c1 /\ appendWords c [t; u] = Ok c' /\
    (forall (k : nat) r, runes t !! k = Some r ->
       cells c1 !! Z.to_nat ((row c + 1) * width c + (lmargin c + Z.of_nat k)) =
         Some (termbox.mkCell r (fg c) (bg c))) /\
    (forall (j : nat) r, runes u !! j = Some r ->
       cells c' !! Z.to_nat ((row c + 1) * width c + (lmargin c + (width c + Z.of_nat j))) =
         Some (termbox.mkCell r (fg c) (bg c))).
Proof.
  intros Hs Hlong Hnl Hfit Hnl'. cbn [budget] in Hs.
  pose proof (len_nonneg (runes u)) as Hu. pose proof (len_nonneg (runes t)) as Ht.
  destruct (appendWord_long c (runes t) (GoInt.len (runes u) + 2))
    as (c1 & H1 & Hset1 & Hs1 & Hrow1 & Hcol1 & Hput1); [lia| |exact Hlong|exact Hnl|].
  { apply (sane_weaken c (GoInt.len (runes t) + 2 + (GoInt.len (runes u) + 2 + 0)));
      [lia|exact Hs]. }
  exists c1. cbn [appendWords]. rewrite H1, bind_Ok.
  destruct Hset1 as (Hw1 & Hm1 & Hfg1 & Hbg1).
  pose proof Hs1 as (Hl & Hr & Hw & _).
  unfold appendWord.
  rewrite sub_exact by (apply (sane_in_range c1 (GoInt.len (runes u) + 2)); [exact Hs1|lia]).
  destruct (Z.ltb_spec (width c1 - col c1) (GoInt.len (runes u))) as [_|Hge]; [|lia].
  destruct (sane_breakRow c1 (GoInt.len (runes u) + 1)) as [Hbr Hs2];
    [replace (GoInt.len (runes u) + 1 + 1) with (GoInt.len (runes u) + 2) by lia; exact Hs1
    | lia |].
  rewrite Hbr in Hs2 |- *.
  set (c2 := setCol (setRow c1 (row c1 + 1)) (lmargin c1)) in *.
  destruct (place_and_separate c2 (runes u) 0) as
    (c' & Hok & Hset & _ & _ & Hput & _); [lia|exact Hs2|exact Hnl'| |].
  { subst c2. cbn [col width setCol setRow]. lia. }
  exists c'. rewrite Hok, bind_Ok. split; [reflexivity|]. split; [reflexivity|].
  split; [exact Hput1|].
  intros j r Hj. specialize (Hput j r Hj).
  subst c2. cbn [row col width fg bg setCol setRow] in Hput.
  rewrite Hw1, Hm1, Hfg1, Hbg1, Hrow1 in Hput. rewrite <- Hput. f_equal. lia.
Qed.

Lemma last_letter_of_81_is_overwritten :
  (sane emptyDoc (budget [longToken; "b"%string]) /\
   width emptyDoc < GoInt.len (runes longToken) /\ noNewline (runes longToken) /\
   GoInt.len (runes "b") <= width emptyDoc - lmargin emptyDoc /\ noNewline (runes "b")) /\
  exists c1 c',
    appendWord emptyDoc (runes longToken) = Ok c1 /\
    appendWords emptyDoc [longToken; "b"%string] = Ok c' /\
    (forall (k : nat) r, runes longToken !! k = Some r ->
       cells c1 !! Z.to_nat ((row emptyDoc + 1) * width emptyDoc +
                             (lmargin emptyDoc + Z.of_nat k)) =
         Some (termbox.mkCell r (fg emptyDoc) (bg emptyDoc))) /\
    (forall (j : nat) r, runes "b" !! j = Some r ->
       cells c' !! Z.to_nat ((row emptyDoc + 1) * width emptyDoc +
                             (lmargin emptyDoc + (width emptyDoc + Z.of_nat j))) =
         Some (termbox.mkCell r (fg emptyDoc) (bg emptyDoc))).
Proof.
  assert (H1 : sane emptyDoc (budget [longToken; "b"%string]))
    by (unfold sane; vm_compute; repeat split; discriminate).
  assert (H2 : width emptyDoc < GoInt.len (runes longToken)) by (vm_compute; reflexivity).
  assert (H3 : noNewline (runes longToken)) by (apply noNewline_check; reflexivity).
  assert (H4 : GoInt.len (runes "b") <= width emptyDoc - lmargin emptyDoc)
    by (vm_compute; discriminate).
  assert (H5 : noNewline (runes "b")) by (apply noNewline_check; reflexivity).
  split; [auto 10|].
  apply (long_token_is_overwritten_by_the_next_word emptyDoc longToken "b" H1 H2 H3 H4 H5).
Defined.

(** ** Raw text and the horizontal rule *)

Lemma placeRunes_rows word : forall c n,
  0 <= n -> sane c (n + GoInt.len word) ->
  exists c', placeRunes c word = Ok c' /\ sameSetting c c' /\ sane c' n /\
             row c' = row c + newlines word.
Proof.
  induction word as [|r rest IH]; intros c n Hn Hs.
  - exists c. cbn [placeRunes newlines]. unfold GoInt.len in Hs. cbn [length] in Hs.
    rewrite Z.add_0_r in Hs. auto using sameSetting_refl with zarith.
  - assert (Hlen : n + GoInt.len (r :: rest) = n + GoInt.len rest + 1)
      by (unfold GoInt.len; cbn [length]; lia).
    rewrite Hlen in Hs.
    assert (0 <= GoInt.len rest) by apply len_nonneg.
    cbn [placeRunes newlines]. destruct (r =? newline).
    + destruct (sane_breakRow c (n + GoInt.len rest)) as [Hbr Hs']; [assumption|lia|].
      destruct (IH (breakRow c) n Hn Hs') as (c' & Hrun & Hset & Hsane & Hrow).
      exists c'. split; [exact Hrun|]. split; [|split; [exact Hsane|]].
      * eapply sameSetting_trans; [|exact Hset]. rewrite Hbr. unfold sameSetting. auto.
      * rewrite Hbr in Hrow. cbn in Hrow. lia.
    + destruct (sane_cursor _ _ Hs) as [Hprod Hcur]. unfold cursor in Hcur.
      pose proof Hs as (Hl & Hr & Hw & _).
      rewrite setCell_exact by (unfold GoInt.inRange, GoInt.minInt; lia).
      rewrite bind_Ok. set (c1 := setCells c _).
      assert (Hs1 : sane c1 (n + GoInt.len rest + 1))
        by (apply (sane_same_cursor c); [reflexivity..|exact Hs]).
      destruct (sane_step c1 (n + GoInt.len rest)) as [Hadd Hs']; [assumption|lia|].
      rewrite Hadd.
      destruct (IH _ n Hn Hs') as (c' & Hrun & Hset & Hsane & Hrow).
      exists c'. split; [exact Hrun|]. split; [|split; [exact Hsane|]].
      * eapply sameSetting_trans; [|exact Hset]. unfold sameSetting. auto.
      * rewrite Hrow. cbn. lia.
Qed.

(** X8.  On a document with room for as many moves as the text has bytes,
    [appendRaw] never panics: the settings of the document stay, the row
    advances by exactly the number of newline runes of the text, and the
    column ends at or right of the margin. *)
Theorem appendRaw_never_panics c str :
  roomFor c (Z.of_nat (String.length str)) ->
  exists c',
    appendRaw c str = Ok c' /\ sameSetting c c' /\
    row c' = row c + newlines (runes str) /\ lmargin c <= col c'.
Proof.
  intros Hroom. pose proof (len_nonneg (runes str)) as Hb.
  pose proof (length_runesFrom str 0) as Hle. fold (runes str) in Hle.
  apply (roomFor_weaken _ _ (GoInt.len (runes str))) in Hroom; [|lia].
  destruct (roomFor_sane _ _ Hb Hroom) as (Hs & Hset & Hrow & _).
  destruct (placeRunes_rows (runes str) (snapToMargin c) 0)
    as (c' & H & Hset' & Hsane & Hrow'); [lia | exact Hs |].
  exists c'. split; [exact H|].
  split; [eapply sameSetting_trans; eauto|]. split; [lia|].
  destruct Hsane as (Hcol & _). destruct Hset as (_ & Hm & _). destruct Hset' as (_ & Hm' & _).
  lia.
Qed.

Lemma appendRaw_of_two_lines :
  roomFor emptyDoc (Z.of_nat (String.length twoLineToken)) /\
  exists c',
    appendRaw emptyDoc twoLineToken = Ok c' /\ sameSetting emptyDoc c' /\
    row c' = row emptyDoc + newlines (runes twoLineToken) /\ lmargin emptyDoc <= col c'.
Proof.
  assert (H : roomFor emptyDoc (Z.of_nat (String.length twoLineToken)))
    by (vm_compute; repeat split; discriminate).
  split; [exact H|]. apply (appendRaw_never_panics emptyDoc twoLineToken H).
Defined.

Lemma snapToMargin_fields c :
  sameSetting c (snapToMargin c) /\ row (snapToMargin c) = row c /\
  cells (snapToMargin c) = cells c /\
  col (snapToMargin c) = Z.max (col c) (lmargin c).
Proof.
  unfold snapToMargin. destruct (Z.ltb_spec (col c) (lmargin c)); cbn;
    unfold sameSetting; cbn; repeat split; lia.
Qed.

(** X9.  A text without a newline is written by [appendRaw] as it is: one
    rune per cell from the cursor (moved to the margin when left of it), all
    in the row of the cursor, also past the width of the document; the
    column advances by the number of runes and no cell before the cursor
    changes. *)
Theorem appendRaw_writes_a_line_verbatim c str :
  noNewline (runes str) ->
  0 <= row c -> 0 <= lmargin c -> 0 <= width c ->
  row c * width c + Z.max (col c) (lmargin c) + GoInt.len (runes str) <= GoInt.maxInt ->
  exists c',
    appendRaw c str = Ok c' /\ sameSetting c c' /\ row c' = row c /\
    col c' = Z.max (col c) (lmargin c) + GoInt.len (runes str) /\
    (forall (k : nat) r, runes str !! k = Some r ->
       cells c' !! Z.to_nat (row c * width c + Z.max (col c) (lmargin c) + Z.of_nat k) =
         Some (termbox.mkCell r (fg c) (bg c))) /\
    (forall j : nat,
       Z.of_nat j < row c * width c + Z.max (col c) (lmargin c) ->
       (j < length (cells c))%nat -> cells c' !! j = cells c !! j).
Proof.
  intros Hnl Hrow Hmargin Hwidth Hroom.
  destruct (snapToMargin_fields c) as (Hset & Hr & Hcells & Hcol).
  assert (Hprod : 0 <= row c * width c) by nia.
  destruct (placeRunes_plain (runes str) (snapToMargin c)) as
    (c' & H & Hset' & Hrow' & Hcol' & Hput & Hold & _).
  { exact Hnl. } { lia. } { lia. }
  { destruct Hset as (-> & _). exact Hwidth. }
  { unfold cursor. destruct Hset as (-> & _). rewrite Hr, Hcol. exact Hroom. }
  assert (Hcur : cursor (snapToMargin c) = row c * width c + Z.max (col c) (lmargin c)).
  { unfold cursor. destruct Hset as (-> & _). rewrite Hr, Hcol. reflexivity. }
  exists c'. split; [exact H|].
  split; [eapply sameSetting_trans; eauto|]. split; [lia|]. split; [lia|]. split.
  - intros k r Hk. specialize (Hput k r Hk). rewrite Hcur in Hput.
    destruct Hset as (_ & _ & Hfg & Hbg). rewrite Hfg, Hbg in Hput.
    rewrite <- Hput. f_equal. lia.
  - intros j Hj Hlen. rewrite <- Hcells. apply Hold; [rewrite Hcur; lia|].
    rewrite Hcells. exact Hlen.
Qed.

Lemma appendRaw_of_a_long_line :
  (noNewline (runes longToken) /\ 0 <= row emptyDoc /\ 0 <= lmargin emptyDoc /\
   0 <= width emptyDoc /\
   row emptyDoc * width emptyDoc + Z.max (col emptyDoc) (lmargin emptyDoc) +
     GoInt.len (runes longToken) <= GoInt.maxInt) /\
  exists c',
    appendRaw emptyDoc longToken = Ok c' /\ sameSetting emptyDoc c' /\
    row c' = row emptyDoc /\
    col c' = Z.max (col emptyDoc) (lmargin emptyDoc) + GoInt.len (runes longToken) /\
    (forall (k : nat) r, runes longToken !! k = Some r ->
       cells c' !! Z.to_nat (row emptyDoc * width emptyDoc +
                             Z.max (col emptyDoc) (lmargin emptyDoc) + Z.of_nat k) =
         Some (termbox.mkCell r (fg emptyDoc) (bg emptyDoc))) /\
    (forall j : nat,
       Z.of_nat j < row emptyDoc * width emptyDoc + Z.max (col emptyDoc) (lmargin emptyDoc) ->
       (j < length (cells emptyDoc))%nat -> cells c' !! j = cells emptyDoc !! j).
Proof.
  assert (H1 : noNewline (runes longToken)) by (apply noNewline_check; reflexivity).
  assert (H2 : 0 <= row emptyDoc) by (cbn; lia).
  assert (H3 : 0 <= lmargin emptyDoc) by (cbn; lia).
  assert (H4 : 0 <= width emptyDoc) by (cbn; lia).
  assert (H5 : row emptyDoc * width emptyDoc + Z.max (col emptyDoc) (lmargin emptyDoc) +
                 GoInt.len (runes longToken) <= GoInt.maxInt)
    by (vm_compute; discriminate).
  split; [auto|].
  apply (appendRaw_writes_a_line_verbatim emptyDoc longToken H1 H2 H3 H4 H5).
Defined.

Lemma runes_ascii a t : utf8.byte a < 128 -> runes (String a t) = utf8.byte a :: runes t.
Proof.
  intros Ha. unfold runes. cbn [runesFrom]. unfold utf8.DecodeRune, utf8.first.
  destruct (Z.ltb_spec (utf8.byte a) 128) as [_|]; [|lia].
  cbn. reflexivity.
Qed.

Lemma runes_of_a_rule n :
  runes (fold_right String.append EmptyString (replicate n "-"%string)) =
    replicate n hyphen.
Proof.
  induction n as [|n IH]; [reflexivity|].
  cbn [replicate fold_right].
  change ("-" +:+ ?x)%string with (String "-" x).
  rewrite runes_ascii by (vm_compute; reflexivity). rewrite IH. reflexivity.
Qed.

Section Rules.

Variable pk : Packages.

(** X10.  A horizontal rule outside every table cell is a run of as many
    hyphens as the document is wide, written on the row of the cursor from
    the margin on: the row is not advanced first, so what stood in these
    cells is replaced; the cells before the margin of that row stay. *)
Theorem rule_is_drawn_over_the_current_row p token :
  html.DataAtom token = atom.Hr ->
  unfocused (tableStack p) ->
  0 <= row (doc p) -> 0 <= lmargin (doc p) -> 0 <= width (doc p) ->
  (row (doc p) + 1) * width (doc p) + lmargin (doc p) <= GoInt.maxInt ->
  exists d,
    handleStartTag pk p token = Ok (setDoc p d) /\ sameSetting (doc p) d /\
    row d = row (doc p) /\ col d = lmargin (doc p) + width (doc p) /\
    (forall k, 0 <= k < width (doc p) ->
       cells d !! Z.to_nat (row (doc p) * width (doc p) + lmargin (doc p) + k) =
         Some (termbox.mkCell hyphen (fg (doc p)) (bg (doc p)))) /\
    (forall j : nat,
       Z.of_nat j < row (doc p) * width (doc p) + lmargin (doc p) ->
       (j < length (cells (doc p)))%nat -> cells d !! j = cells (doc p) !! j).
Proof.
  intros Hatom Hun Hrow Hmargin Hwidth Hroom.
  unfold handleStartTag. rewrite Hatom. cbn zeta. cbn [doc setDoc width setCol].
  unfold strings_Repeat. destruct (Z.ltb_spec (width (doc p)) 0) as [|_]; [lia|].
  rewrite bind_Ok. rewrite parser_appendText_unfocused by exact Hun.
  cbn [doc setDoc].
  set (line := fold_right String.append EmptyString _).
  assert (Hrunes : runes line = replicate (Z.to_nat (width (doc p))) hyphen)
    by apply runes_of_a_rule.
  assert (Hlen : GoInt.len (runes line) = width (doc p)).
  { rewrite Hrunes. unfold GoInt.len. rewrite length_replicate. lia. }
  unfold appendRaw.
  set (c0 := setCol (doc p) 0).
  destruct (snapToMargin_fields c0) as (Hset & Hr & Hcells & Hcol).
  cbn [c0 setCol col lmargin row cells width fg bg] in Hr, Hcells, Hcol.
  rewrite Z.max_r in Hcol by exact Hmargin.
  assert (Hw : width (snapToMargin c0) = width (doc p)) by (destruct Hset as (-> & _); reflexivity).
  assert (Hcur : cursor (snapToMargin c0) = row (doc p) * width (doc p) + lmargin (doc p)).
  { unfold cursor. rewrite Hw, Hr, Hcol. reflexivity. }
  assert (Hprod : 0 <= row (doc p) * width (doc p)) by nia.
  destruct (placeRunes_plain (runes line) (snapToMargin c0)) as
    (d & H & Hset' & Hrow' & Hcol' & Hput & Hold & _).
  { rewrite Hrunes. apply Forall_replicate. discriminate. }
  { lia. } { lia. } { lia. }
  { rewrite Hcur, Hlen. lia. }
  rewrite H, bind_Ok. exists d. split; [reflexivity|].
  assert (Hsame : sameSetting (doc p) d).
  { eapply sameSetting_trans; [|exact Hset'].
    eapply sameSetting_trans; [|exact Hset]. unfold sameSetting. cbn. auto. }
  split; [exact Hsame|]. split; [lia|]. split; [lia|]. split.
  - intros k Hk.
    assert (Hlook : runes line !! Z.to_nat k = Some hyphen).
    { rewrite Hrunes. apply lookup_replicate_2. lia. }
    specialize (Hput _ _ Hlook). rewrite Hcur in Hput.
    destruct Hset as (_ & _ & Hfg & Hbg). cbn [c0 setCol fg bg] in Hfg, Hbg.
    rewrite Hfg, Hbg in Hput. rewrite <- Hput. f_equal. lia.
  - intros j Hj Hl. rewrite <- Hcells. apply Hold; [rewrite Hcur; lia|].
    rewrite Hcells. exact Hl.
Qed.

End Rules.

Lemma rule_on_the_empty_document :
  (html.DataAtom (startTag atom.Hr) = atom.Hr /\
   unfocused (tableStack (mkParser [atom.Hr] [] emptyDoc [])) /\
   0 <= row emptyDoc /\ 0 <= lmargin emptyDoc /\ 0 <= width emptyDoc /\
   (row emptyDoc + 1) * width emptyDoc + lmargin emptyDoc <= GoInt.maxInt) /\
  exists d,
    handleStartTag examplePackages (mkParser [atom.Hr] [] emptyDoc []) (startTag atom.Hr) =
      Ok (setDoc (mkParser [atom.Hr] [] emptyDoc []) d) /\
    sameSetting emptyDoc d /\
    row d = row emptyDoc /\ col d = lmargin emptyDoc + width emptyDoc /\
    (forall k, 0 <= k < width emptyDoc ->
       cells d !! Z.to_nat (row emptyDoc * width emptyDoc + lmargin emptyDoc + k) =
         Some (termbox.mkCell hyphen (fg emptyDoc) (bg emptyDoc))) /\
    (forall j : nat,
       Z.of_nat j < row emptyDoc * width emptyDoc + lmargin emptyDoc ->
       (j < length (cells emptyDoc))%nat -> cells d !! j = cells emptyDoc !! j).
Proof.
  assert (H1 : unfocused (tableStack (mkParser [atom.Hr] [] emptyDoc []))) by (left; reflexivity).
  assert (H2 : 0 <= row emptyDoc) by (cbn; lia).
  assert (H3 : 0 <= lmargin emptyDoc) by (cbn; lia).
  assert (H4 : 0 <= width emptyDoc) by (cbn; lia).
  assert (H5 : (row emptyDoc + 1) * width emptyDoc + lmargin emptyDoc <= GoInt.maxInt)
    by (vm_compute; discriminate).
  split; [auto 10|].
  apply (rule_is_drawn_over_the_current_row examplePackages
           (mkParser [atom.Hr] [] emptyDoc []) (startTag atom.Hr) eq_refl H1 H2 H3 H4 H5).
Defined.

(** ** The focused cell, repeated writes and the values of a style *)

(** X11.  [getTableCell] returns the position of the last cell of the last
    row of the last table when there is one, and nil exactly when the table
    stack is empty, its top table has no row, or the top row has no cell. *)
Theorem getTableCell_points_at_the_last_cell p :
  match getTableCell p with
  | Some (tableI, rowI, colI) =>
      exists ts table cellsOfRow s,
        tableStack p = ts ++ [table ++ [cellsOfRow ++ [s]]] /\
        tableI = length ts /\ rowI = length table /\ colI = length cellsOfRow
  | None => unfocused (tableStack p)
  end.
Proof.
  destruct (focused_or_unfocused (tableStack p)) as [Hun|(ts & table & cs & s & Hts)].
  - rewrite (getTableCell_unfocused _ Hun). exact Hun.
  - rewrite (getTableCell_focused _ _ _ _ _ Hts). eauto 10.
Qed.

Lemma grow_none fuel cs i : i < GoInt.len cs -> grow fuel cs i = cs.
Proof.
  intros H. destruct fuel; [reflexivity|]. cbn [grow].
  destruct (Z.leb_spec (GoInt.len cs) i); [lia|reflexivity].
Qed.

(** X12.  Writing a cell twice is writing it once with the last value: the
    second write finds the array long enough, grows nothing and replaces the
    first; when the first write panics, so does the single one. *)
Theorem setCell_overwrites c x y ch f b ch' f' b' :
  (c' ← setCell c x y ch f b; setCell c' x y ch' f' b') = setCell c x y ch' f' b'.
Proof.
  unfold setCell. cbn zeta.
  set (i := GoInt.add (GoInt.mul y (width c)) x).
  set (cs := grow (growTurns (cells c) i) (cells c) i).
  unfold store.
  destruct ((0 <=? i) && (i <? GoInt.len cs)) eqn:Hin; [|reflexivity].
  rewrite !bind_Ok. cbn [width cells setCells]. fold i.
  apply andb_prop in Hin as [Hlo Hhi]. apply Z.leb_le in Hlo. apply Z.ltb_lt in Hhi.
  assert (Hlen : GoInt.len (<[Z.to_nat i := termbox.mkCell ch f b]> cs) = GoInt.len cs)
    by (unfold GoInt.len; rewrite length_insert; reflexivity).
  rewrite grow_none by lia. rewrite Hlen.
  destruct (Z.leb_spec 0 i); [|lia]. destruct (Z.ltb_spec i (GoInt.len cs)); [|lia].
  cbn [andb]. rewrite !bind_Ok, list_insert_insert_eq. reflexivity.
Qed.

(** X13.  [setCell] panics exactly when the index [y*width+x], as [int]
    arithmetic gives it, is negative: the growth loop does not run and the
    write is out of range.  For every other index the array is grown by the
    least number of 1024-cell blocks and the cell is written. *)
Theorem setCell_panics_only_on_a_negative_index c x y ch f b :
  let i := GoInt.add (GoInt.mul y (width c)) x in
  (i < 0 ->
   setCell c x y ch f b = Panic (IndexOutOfRange i (GoInt.len (cells c)))) /\
  (0 <= i ->
   setCell c x y ch f b =
     Ok (setCells c (<[Z.to_nat i := termbox.mkCell ch f b]> (grown (cells c) i)))).
Proof.
  cbn zeta. unfold setCell. cbn zeta.
  set (i := GoInt.add (GoInt.mul y (width c)) x). split; intros Hi.
  - pose proof (len_nonneg (cells c)) as Hlen.
    rewrite growTurns_none by lia. cbn [grow].
    rewrite store_Panic by lia. reflexivity.
  - destruct (grow_blocks (growTurns (cells c) i) (cells c) i) as [Heq Hlen]; [lia|].
    rewrite store_Ok by lia. rewrite Heq. reflexivity.
Qed.

Lemma styleValue_lor tag v : styleValue v -> styleValue (Z.lor (tagAttribute tag) v).
Proof.
  unfold styleValue. change termbox.ColorCyan with 7. change termbox.AttrBold with 512.
  intros Hv.
  assert (Hcases : v = 0 \/ v = 1 \/ v = 2 \/ v = 3 \/ v = 4 \/ v = 5 \/ v = 6 \/ v = 7 \/
                   v = 512 \/ v = 513 \/ v = 514 \/ v = 515 \/ v = 516 \/ v = 517 \/
                   v = 518 \/ v = 519) by lia.
  clear Hv.
  repeat (destruct Hcases as [->|Hcases]); try subst v;
    destruct tag; cbv - [Z.le]; lia.
Qed.

Lemma unionOfAttributes_styleValue tags : styleValue (unionOfAttributes tags).
Proof.
  unfold unionOfAttributes. induction tags as [|tag rest IH].
  - left. cbn. unfold termbox.ColorDefault, termbox.ColorCyan. lia.
  - cbn [map fold_right]. apply styleValue_lor, IH.
Qed.

(** X14.  Whatever the tag stack, the foreground [style] sets is one of the
    colours from the default to cyan, with or without the bold attribute:
    never white, never another attribute.  As colours are numbers that the
    loop combines bit by bit, two colour tags can give a third colour (title
    and italic give magenta) or hide one of the two (italic inside a second
    level heading stays blue). *)
Theorem style_gives_a_colour_with_or_without_bold c tags :
  styleValue (fg (style c tags)) /\
  fg (style c [atom.Title; atom.I]) = termbox.ColorMagenta /\
  fg (style c [atom.H2; atom.I]) = termbox.ColorBlue.
Proof.
  rewrite style_fg. split; [apply unionOfAttributes_styleValue|]. split; reflexivity.
Qed.

(** ** Building a table *)

Lemma store_top {A} (s : list A) (x y : A) : store (s ++ [x]) (GoInt.len s) y = Ok (s ++ [y]).
Proof.
  rewrite store_Ok.
  - unfold GoInt.len. rewrite Nat2Z.id.
    replace (length s) with (length s + 0)%nat at 1 by lia.
    rewrite insert_app_r. reflexivity.
  - rewrite len_app. unfold GoInt.len. cbn [length]. lia.
Qed.

Lemma sub_len_top {A} (s : list A) (x : A) :
  GoInt.len s < GoInt.maxInt -> GoInt.sub (GoInt.len (s ++ [x])) 1 = GoInt.len s.
Proof.
  intros H. rewrite sub_len_1, len_snoc; [reflexivity|].
  rewrite len_app. unfold GoInt.len at 2. cbn [length]. lia.
Qed.

Lemma setFg_same d : setFg d (fg d) = d.
Proof. destruct d. reflexivity. Qed.

Section Tables.

Variable pk : Packages.

Lemma dispatchAll_app pre : forall p post,
  dispatchAll pk p (pre ++ post) = (p' ← dispatchAll pk p pre; dispatchAll pk p' post).
Proof.
  induction pre as [|t rest IH]; intros p post; [reflexivity|].
  cbn [app dispatchAll]. destruct (dispatch pk p t) as [p1|e]; [|reflexivity].
  rewrite !bind_Ok. apply IH.
Qed.

Lemma dispatch_end_pops p token tags x :
  html.Type_ token = html.EndTagToken ->
  html.DataAtom token <> atom.Table ->
  tagStack p = tags ++ [x] ->
  GoInt.len tags < GoInt.maxInt ->
  dispatch pk p token = Ok (setTagStack p tags).
Proof.
  intros Hty Hatom Htags Hlen. unfold dispatch. rewrite Hty.
  assert (Hend : handleEndTag pk p token = Ok p).
  { unfold handleEndTag. destruct (html.DataAtom token); congruence. }
  rewrite Hend, bind_Ok, Htags, sub_len_top by exact Hlen.
  rewrite sliceTo_top, bind_Ok. reflexivity.
Qed.

Lemma parser_appendText_stacks p str raw p' :
  parser_appendText pk p str raw = Ok p' ->
  tagStack p' = tagStack p /\ items p' = items p.
Proof.
  unfold parser_appendText. intros H.
  destruct (getTableCell p).
  - injection H as <-. split; reflexivity.
  - destruct raw; apply bind_Ok_inv in H as (d & _ & H); injection H as <-;
      split; reflexivity.
Qed.

Variables (tags : list atom.Atom) (ts : list (list (list string))) (its : list epub.Item).

Hypothesis tags_fit : GoInt.len tags + 2 < GoInt.maxInt.
Hypothesis ts_fit : GoInt.len ts < GoInt.maxInt.

Lemma dispatch_table tags0 ts0 d :
  dispatch pk (mkParser tags0 ts0 d its) (startTag atom.Table) =
    Ok (mkParser (tags0 ++ [atom.Table]) (ts0 ++ [[]]) d its).
Proof. reflexivity. Qed.

Lemma dispatch_tr tags0 table d :
  dispatch pk (mkParser tags0 (ts ++ [table]) d its) (startTag atom.Tr) =
    Ok (mkParser (tags0 ++ [atom.Tr]) (ts ++ [table ++ [[]]]) d its).
Proof.
  unfold dispatch. cbn [startTag html.Type_ html.DataAtom].
  unfold handleStartTag. cbn [startTag html.DataAtom tableStack setTagStack tagStack doc items].
  rewrite sub_len_top by exact ts_fit. rewrite index_top, bind_Ok.
  rewrite store_top, bind_Ok. reflexivity.
Qed.

Lemma dispatch_td tags0 table r d :
  GoInt.len table < GoInt.maxInt ->
  dispatch pk (mkParser tags0 (ts ++ [table ++ [r]]) d its) (startTag atom.Td) =
    Ok (mkParser (tags0 ++ [atom.Td]) (ts ++ [table ++ [r ++ [EmptyString]]]) d its).
Proof.
  intros Htable. unfold dispatch. cbn [startTag html.Type_ html.DataAtom].
  unfold handleStartTag. cbn [startTag html.DataAtom tableStack setTagStack tagStack doc items].
  rewrite sub_len_top by exact ts_fit. rewrite index_top, bind_Ok.
  rewrite sub_len_top by exact Htable. rewrite index_top, bind_Ok.
  rewrite store_top, bind_Ok, store_top, !bind_Ok. reflexivity.
Qed.

Lemma dispatch_text_in_cell tags0 x table r cell d s :
  x <> atom.Style ->
  dispatch pk (mkParser (tags0 ++ [x]) (ts ++ [table ++ [r ++ [cell]]]) d its) (textToken s) =
    Ok (mkParser (tags0 ++ [x])
          (ts ++ [table ++ [r ++ [String.append cell (strings_TrimSpace pk s)]]])
          (style d (tags0 ++ [x])) its).
Proof.
  intros Hx. unfold dispatch. cbn [textToken html.Type_].
  unfold handleText. cbn [tagStack].
  destruct (top_of_stack tags0 x) as (-> & -> & ->). cbn [andb].
  assert (Hno : match x with atom.Style => true | _ => false end = false)
    by (destruct x; congruence).
  rewrite Hno. erewrite parser_appendText_focused by reflexivity. reflexivity.
Qed.

Lemma dispatch_cell table r d s :
  GoInt.len table < GoInt.maxInt ->
  dispatchAll pk (mkParser (tags ++ [atom.Tr]) (ts ++ [table ++ [r]]) d its) (cellTokens s) =
    Ok (mkParser (tags ++ [atom.Tr]) (ts ++ [table ++ [r ++ [strings_TrimSpace pk s]]])
          (style d ((tags ++ [atom.Tr]) ++ [atom.Td])) its).
Proof.
  intros Htable. unfold cellTokens. cbn [dispatchAll].
  rewrite dispatch_td, bind_Ok by exact Htable.
  rewrite dispatch_text_in_cell, bind_Ok by discriminate.
  erewrite dispatch_end_pops with (tags := tags ++ [atom.Tr]) (x := atom.Td);
    [| reflexivity | discriminate | reflexivity
     | rewrite len_app; unfold GoInt.len at 2; cbn [length]; lia].
  rewrite bind_Ok. reflexivity.
Qed.

Lemma dispatch_cells table cs : forall r d,
  GoInt.len table < GoInt.maxInt ->
  exists f,
    dispatchAll pk (mkParser (tags ++ [atom.Tr]) (ts ++ [table ++ [r]]) d its)
      (concat (map cellTokens cs)) =
    Ok (mkParser (tags ++ [atom.Tr])
          (ts ++ [table ++ [r ++ map (strings_TrimSpace pk) cs]]) (setFg d f) its).
Proof.
  induction cs as [|s rest IH]; intros r d Htable.
  - exists (fg d). cbn [map concat dispatchAll]. rewrite app_nil_r, setFg_same. reflexivity.
  - cbn [map concat]. rewrite dispatchAll_app, dispatch_cell, bind_Ok by exact Htable.
    destruct (IH (r ++ [strings_TrimSpace pk s])
                (style d ((tags ++ [atom.Tr]) ++ [atom.Td])) Htable) as [f Hf].
    exists f. rewrite Hf, <- app_assoc. reflexivity.
Qed.

Lemma dispatch_row table r d :
  GoInt.len table < GoInt.maxInt ->
  exists f,
    dispatchAll pk (mkParser tags (ts ++ [table]) d its) (rowTokens r) =
    Ok (mkParser tags (ts ++ [table ++ [map (strings_TrimSpace pk) r]]) (setFg d f) its).
Proof.
  intros Htable. unfold rowTokens. cbn [dispatchAll].
  rewrite dispatch_tr, bind_Ok.
  destruct (dispatch_cells table r [] d Htable) as [f Hf].
  exists f. rewrite dispatchAll_app, Hf, bind_Ok. cbn [app dispatchAll].
  erewrite dispatch_end_pops with (tags := tags) (x := atom.Tr);
    [| reflexivity | discriminate | reflexivity | lia].
  rewrite bind_Ok. reflexivity.
Qed.

Lemma dispatch_rows rows : forall table d,
  GoInt.len table + GoInt.len rows <= GoInt.maxInt ->
  exists f,
    dispatchAll pk (mkParser tags (ts ++ [table]) d its) (concat (map rowTokens rows)) =
    Ok (mkParser tags (ts ++ [table ++ map (map (strings_TrimSpace pk)) rows])
          (setFg d f) its).
Proof.
  induction rows as [|r rest IH]; intros table d Hlen.
  - exists (fg d). cbn [map concat dispatchAll]. rewrite app_nil_r, setFg_same. reflexivity.
  - assert (Hcons : GoInt.len (r :: rest) = GoInt.len rest + 1)
      by (unfold GoInt.len; cbn [length]; lia).
    pose proof (len_nonneg rest) as Hrest.
    destruct (dispatch_row table r d) as [f1 Hf1]; [lia|].
    destruct (IH (table ++ [map (strings_TrimSpace pk) r]) (setFg d f1)) as [f Hf].
    { rewrite len_app. unfold GoInt.len at 2. cbn [length]. lia. }
    exists f. cbn [map concat]. rewrite dispatchAll_app, Hf1, bind_Ok, Hf.
    rewrite <- app_assoc. reflexivity.
Qed.

End Tables.

Section TableRoundTrip.

Variable pk : Packages.

(** X15.  The tokens of a table, row by row and cell by cell, fill the top
    of the table stack with exactly the rows of the markup, each cell the
    trimmed text of its token, in the order of the markup; the grid's cells
    and cursor are not touched meanwhile.  The end tag then hands these rows
    to the formatter, appends the block after a newline and leaves the tag
    stack and the table stack as they were before the table. *)
Theorem table_rows_reach_the_formatter p rows :
  GoInt.len (tagStack p) + 3 < GoInt.maxInt ->
  GoInt.len (tableStack p) < GoInt.maxInt ->
  GoInt.len rows <= GoInt.maxInt ->
  exists f,
    let trimmed := map (map (strings_TrimSpace pk)) rows in
    let d := setFg (doc p) f in
    dispatchAll pk p (tableOpen rows) =
      Ok (mkParser (tagStack p ++ [atom.Table]) (tableStack p ++ [trimmed]) d (items p)) /\
    dispatchAll pk p (tableTokens rows) =
      (p1 ← parser_appendText pk
              (mkParser (tagStack p ++ [atom.Table]) (tableStack p) d (items p)) nl true;
       p2 ← parser_appendText pk p1 (tablewriter_Render pk trimmed true true) true;
       Ok (setTagStack p2 (tagStack p))).
Proof.
  intros Htags Hts Hrows. destruct p as [tags ts d its].
  cbn [tagStack tableStack doc items] in *.
  assert (Htags' : GoInt.len (tags ++ [atom.Table]) + 2 < GoInt.maxInt).
  { rewrite len_app. unfold GoInt.len at 2. cbn [length]. lia. }
  destruct (dispatch_rows pk (tags ++ [atom.Table]) ts its Htags' Hts rows [] d)
    as [f Hf]; [unfold GoInt.len at 1; cbn [length]; lia|].
  cbn [app] in Hf.
  assert (Hopen : dispatchAll pk (mkParser tags ts d its) (tableOpen rows) =
                  Ok (mkParser (tags ++ [atom.Table])
                        (ts ++ [map (map (strings_TrimSpace pk)) rows]) (setFg d f) its)).
  { unfold tableOpen. cbn [dispatchAll]. rewrite dispatch_table, bind_Ok. exact Hf. }
  exists f. cbn zeta. split; [exact Hopen|].
  unfold tableTokens. rewrite dispatchAll_app, Hopen, bind_Ok. cbn [dispatchAll].
  unfold dispatch. cbn [endTag html.Type_].
  erewrite handleEndTag_pops;
    [| reflexivity | reflexivity
     | cbn [tableStack]; rewrite len_app; unfold GoInt.len at 2; cbn [length]; lia].
  unfold setTableStack. cbn [tagStack tableStack doc items].
  destruct (parser_appendText pk _ nl true) as [p1|e] eqn:H1; [|reflexivity].
  rewrite !bind_Ok.
  destruct (parser_appendText pk p1 _ true) as [p2|e] eqn:H2; [|reflexivity].
  rewrite !bind_Ok.
  apply parser_appendText_stacks in H1 as [H1 _]. apply parser_appendText_stacks in H2 as [H2 _].
  rewrite H2, H1. cbn [tagStack].
  rewrite sub_len_top by lia. rewrite sliceTo_top, !bind_Ok. reflexivity.
Qed.

End TableRoundTrip.

Lemma table_of_two_rows :
  (GoInt.len (tagStack (mkParser [] [] emptyDoc [])) + 3 < GoInt.maxInt /\
   GoInt.len (tableStack (mkParser [] [] emptyDoc [])) < GoInt.maxInt /\
   GoInt.len [[" a"; "b "]; ["c"]]%string <= GoInt.maxInt) /\
  exists f,
    let p := mkParser [] [] emptyDoc [] in
    let trimmed := map (map (strings_TrimSpace examplePackages)) [[" a"; "b "]; ["c"]]%string in
    let d := setFg (doc p) f in
    dispatchAll examplePackages p (tableOpen [[" a"; "b "]; ["c"]]%string) =
      Ok (mkParser (tagStack p ++ [atom.Table]) (tableStack p ++ [trimmed]) d (items p)) /\
    dispatchAll examplePackages p (tableTokens [[" a"; "b "]; ["c"]]%string) =
      (p1 ← parser_appendText examplePackages
              (mkParser (tagStack p ++ [atom.Table]) (tableStack p) d (items p)) nl true;
       p2 ← parser_appendText examplePackages p1
              (tablewriter_Render examplePackages trimmed true true) true;
       Ok (setTagStack p2 (tagStack p))).
Proof.
  assert (H1 : GoInt.len (tagStack (mkParser [] [] emptyDoc [])) + 3 < GoInt.maxInt)
    by (vm_compute; reflexivity).
  assert (H2 : GoInt.len (tableStack (mkParser [] [] emptyDoc [])) < GoInt.maxInt)
    by (vm_compute; reflexivity).
  assert (H3 : GoInt.len [[" a"; "b "]; ["c"]]%string <= GoInt.maxInt)
    by (vm_compute; discriminate).
  split; [auto|].
  apply (table_rows_reach_the_formatter examplePackages (mkParser [] [] emptyDoc [])
           [[" a"; "b "]; ["c"]]%string H1 H2 H3).
Defined.

(** ** End tags and the tag stack *)

Section EndTags.

Variable pk : Packages.

(** X16.  An end tag pops the last open tag whatever their names are: it is
    not matched against the tag it closes.  A line break given as a start
    tag is pushed and never closed, so the end tag after it pops the line
    break; the styled tag around it stays open and keeps styling the text
    that follows. *)
Theorem end_tag_pops_the_last_open_tag p a :
  styled a ->
  GoInt.len (tagStack p) + 1 < GoInt.maxInt ->
  (forall b x tags, b <> atom.Table -> tagStack p = tags ++ [x] ->
     dispatch pk p (endTag b) = Ok (setTagStack p tags)) /\
  dispatchAll pk p [startTag a; startTag atom.Br; endTag a] =
    (p1 ← parser_appendText pk (setTagStack p (tagStack p ++ [a; atom.Br])) nl true;
     Ok (setTagStack p1 (tagStack p ++ [a]))).
Proof.
  intros Ha Hlen. split.
  - intros b x tags Hb Htags.
    apply (dispatch_end_pops pk p (endTag b) tags x); [reflexivity|exact Hb|exact Htags|].
    rewrite Htags, len_app in Hlen. pose proof (len_nonneg [x]). lia.
  - cbn [dispatchAll].
    assert (Hstart : dispatch pk p (startTag a) = Ok (setTagStack p (tagStack p ++ [a]))).
    { unfold dispatch, handleStartTag. cbn [startTag html.Type_ html.DataAtom].
      destruct a; try reflexivity; exfalso; apply Ha; reflexivity. }
    rewrite Hstart, bind_Ok.
    assert (Hbr : dispatch pk (setTagStack p (tagStack p ++ [a])) (startTag atom.Br) =
                  parser_appendText pk (setTagStack p (tagStack p ++ [a; atom.Br])) nl true).
    { unfold dispatch, handleStartTag, setTagStack.
      cbn [startTag html.Type_ html.DataAtom tagStack tableStack doc items].
      rewrite <- app_assoc. reflexivity. }
    rewrite Hbr.
    destruct (parser_appendText pk _ nl true) as [p1|e] eqn:H1; [|reflexivity].
    rewrite !bind_Ok. apply parser_appendText_stacks in H1 as [H1 _].
    cbn [tagStack setTagStack] in H1.
    rewrite (dispatch_end_pops pk p1 (endTag a) (tagStack p ++ [a]) atom.Br).
    + reflexivity.
    + reflexivity.
    + cbn [endTag html.DataAtom]. intros ->. apply Ha. reflexivity.
    + rewrite H1. replace [a; atom.Br] with ([a] ++ [atom.Br]) by reflexivity.
      rewrite app_assoc. reflexivity.
    + rewrite len_app. unfold GoInt.len at 2. cbn [length]. lia.
Qed.

End EndTags.

Lemma bold_stays_open_after_a_break :
  (styled atom.B /\
   GoInt.len (tagStack (mkParser [atom.P] [] emptyDoc [])) + 1 < GoInt.maxInt) /\
  (forall b x tags, b <> atom.Table ->
     tagStack (mkParser [atom.P] [] emptyDoc []) = tags ++ [x] ->
     dispatch examplePackages (mkParser [atom.P] [] emptyDoc []) (endTag b) =
       Ok (setTagStack (mkParser [atom.P] [] emptyDoc []) tags)) /\
  dispatchAll examplePackages (mkParser [atom.P] [] emptyDoc [])
      [startTag atom.B; startTag atom.Br; endTag atom.B] =
    (p1 ← parser_appendText examplePackages
            (setTagStack (mkParser [atom.P] [] emptyDoc [])
               (tagStack (mkParser [atom.P] [] emptyDoc []) ++ [atom.B; atom.Br])) nl true;
     Ok (setTagStack p1 (tagStack (mkParser [atom.P] [] emptyDoc []) ++ [atom.B]))).
Proof.
  assert (H1 : styled atom.B) by (vm_compute; discriminate).
  assert (H2 : GoInt.len (tagStack (mkParser [atom.P] [] emptyDoc [])) + 1 < GoInt.maxInt)
    by (vm_compute; reflexivity).
  split; [split; assumption|].
  apply (end_tag_pops_the_last_open_tag examplePackages
           (mkParser [atom.P] [] emptyDoc []) atom.B H1 H2).
Defined.

(** ** Images: the glyphs of a picture *)

Lemma glyph_in_gradient lum :
  0 <= lum < 256 ->
  exists g,
    charGradient !! Z.to_nat (Z.quot (GoInt.mul (GoInt.len charGradient - 1) lum) 255) = Some g.
Proof.
  intros Hlum. change (GoInt.len charGradient - 1) with 16.
  rewrite mul_exact by (unfold GoInt.inRange, GoInt.minInt, GoInt.maxInt; lia).
  rewrite Z.quot_div_nonneg by lia.
  assert (Hpos : 0 <= 16 * lum / 255 <= 16).
  { split; [apply Z.div_pos; lia|]. apply Z.div_le_upper_bound; lia. }
  apply lookup_lt_is_Some. change (length charGradient) with 17%nat. lia.
Qed.

Lemma glyphRow_shape img xs y :
  exists glyphs,
    fold_right (fun x rest =>
        String (default zero (charGradient !! Z.to_nat
                  (Z.quot (GoInt.mul (GoInt.len charGradient - 1)
                                     (image.GrayY img x y mod 256)) 255))) rest) nl xs =
      String.append (string_of_list_ascii glyphs) nl /\
    length glyphs = length xs /\ Forall (fun g => g ∈ charGradient) glyphs.
Proof.
  induction xs as [|x rest (glyphs & Heq & Hlen & Hall)].
  - exists []. split; [reflexivity|]. split; [reflexivity|constructor].
  - destruct (glyph_in_gradient (image.GrayY img x y mod 256)) as [g Hg];
      [apply Z.mod_pos_bound; lia|].
    exists (g :: glyphs). cbn [fold_right]. rewrite Hg, Heq.
    split; [reflexivity|]. split; [cbn [length]; lia|].
    constructor; [|exact Hall]. apply (list_elem_of_lookup_2 _ _ _ Hg).
Qed.

Lemma glyphRow_line img y : glyphLine (glyphRow img 80 y).
Proof.
  destruct (glyphRow_shape img (seqZ 0 80) y) as (glyphs & Heq & Hlen & Hall).
  exists glyphs. split; [exact Heq|]. split; [|exact Hall].
  rewrite Hlen, length_seqZ. reflexivity.
Qed.

Lemma rows_of_glyphs img ys :
  fold_right (fun y rest => String.append (glyphRow img 80 y) rest) EmptyString ys =
    concatAll (map (glyphRow img 80) ys).
Proof.
  unfold concatAll. induction ys as [|y rest IH]; [reflexivity|].
  cbn [map fold_right]. rewrite IH. reflexivity.
Qed.

Lemma mul_2_is_0 x : GoInt.mul x 2 = 0 <-> x mod 2 ^ 63 = 0.
Proof.
  unfold GoInt.mul, GoInt.wrap. change (2 ^ 63) with 9223372036854775808.
  split; intros H.
  - pose proof (Z.div_mod (x * 2 + 9223372036854775808) 18446744073709551616).
    pose proof (Z.div_mod x 9223372036854775808).
    pose proof (Z.mod_pos_bound x 9223372036854775808).
    lia.
  - pose proof (Z.div_mod (x * 2 + 9223372036854775808) 18446744073709551616).
    pose proof (Z.mod_pos_bound (x * 2 + 9223372036854775808) 18446744073709551616).
    pose proof (Z.div_mod x 9223372036854775808).
    lia.
Qed.

Section Pictures.

Variable pk : Packages.

(** X17.  For an image that opens and decodes with a width that is not zero,
    [imageToText] returns as many lines as the height computed from the
    bounds says, each of exactly eighty glyphs of the gradient followed by a
    newline; for bounds within range that height is [40 * Max.Y / Max.X],
    half the rows per column for the 2:1 shape of a character. *)
Theorem imageToText_draws_rows_of_eighty_glyphs item r img :
  Item_Open pk item = Some r -> image_Decode pk r = Some img ->
  image.MaxX img mod 2 ^ 63 <> 0 ->
  let h := GoInt.wrap (Z.quot (GoInt.mul (image.MaxY img) 80)
                              (GoInt.mul (image.MaxX img) 2)) in
  exists rows,
    imageToText pk item = Ok (concatAll rows) /\
    length rows = Z.to_nat h /\ Forall glyphLine rows /\
    (0 < image.MaxX img < 2 ^ 62 -> 0 <= image.MaxY img <= 2 ^ 56 ->
     h = image.MaxY img * 40 / image.MaxX img).
Proof.
  intros Hopen Hdecode Hwidth h.
  unfold imageToText. rewrite Hopen, Hdecode. cbn zeta.
  destruct (Z.eqb_spec (GoInt.mul (image.MaxX img) 2) 0) as [H0|_];
    [apply mul_2_is_0 in H0; contradiction|].
  fold h. set (img' := resize_Resize pk 80 _ img).
  exists (map (glyphRow img' 80) (seqZ 0 h)).
  split; [rewrite rows_of_glyphs; reflexivity|].
  split; [rewrite length_map, length_seqZ; reflexivity|].
  split; [apply Forall_map, Forall_forall; intros y _; apply glyphRow_line|].
  intros Hx Hy. unfold h.
  change (2 ^ 62) with 4611686018427387904 in Hx.
  change (2 ^ 56) with 72057594037927936 in Hy.
  rewrite !mul_exact by (unfold GoInt.inRange, GoInt.minInt, GoInt.maxInt; lia).
  rewrite Z.quot_div_nonneg by lia.
  replace (image.MaxY img * 80) with (image.MaxY img * 40 * 2) by lia.
  rewrite Z.div_mul_cancel_r by lia.
  apply wrap_inRange. unfold GoInt.inRange, GoInt.minInt, GoInt.maxInt.
  assert (0 <= image.MaxY img * 40 / image.MaxX img <= image.MaxY img * 40).
  { split; [apply Z.div_pos; lia|]. apply Z.div_le_upper_bound; nia. }
  lia.
Qed.

(** X18.  [imageToText] panics in one situation only: the item opens, the
    image decodes, and [Max.X * 2] is zero in [int] arithmetic, so that the
    height divides by zero. *)
Theorem imageToText_panics_only_without_a_width item e :
  imageToText pk item = Panic e <->
  e = IntegerDivideByZero /\
  exists r img,
    Item_Open pk item = Some r /\ image_Decode pk r = Some img /\
    image.MaxX img mod 2 ^ 63 = 0.
Proof.
  unfold imageToText. split.
  - destruct (Item_Open pk item) as [r|] eqn:Hopen; [|discriminate].
    destruct (image_Decode pk r) as [img|] eqn:Hdecode; [|discriminate]. cbn zeta.
    destruct (Z.eqb_spec (GoInt.mul (image.MaxX img) 2) 0) as [H0|_]; [|discriminate].
    intros [= <-]. split; [reflexivity|]. exists r. exists img.
    apply mul_2_is_0 in H0. split; [reflexivity|]. split; [exact Hdecode|exact H0].
  - intros (-> & r & img & -> & -> & H0). cbn zeta.
    apply mul_2_is_0 in H0. rewrite H0. reflexivity.
Qed.

End Pictures.

Lemma picture_of_twenty_rows :
  (Item_Open examplePictures (epub.mkItem "a.png" 0) = Some "png"%string /\
   image_Decode examplePictures "png" = Some (image.mkImage 2 1 (fun x y => 3 * x)) /\
   image.MaxX (image.mkImage 2 1 (fun x y => 3 * x)) mod 2 ^ 63 <> 0) /\
  let img := image.mkImage 2 1 (fun x y => 3 * x) in
  let h := GoInt.wrap (Z.quot (GoInt.mul (image.MaxY img) 80)
                              (GoInt.mul (image.MaxX img) 2)) in
  exists rows,
    imageToText examplePictures (epub.mkItem "a.png" 0) = Ok (concatAll rows) /\
    length rows = Z.to_nat h /\ Forall glyphLine rows /\
    (0 < image.MaxX img < 2 ^ 62 -> 0 <= image.MaxY img <= 2 ^ 56 ->
     h = image.MaxY img * 40 / image.MaxX img).
Proof.
  assert (H : image.MaxX (image.mkImage 2 1 (fun x y => 3 * x)) mod 2 ^ 63 <> 0)
    by (vm_compute; discriminate).
  split; [auto|].
  apply (imageToText_draws_rows_of_eighty_glyphs examplePictures (epub.mkItem "a.png" 0)
           "png" (image.mkImage 2 1 (fun x y => 3 * x)) eq_refl eq_refl H).
Defined.

(** ** The shape of the documents of a parse *)

Section DocumentInvariant.

Variable Inv : cellbuf -> Prop.

Hypothesis Inv_setCell : forall c x y ch c',
  Inv c -> setCell c x y ch (fg c) (bg c) = Ok c' -> Inv c'.

Hypothesis Inv_cursor : forall c d,
  cells d = cells c -> width d = width c -> lmargin d = lmargin c ->
  fg d = fg c -> bg d = bg c -> Inv c -> Inv d.

Hypothesis Inv_style : forall c tags, Inv c -> Inv (style c tags).

Lemma placeRunes_invariant word : forall c c',
  Inv c -> placeRunes c word = Ok c' -> Inv c'.
Proof.
  induction word as [|r rest IH]; intros c c' Hc H; cbn [placeRunes] in H.
  - injection H as <-. exact Hc.
  - destruct (r =? newline).
    + apply (IH (breakRow c) c'); [|exact H].
      apply (Inv_cursor c); [reflexivity..|exact Hc].
    + apply bind_Ok_inv in H as (c1 & Hset & H).
      apply (IH (setCol c1 (GoInt.add (col c1) 1)) c'); [|exact H].
      apply (Inv_cursor c1); [reflexivity..|].
      apply (Inv_setCell _ _ _ _ _ Hc Hset).
Qed.

Lemma snapToMargin_invariant c : Inv c -> Inv (snapToMargin c).
Proof.
  unfold snapToMargin. destruct (col c <? lmargin c); [|auto].
  apply Inv_cursor; reflexivity.
Qed.

Lemma appendWord_invariant c word c' : Inv c -> appendWord c word = Ok c' -> Inv c'.
Proof.
  unfold appendWord. intros Hc H. apply bind_Ok_inv in H as (c2 & Hp & H).
  injection H as <-.
  assert (Inv c2).
  { eapply placeRunes_invariant; [|exact Hp].
    destruct (GoInt.sub (width c) (col c) <? GoInt.len word); [|exact Hc].
    apply (Inv_cursor c); [reflexivity..|exact Hc]. }
  destruct (col c2 =? lmargin c2); [assumption|].
  apply (Inv_cursor c2); [reflexivity..|assumption].
Qed.

Lemma appendWords_invariant tokens : forall c c',
  Inv c -> appendWords c tokens = Ok c' -> Inv c'.
Proof.
  induction tokens as [|t rest IH]; intros c c' Hc H; cbn [appendWords] in H.
  - injection H as <-. exact Hc.
  - apply bind_Ok_inv in H as (c1 & Hw & H).
    eapply IH; [|exact H]. eapply appendWord_invariant; eauto.
Qed.

Lemma appendText_invariant c str c' : Inv c -> cellbuf_appendText c str = Ok c' -> Inv c'.
Proof.
  intros Hc. apply appendWords_invariant. apply snapToMargin_invariant, Hc.
Qed.

Lemma appendRaw_invariant c str c' : Inv c -> appendRaw c str = Ok c' -> Inv c'.
Proof.
  intros Hc. apply placeRunes_invariant. apply snapToMargin_invariant, Hc.
Qed.

Variable pk : Packages.

Lemma parser_appendText_invariant p str raw p' :
  Inv (doc p) -> parser_appendText pk p str raw = Ok p' -> Inv (doc p').
Proof.
  unfold parser_appendText. intros Hp H.
  destruct (getTableCell p).
  - injection H as <-. exact Hp.
  - destruct raw; apply bind_Ok_inv in H as (d & Hd & H); injection H as <-; cbn [doc setDoc].
    + eapply appendRaw_invariant; eauto.
    + eapply appendText_invariant; eauto.
Qed.

Lemma handleText_invariant p token p' :
  Inv (doc p) -> handleText pk p token = Ok p' -> Inv (doc p').
Proof.
  unfold handleText. intros Hp H.
  destruct (_ && _).
  - injection H as <-. exact Hp.
  - eapply parser_appendText_invariant; [|exact H]. cbn [doc setDoc].
    apply Inv_style, Hp.
Qed.

Lemma handleImgAttrs_invariant attrs : forall p p',
  Inv (doc p) -> handleImgAttrs pk p attrs = Ok p' -> Inv (doc p').
Proof.
  induction attrs as [|a rest IH]; intros p p' Hp H; cbn [handleImgAttrs] in H.
  - injection H as <-. exact Hp.
  - apply bind_Ok_inv in H as (p1 & H1 & H). eapply IH; [|exact H].
    unfold handleImgAttr in H1.
    destruct (atom.Lookup (html.Key a)); try (injection H1 as <-; exact Hp).
    + eapply parser_appendText_invariant; eauto.
    + destruct (getTableCell p); [injection H1 as <-; exact Hp|].
      destruct (findItem (items p) (html.Val a)); [|injection H1 as <-; exact Hp].
      apply bind_Ok_inv in H1 as (text & _ & H1).
      eapply parser_appendText_invariant; eauto.
Qed.

Lemma handleStartTag_invariant p token p' :
  Inv (doc p) -> handleStartTag pk p token = Ok p' -> Inv (doc p').
Proof.
  unfold handleStartTag. intros Hp H.
  destruct (html.DataAtom token); try (injection H as <-; exact Hp).
  - eapply handleImgAttrs_invariant; eauto.
  - eapply parser_appendText_invariant; eauto.
  - injection H as <-. cbn [doc setDoc].
    apply (Inv_cursor (doc p)); [reflexivity..|exact Hp].
  - apply bind_Ok_inv in H as (line & _ & H).
    eapply parser_appendText_invariant; [|exact H]. cbn [doc setDoc].
    apply (Inv_cursor (doc p)); [reflexivity..|exact Hp].
  - apply bind_Ok_inv in H as (table & _ & H).
    apply bind_Ok_inv in H as (ts & _ & H). injection H as <-. exact Hp.
  - apply bind_Ok_inv in H as (table & _ & H).
    apply bind_Ok_inv in H as (r & _ & H).
    apply bind_Ok_inv in H as (table' & _ & H).
    apply bind_Ok_inv in H as (ts & _ & H). injection H as <-. exact Hp.
Qed.

Lemma handleEndTag_invariant p token p' :
  Inv (doc p) -> handleEndTag pk p token = Ok p' -> Inv (doc p').
Proof.
  unfold handleEndTag. intros Hp H.
  destruct (html.DataAtom token); try (injection H as <-; exact Hp).
  apply bind_Ok_inv in H as (table & _ & H).
  apply bind_Ok_inv in H as (ts & _ & H).
  apply bind_Ok_inv in H as (p1 & H1 & H).
  eapply parser_appendText_invariant; [|exact H].
  eapply parser_appendText_invariant; [|exact H1]. exact Hp.
Qed.

Lemma dispatch_invariant p token p' :
  Inv (doc p) -> dispatch pk p token = Ok p' -> Inv (doc p').
Proof.
  unfold dispatch. intros Hp H.
  destruct (html.Type_ token); try (injection H as <-; exact Hp).
  - eapply handleText_invariant; eauto.
  - eapply handleStartTag_invariant; [|exact H]. exact Hp.
  - apply bind_Ok_inv in H as (p1 & H1 & H).
    apply bind_Ok_inv in H as (tags & _ & H). injection H as <-. cbn [doc setTagStack].
    eapply handleEndTag_invariant; eauto.
  - eapply handleStartTag_invariant; eauto.
Qed.

Lemma parse_invariant tokens err : forall p p' e,
  Inv (doc p) -> parse pk tokens err p = Ok (p', e) -> Inv (doc p').
Proof.
  induction tokens as [|token rest IH]; intros p p' e Hp H; cbn [parse] in H.
  - injection H as <- _. exact Hp.
  - destruct (html.Type_ token) eqn:Hty;
      try (apply bind_Ok_inv in H as (p1 & H1 & H);
           eapply IH; [|exact H]; eapply dispatch_invariant; eauto).
    injection H as <- _. exact Hp.
Qed.

Lemma parseText_invariant tokens err its d e :
  Inv emptyDoc -> parseText pk tokens err its = Ok (d, e) -> Inv d.
Proof.
  unfold parseText. intros H0 H. apply bind_Ok_inv in H as ([p' e'] & Hp & H).
  assert (d = doc p') as -> by (destruct e'; congruence).
  eapply parse_invariant; [|exact Hp]. exact H0.
Qed.

End DocumentInvariant.

Lemma gridInvariant_setCell c x y ch c' :
  gridInvariant c -> setCell c x y ch (fg c) (bg c) = Ok c' -> gridInvariant c'.
Proof.
  intros (Hw & Hm & [k Hk] & Hfg & Hcells) H.
  pose proof (setCell_fields _ _ _ _ _ _ _ H) as (Hw' & Hm' & _ & _ & Hfg' & _).
  unfold gridInvariant. rewrite Hw', Hm', Hfg'.
  split; [exact Hw|]. split; [exact Hm|].
  unfold setCell in H. apply bind_Ok_inv in H as (cs & Hst & H).
  injection H as <-. cbn [cells setCells].
  unfold store in Hst.
  destruct ((0 <=? _) && _); [|discriminate]. injection Hst as <-.
  destruct (grow_shape (growTurns (cells c) (GoInt.add (GoInt.mul y (width c)) x))
              (cells c) (GoInt.add (GoInt.mul y (width c)) x)) as [k' ->].
  split; [|split; [exact Hfg|]].
  - exists (k + k')%nat. rewrite length_insert, length_app, length_replicate. lia.
  - apply Forall_insert; [|exact Hfg].
    apply Forall_app. split; [exact Hcells|].
    apply Forall_replicate. left. cbn. unfold termbox.ColorCyan. lia.
Qed.

(** X19.  Every document [parseText] returns is eighty columns wide and has
    no margin; its array is a whole number of 1024-cell blocks; and the
    foreground of the document and of each of its cells is a colour from the
    default to cyan, with or without bold. *)
Theorem parseText_keeps_the_shape_of_the_grid pk tokens err its :
  match parseText pk tokens err its with
  | Ok (d, _) => gridInvariant d
  | Panic _ => True
  end.
Proof.
  destruct (parseText pk tokens err its) as [[d e]|] eqn:H; [|exact I].
  apply (parseText_invariant gridInvariant) with (5 := H).
  - apply gridInvariant_setCell.
  - unfold gridInvariant. intros c d' -> -> -> -> _. auto.
  - unfold gridInvariant. intros c tags (Hw & Hm & Hk & _ & Hcells).
    destruct (style_other_fields c tags) as (-> & -> & -> & _).
    rewrite style_fg. auto using unionOfAttributes_styleValue.
  - unfold gridInvariant, emptyDoc. cbn.
    split; [reflexivity|]. split; [reflexivity|]. split; [exists 0%nat; reflexivity|].
    split; [left; unfold termbox.ColorCyan; lia|constructor].
Qed.

(** ** Plain markup never panics *)

Lemma textCost_nonneg str : 0 <= textCost str.
Proof. unfold textCost. lia. Qed.

Lemma attrsCost_nonneg attrs : 0 <= attrsCost attrs.
Proof.
  induction attrs as [|a rest IH]; cbn [attrsCost]; [lia|].
  unfold attrCost. destruct (atom.Lookup (html.Key a));
    try lia; pose proof (textCost_nonneg
      (String.append "Alt text: " (String.append (html.Val a) nl))); lia.
Qed.

Lemma tagCost_nonneg w token : 0 <= w -> 0 <= tagCost w token.
Proof.
  intros Hw. unfold tagCost. pose proof (attrsCost_nonneg (html.Attr token)).
  destruct (html.DataAtom token); lia.
Qed.

Lemma tokenCost_nonneg w token : 0 <= w -> 0 <= tokenCost w token.
Proof.
  intros Hw. unfold tokenCost.
  pose proof (textCost_nonneg (html.Data token)).
  pose proof (tagCost_nonneg w token Hw).
  destruct (html.Type_ token); lia.
Qed.

Lemma cost_nonneg w tokens : 0 <= w -> 0 <= cost w tokens.
Proof.
  intros Hw. induction tokens as [|t rest IH]; cbn [cost]; [lia|].
  pose proof (tokenCost_nonneg w t Hw). lia.
Qed.

Lemma snapToMargin_sane c n : sane c n -> snapToMargin c = c.
Proof.
  intros (Hcol & _). unfold snapToMargin.
  destruct (Z.ltb_spec (col c) (lmargin c)); [lia|reflexivity].
Qed.

Lemma appendText_sane c str n :
  0 <= n -> sane c (n + textCost str) ->
  exists c', cellbuf_appendText c str = Ok c' /\ sameSetting c c' /\ sane c' n.
Proof.
  intros Hn Hs. unfold cellbuf_appendText. rewrite (snapToMargin_sane _ _ Hs).
  pose proof (budget_of_a_text str) as Hle. fold (textCost str) in Hle.
  pose proof (budget_nonneg (bufio.scan str)) as Hb.
  destruct (appendWords_sane (bufio.scan str) c n Hn) as (c' & H & Hset & Hsane & _).
  { apply (sane_weaken c (n + textCost str)); [lia|exact Hs]. }
  eauto.
Qed.

Lemma appendRunes_sane c word n :
  0 <= n -> sane c (n + GoInt.len word) ->
  exists c', placeRunes (snapToMargin c) word = Ok c' /\ sameSetting c c' /\ sane c' n.
Proof.
  intros Hn Hs. rewrite (snapToMargin_sane _ _ Hs).
  destruct (placeRunes_sane word c n Hn Hs) as (c' & H & Hset & Hsane & _). eauto.
Qed.

Section PlainMarkup.

Variable pk : Packages.

Lemma ready_doc p d w m n :
  ready p w m -> lmargin d = lmargin (doc p) -> width d = width (doc p) ->
  sane d n -> ready (setDoc p d) w n.
Proof.
  intros (Hts & Hm & Hw & _) Hm' Hw' Hs. unfold ready. cbn [tableStack doc setDoc].
  split; [exact Hts|]. split; [lia|]. split; [lia|exact Hs].
Qed.

Lemma ready_weaken p w m n : 0 <= n <= m -> ready p w m -> ready p w n.
Proof.
  intros Hn (Hts & Hm & Hw & Hs). unfold ready.
  split; [exact Hts|]. split; [exact Hm|]. split; [exact Hw|].
  apply (sane_weaken _ m); assumption.
Qed.

Lemma ready_unfocused p w n : ready p w n -> unfocused (tableStack p).
Proof. intros (-> & _). left. reflexivity. Qed.

Lemma parser_appendText_ready p str w n :
  0 <= n -> ready p w (n + textCost str) ->
  exists d, parser_appendText pk p str false = Ok (setDoc p d) /\ ready (setDoc p d) w n.
Proof.
  intros Hn Hp. rewrite parser_appendText_unfocused by exact (ready_unfocused _ _ _ Hp).
  pose proof Hp as (_ & _ & _ & Hs).
  destruct (appendText_sane _ _ _ Hn Hs) as (d & H & (Hw & Hm & _) & Hsane).
  exists d. rewrite H, bind_Ok. split; [reflexivity|].
  apply (ready_doc p d w (n + textCost str)); assumption.
Qed.

Lemma parser_appendRunes_ready p str w n :
  0 <= n -> ready p w (n + GoInt.len (runes str)) ->
  exists d, parser_appendText pk p str true = Ok (setDoc p d) /\ ready (setDoc p d) w n.
Proof.
  intros Hn Hp. rewrite parser_appendText_unfocused by exact (ready_unfocused _ _ _ Hp).
  pose proof Hp as (_ & _ & _ & Hs). unfold appendRaw.
  destruct (appendRunes_sane _ _ _ Hn Hs) as (d & H & (Hw & Hm & _) & Hsane).
  exists d. rewrite H, bind_Ok. split; [reflexivity|].
  apply (ready_doc p d w (n + GoInt.len (runes str))); assumption.
Qed.

Lemma handleText_ready p token w n :
  0 <= n -> ready p w (n + textCost (html.Data token)) ->
  exists p', handleText pk p token = Ok p' /\ ready p' w n /\
             tagStack p' = tagStack p /\ items p' = items p.
Proof.
  intros Hn Hp. unfold handleText. pose proof (textCost_nonneg (html.Data token)) as Hc.
  destruct (_ && _).
  - exists p. split; [reflexivity|]. split; [|split; reflexivity].
    apply (ready_weaken p w (n + textCost (html.Data token))); [lia|exact Hp].
  - destruct (parser_appendText_ready (setDoc p (style (doc p) (tagStack p)))
                (html.Data token) w n Hn) as (d & H & Hready).
    { pose proof Hp as (_ & _ & _ & Hs).
      apply (ready_doc p _ w (n + textCost (html.Data token))); [exact Hp|reflexivity..|].
      apply (sane_same_cursor (doc p)); [reflexivity..|exact Hs]. }
    rewrite H. exists (setDoc (setDoc p (style (doc p) (tagStack p))) d).
    split; [reflexivity|]. split; [exact Hready|split; reflexivity].
Qed.

Lemma handleImgAttrs_ready attrs : forall p w n,
  0 <= n -> ready p w (n + attrsCost attrs) ->
  Forall (fun a => atom.Lookup (html.Key a) = atom.Src ->
                   findItem (items p) (html.Val a) = None) attrs ->
  exists p', handleImgAttrs pk p attrs = Ok p' /\ ready p' w n /\
             tagStack p' = tagStack p /\ items p' = items p.
Proof.
  induction attrs as [|a rest IH]; intros p w n Hn Hp Hsrc; cbn [handleImgAttrs attrsCost] in *.
  - exists p. rewrite Z.add_0_r in Hp. auto.
  - pose proof (attrsCost_nonneg rest) as Hrest.
    apply Forall_cons in Hsrc as [Ha Hsrc].
    assert (Hstep : exists p1, handleImgAttr pk p a = Ok p1 /\
                      ready p1 w (n + attrsCost rest) /\
                      tagStack p1 = tagStack p /\ items p1 = items p).
    { unfold handleImgAttr, attrCost in *.
      destruct (atom.Lookup (html.Key a));
        try (exists p; split; [reflexivity|]; split; [|split; reflexivity];
             apply (ready_weaken p w (n + (0 + attrsCost rest))); [lia|exact Hp]).
      - destruct (parser_appendText_ready p
                    (String.append "Alt text: " (String.append (html.Val a) nl))
                    w (n + attrsCost rest)) as (d & H & Hready); [lia| |].
        { replace (n + attrsCost rest + textCost _) with
            (n + (textCost (String.append "Alt text: " (String.append (html.Val a) nl)) +
                  attrsCost rest)) by lia. exact Hp. }
        exists (setDoc p d). rewrite H. auto.
      - rewrite (getTableCell_unfocused p (ready_unfocused _ _ _ Hp)).
        rewrite (Ha eq_refl). exists p. split; [reflexivity|]. split; [|split; reflexivity].
        apply (ready_weaken p w (n + (0 + attrsCost rest))); [lia|exact Hp]. }
    destruct Hstep as (p1 & H1 & Hready & Htags & Hits).
    destruct (IH p1 w n Hn Hready) as (p' & H & Hready' & Htags' & Hits');
      [rewrite Hits; exact Hsrc|].
    exists p'. rewrite H1, bind_Ok. split; [exact H|]. split; [exact Hready'|].
    split; congruence.
Qed.

Lemma handleStartTag_ready p token w n :
  0 <= n -> ready p w (n + tagCost w token) -> plainTag (items p) token ->
  exists p', handleStartTag pk p token = Ok p' /\ ready p' w n /\
             tagStack p' = tagStack p /\ items p' = items p.
Proof.
  intros Hn Hp Hplain. unfold handleStartTag, tagCost, plainTag in *.
  pose proof Hp as (Hts & Hm & Hw & Hs).
  destruct (html.DataAtom token);
    try (exists p; split; [reflexivity|]; split; [|split; reflexivity];
         rewrite Z.add_0_r in Hp; exact Hp);
    try contradiction.
  - (* img *) apply handleImgAttrs_ready; assumption.
  - (* br *)
    destruct (parser_appendRunes_ready p nl w n Hn) as (d & H & Hready); [exact Hp|].
    exists (setDoc p d). rewrite H. auto.
  - (* p *)
    pose proof Hs as (Hcol & Hrow & Hwidth & _ & H1 & H2).
    assert (Hadd : GoInt.add (col (doc p)) 2 = col (doc p) + 2).
    { apply add_exact. unfold GoInt.inRange, GoInt.minInt, GoInt.maxInt in *. nia. }
    rewrite Hadd. eexists. split; [reflexivity|]. split; [|split; reflexivity].
    apply (ready_doc p _ w (n + 2)); [exact Hp|reflexivity..|].
    unfold sane. cbn [lmargin col row width setCol]. repeat split; try lia; nia.
  - (* hr *)
    cbn [doc setDoc width setCol]. unfold strings_Repeat.
    pose proof Hs as (Hcol & Hrow & Hwidth & _ & H1 & H2).
    destruct (Z.ltb_spec (width (doc p)) 0) as [|_]; [lia|]. rewrite bind_Ok.
    set (line := fold_right String.append EmptyString _).
    assert (Hlen : GoInt.len (runes line) = w).
    { unfold line. rewrite runes_of_a_rule. unfold GoInt.len. rewrite length_replicate. lia. }
    destruct (parser_appendRunes_ready (setDoc p (setCol (doc p) 0)) line w n Hn)
      as (d & H & Hready).
    { rewrite Hlen. apply (ready_doc p _ w (n + w)); [exact Hp|reflexivity..|].
      unfold sane. cbn [lmargin col row width setCol]. repeat split; try lia; nia. }
    rewrite H. eexists. split; [reflexivity|]. split; [exact Hready|split; reflexivity].
Qed.

Lemma ready_tags p tags w n : ready p w n -> ready (setTagStack p tags) w n.
Proof. unfold ready. cbn [tableStack doc setTagStack]. auto. Qed.

Lemma parse_ready tokens err w : forall p depth n,
  0 <= n -> ready p w (n + cost w tokens) ->
  length (tagStack p) = depth ->
  Z.of_nat depth + GoInt.len tokens < GoInt.maxInt ->
  wellNested (items p) depth tokens ->
  exists p', parse pk tokens err p = Ok (p', returned err) /\ ready p' w n.
Proof.
  induction tokens as [|token rest IH]; intros p depth n Hn Hp Hdepth Hlen Hnest;
    cbn [parse cost wellNested] in *.
  { exists p. rewrite Z.add_0_r in Hp. auto. }
  assert (Hw : 0 <= w) by (destruct Hp as (_ & _ & <- & _ & _ & Hw & _); exact Hw).
  pose proof (cost_nonneg w rest Hw) as Hrest.
  pose proof (tokenCost_nonneg w token Hw) as Htoken.
  assert (Hcons : GoInt.len (token :: rest) = GoInt.len rest + 1)
    by (unfold GoInt.len; cbn [length]; lia).
  rewrite Hcons in Hlen. pose proof (len_nonneg rest) as Hnonneg.
  assert (Hcost : n + (tokenCost w token + cost w rest) = n + cost w rest + tokenCost w token)
    by lia.
  rewrite Hcost in Hp. unfold tokenCost, dispatch in *.
  destruct (html.Type_ token) eqn:Hty.
  - (* error token *)
    exists p. split; [reflexivity|].
    apply (ready_weaken p w (n + cost w rest + 0)); [lia|exact Hp].
  - (* text *)
    destruct (handleText_ready p token w (n + cost w rest)) as (p1 & H1 & Hready & Htags & Hits);
      [lia|exact Hp|].
    rewrite H1, bind_Ok. apply (IH p1 depth n); try assumption; [congruence|lia|].
    rewrite Hits. exact Hnest.
  - (* start tag *)
    destruct Hnest as [Hplain Hnest].
    destruct (handleStartTag_ready (setTagStack p (tagStack p ++ [html.DataAtom token]))
                token w (n + cost w rest)) as (p1 & H1 & Hready & Htags & Hits);
      [lia|apply ready_tags; exact Hp|exact Hplain|].
    rewrite H1, bind_Ok. apply (IH p1 (S depth) n); try assumption.
    + rewrite Htags. cbn [tagStack setTagStack]. rewrite length_app. cbn [length]. lia.
    + lia.
    + rewrite Hits. exact Hnest.
  - (* end tag *)
    destruct Hnest as [Hatom Hnest]. destruct depth as [|depth]; [contradiction|].
    assert (Hend : handleEndTag pk p token = Ok p).
    { unfold handleEndTag. destruct (html.DataAtom token); congruence. }
    rewrite Hend, bind_Ok.
    destruct (tagStack p) as [|x tags _] eqn:Hstack using rev_ind; [discriminate|].
    rewrite length_app in Hdepth. cbn [length] in Hdepth.
    rewrite sub_len_top by (unfold GoInt.len; lia).
    rewrite sliceTo_top, bind_Ok, bind_Ok.
    apply (IH (setTagStack p tags) depth n); try assumption.
    + apply ready_tags. apply (ready_weaken p w (n + cost w rest + 0)); [lia|exact Hp].
    + cbn [tagStack setTagStack]. lia.
    + lia.
  - (* self-closing tag *)
    destruct Hnest as [Hplain Hnest].
    destruct (handleStartTag_ready p token w (n + cost w rest))
      as (p1 & H1 & Hready & Htags & Hits); [lia|exact Hp|exact Hplain|].
    rewrite H1, bind_Ok. apply (IH p1 depth n); try assumption; [congruence|lia|].
    rewrite Hits. exact Hnest.
  - (* comment *)
    rewrite bind_Ok. apply (IH p depth n); try assumption; [|lia].
    apply (ready_weaken p w (n + cost w rest + 0)); [lia|exact Hp].
  - (* doctype *)
    rewrite bind_Ok. apply (IH p depth n); try assumption; [|lia].
    apply (ready_weaken p w (n + cost w rest + 0)); [lia|exact Hp].
Qed.

(** X20.  On plain markup, that is texts, comments, and tags other than
    those of tables and of images whose source is among the items, in which
    no end tag comes without an open tag before it, [parseText] never panics
    while the cursor stays within the range of [int]: it returns a document
    eighty columns wide beside the tokenizer's error ([nil] for [io.EOF]). *)
Theorem parseText_never_panics_on_plain_markup tokens err its :
  wellNested its 0 tokens ->
  81 * cost 80 tokens <= GoInt.maxInt ->
  GoInt.len tokens < GoInt.maxInt ->
  exists d,
    parseText pk tokens err its = Ok (d, returned err) /\
    width d = 80 /\ lmargin d = 0 /\ 0 <= col d /\ 0 <= row d.
Proof.
  intros Hnest Hroom Hlen. unfold parseText. cbn zeta.
  pose proof (cost_nonneg 80 tokens) as Hcost.
  destruct (parse_ready tokens err 80 (mkParser [] [] (mkCellbuf [] 80 0 0 0 0 0) its) 0%nat 0)
    as (p' & H & Hready); [lia| |reflexivity|cbn; lia|exact Hnest|].
  { unfold ready, sane. cbn. repeat split; lia. }
  rewrite H, bind_Ok. destruct Hready as (_ & Hm & Hw & (Hcol & Hrow & _)).
  exists (doc p'). split; [destruct (returned err); reflexivity|]. repeat split; lia.
Qed.

End PlainMarkup.

Lemma plain_page_is_rendered :
  (wellNested [] 0 plainPage /\ 81 * cost 80 plainPage <= GoInt.maxInt /\
   GoInt.len plainPage < GoInt.maxInt) /\
  exists d,
    parseText examplePackages plainPage io.EOF [] = Ok (d, returned io.EOF) /\
    width d = 80 /\ lmargin d = 0 /\ 0 <= col d /\ 0 <= row d.
Proof.
  assert (H1 : wellNested [] 0 plainPage) by (cbn; repeat split; discriminate).
  assert (H2 : 81 * cost 80 plainPage <= GoInt.maxInt) by (vm_compute; discriminate).
  assert (H3 : GoInt.len plainPage < GoInt.maxInt) by (vm_compute; reflexivity).
  split; [auto|].
  apply (parseText_never_panics_on_plain_markup examplePackages plainPage io.EOF [] H1 H2 H3).
Defined.
